(** * Minesweeper board engine: a shallow embedding of [MineBoard]

    The repository holds two revisions of the same class:
    - [src/main.ts]: the board is built from a target mine count or from a
      pre-drawn string layout (module [Main]);
    - [src/unnamed/part_000]: the board is built from a per-position
      predicate [randomer] (module [Part000]).

    Both revisions share [deltaMap], [MineSlot], [isVaildPosition],
    [nearByMine], the neighbour-count loops and [touchingNoMine]; these are
    embedded once, over the [slots] record and the two dimensions they read.

    Conventions of the embedding:
    - JavaScript numbers are integers here ([Z]); [Math.floor (a / b)] is
      [Z.div] and [a % b] is [Z.rem];
    - a [Position] is the template string [`${x}-${y}`]; this formatting is
      injective on pairs of integers and [touchingNoMine] recovers the pair
      with [split]/[parseInt], so a position is the pair [(x, y)] itself;
    - [slots : Record<Position, MineSlot>] is a finite map; reading a field
      of a missing slot is the [TypeError] JavaScript raises;
    - a method that mutates [this] and may throw returns the final state
      together with an [outcome]: mutations made before a throw persist. *)

From Stdlib Require Import ZArith Lia Ascii String.
From stdpp Require Import base option list gmap strings.

Local Open Scope Z_scope.

(** ** Shared data *)

Abbreviation Position := (Z * Z)%type.

(** [deltaMap], in the order of the source. *)
Definition deltaMap : list (Z * Z) :=
  [(-1, 1); (-1, 0); (-1, -1); (0, -1); (0, 1); (1, 1); (1, 0); (1, -1)].

(** [class MineSlot]: [nearbyMine] and [reveal] have field initialisers. *)
Record MineSlot := mkMineSlot {
  hasMine : bool;
  nearbyMine : Z;
  reveal : bool
}.

Definition newMineSlot (hasMine : bool) : MineSlot :=
  {| hasMine := hasMine; nearbyMine := 0; reveal := false |}.

Definition set_nearbyMine (n : Z) (s : MineSlot) : MineSlot :=
  {| hasMine := hasMine s; nearbyMine := n; reveal := reveal s |}.

Definition set_reveal (r : bool) (s : MineSlot) : MineSlot :=
  {| hasMine := hasMine s; nearbyMine := nearbyMine s; reveal := r |}.

Inductive GameState := playing | dead | win.

Global Instance GameState_eq_dec : EqDecision GameState.
Proof. solve_decision. Defined.

(** [interface RevealEvent]; [click] always fills [nearbyMine]. *)
Record RevealEvent := mkRevealEvent {
  position : Position;
  ev_nearbyMine : Z
}.

(** The exceptions of the program: the three [Error]s it throws itself and
    the [TypeError] of a property access on [undefined]. *)
Inductive Error :=
| TooManyMines                      (* Error("Too many mines") *)
| BoardTooSmall                     (* Error("board too small or index negative!") *)
| ThereIsMineAt (p : Position)      (* Error("There is mine at " + position) *)
| TypeError.

(** Result of a call: a value, a thrown exception, or [Diverge] when the
    fuel of a [while] loop is used up (shown below never to happen). *)
Inductive outcome (A : Type) :=
| Ret (a : A)
| Throw (e : Error)
| Diverge.
Arguments Ret {A} a.
Arguments Throw {A} e.
Arguments Diverge {A}.

(** [for (let i = 0; i < n; i++)]: the values taken by [i]. *)
Definition range (n : Z) : list Z := Z.of_nat <$> seq 0 (Z.to_nat n).

(** A loop over [l] whose body mutates a state [S] and may throw. *)
Fixpoint forEach {S A : Type} (l : list A) (body : A → S → S * outcome unit)
    (s : S) : S * outcome unit :=
  match l with
  | [] => (s, Ret tt)
  | a :: l' =>
      match body a s with
      | (s', Ret _) => forEach l' body s'
      | (s', Throw e) => (s', Throw e)
      | (s', Diverge) => (s', Diverge)
      end
  end.

(** ** Methods shared by both revisions *)

Section Shared.
(** [this.width], [this.height]: never assigned after construction. *)
Variables width height : Z.

Definition isVaildPosition (x y : Z) : bool :=
  negb ((x <? 0) || (x >=? width) || (y <? 0) || (y >=? height)).

(** [nearByMine(i, j)]: [this.slots[position] && ...hasMine]. *)
Definition nearByMine (slots : gmap Position MineSlot) (i j : Z) : Z :=
  fold_left
    (fun count d =>
       match slots !! (i + d.1, j + d.2) with
       | Some s => if hasMine s then count + 1 else count
       | None => count
       end)
    deltaMap 0.

(** [this.slots[position].nearbyMine = this.nearByMine(i, j)] *)
Definition setNearbyMine (i j : Z) (slots : gmap Position MineSlot)
    : gmap Position MineSlot * outcome unit :=
  match slots !! (i, j) with
  | None => (slots, Throw TypeError)
  | Some s => (<[(i, j) := set_nearbyMine (nearByMine slots i j) s]> slots, Ret tt)
  end.

(** [initNearbyMine()] of main.ts; the second pair of loops of
    [initField] in part_000. *)
Definition initNearbyMine (slots : gmap Position MineSlot)
    : gmap Position MineSlot * outcome unit :=
  forEach (range width)
    (fun i => forEach (range height) (fun j => setNearbyMine i j))
    slots.

(** The [for (const {x, y} of deltaMap)] loop of [touchingNoMine], run
    for the cell [(i, j)]. The stack is kept with its top at the head:
    [stack.push p] is [p :: stack], [stack.pop()] takes the head. *)
Fixpoint pushNeighbours (slots : gmap Position MineSlot) (i j : Z)
    (result : list Position) (deltas : list (Z * Z)) (stack : list Position)
    : outcome (list Position) :=
  match deltas with
  | [] => Ret stack
  | (x, y) :: deltas' =>
      if negb (isVaildPosition (x + i) (y + j))
      then pushNeighbours slots i j result deltas' stack
      else
        let position := (x + i, y + j) in
        match slots !! position with
        | None => Throw TypeError
        | Some s =>
            if hasMine s || reveal s
               || bool_decide (position ∈ result)
               || bool_decide (position ∈ stack)
            then pushNeighbours slots i j result deltas' stack
            else pushNeighbours slots i j result deltas' (position :: stack)
        end
  end.

(** [while (stack.length != 0) { ... }], with fuel. The pair [(i, j)] is
    what [current.split("-").map(parseInt)] reads back: [click] starts the
    loop in bounds and only in-bounds positions are pushed, so no
    coordinate carries a sign. *)
Fixpoint floodLoop (slots : gmap Position MineSlot) (fuel : nat)
    (stack result : list Position) : outcome (list Position) :=
  match fuel with
  | O => Diverge
  | S fuel' =>
      match stack with
      | [] => Ret result
      | current :: stack' =>
          let result' := result ++ [current] in
          let '(i, j) := current in
          match slots !! current with
          | None => Throw TypeError
          | Some s =>
              if nearbyMine s >? 0 then floodLoop slots fuel' stack' result'
              else
                match pushNeighbours slots i j result' deltaMap stack' with
                | Ret stack'' => floodLoop slots fuel' stack'' result'
                | Throw e => Throw e
                | Diverge => Diverge
                end
          end
      end
  end.

(** Enough iterations for any grid: two more than the number of cells. *)
Definition floodFuel : nat := S (S (Z.to_nat (width * height))).

Definition touchingNoMine (slots : gmap Position MineSlot) (ox oy : Z)
    : outcome (list Position) :=
  let position := (ox, oy) in
  match slots !! position with
  | None => Throw TypeError
  | Some s =>
      if hasMine s then Throw (ThereIsMineAt position)
      else floodLoop slots floodFuel [position] []
  end.

(** The callback of [this.touchingNoMine(x, y).map(...)] in [click],
    applied to the positions in order; the state is
    [(this.slots, this.revealCount)]. *)
Fixpoint revealAll (ps : list Position)
    (st : gmap Position MineSlot * Z)
    : (gmap Position MineSlot * Z) * outcome (list RevealEvent) :=
  match ps with
  | [] => (st, Ret [])
  | position :: ps' =>
      match st.1 !! position with
      | None => (st, Throw TypeError)
      | Some slot =>
          let st' := (<[position := set_reveal true slot]> st.1, st.2 + 1) in
          let ev := {| position := position; ev_nearbyMine := nearbyMine slot |} in
          match revealAll ps' st' with
          | (st'', Ret evs) => (st'', Ret (ev :: evs))
          | (st'', Throw e) => (st'', Throw e)
          | (st'', Diverge) => (st'', Diverge)
          end
      end
  end.
End Shared.

(** ** src/main.ts: mine count or string layout *)

Module Main.

Record MineBoard := mkMineBoard {
  slots : gmap Position MineSlot;
  mineCount : Z;
  state : GameState;
  revealCount : Z;
  width : Z;
  height : Z;
  fieldInited : bool
}.

Definition set_slots (v : gmap Position MineSlot) (b : MineBoard) : MineBoard :=
  mkMineBoard v (mineCount b) (state b) (revealCount b) (width b) (height b)
    (fieldInited b).
Definition set_state (v : GameState) (b : MineBoard) : MineBoard :=
  mkMineBoard (slots b) (mineCount b) v (revealCount b) (width b) (height b)
    (fieldInited b).
Definition set_revealCount (v : Z) (b : MineBoard) : MineBoard :=
  mkMineBoard (slots b) (mineCount b) (state b) v (width b) (height b)
    (fieldInited b).
Definition set_fieldInited (v : bool) (b : MineBoard) : MineBoard :=
  mkMineBoard (slots b) (mineCount b) (state b) (revealCount b) (width b)
    (height b) v.

(** *** The string layout of the constructor

    A layout is a [string] of code units below 256. [isWhiteSpace] is the
    class of [String.prototype.trim] and of the regular expression [\s]
    on that range: TAB, LF, VT, FF, CR, space and NBSP. *)
Definition isWhiteSpace (c : ascii) : bool :=
  let n := N_of_ascii c in
  ((9 <=? n) && (n <=? 13) || (n =? 32) || (n =? 160))%N.

Fixpoint trimStart (s : list ascii) : list ascii :=
  match s with
  | c :: s' => if isWhiteSpace c then trimStart s' else s
  | [] => []
  end.

(** [s.trim()] *)
Definition trim (s : list ascii) : list ascii :=
  reverse (trimStart (reverse (trimStart s))).

(** [s.split("\n")]; [cur] is the piece being read, reversed. *)
Fixpoint splitLines (cur s : list ascii) : list (list ascii) :=
  match s with
  | [] => [reverse cur]
  | c :: s' =>
      if (N_of_ascii c =? 10)%N then reverse cur :: splitLines [] s'
      else splitLines (c :: cur) s'
  end.

(** [s.split(/\s+/)]: a maximal run of white space separates two
    pieces; [inRun] tells that the previous character was white space. *)
Fixpoint splitSpaces (inRun : bool) (cur s : list ascii) : list (list ascii) :=
  match s with
  | [] => [reverse cur]
  | c :: s' =>
      if isWhiteSpace c
      then if inRun then splitSpaces true cur s'
           else reverse cur :: splitSpaces true [] s'
      else splitSpaces false (c :: cur) s'
  end.

(** [mineCountOrSlots.trim().split("\n").map((row) =>
    row.trim().split(/\s+/))] *)
Definition parseRows (layout : string) : list (list (list ascii)) :=
  (fun row => splitSpaces false [] (trim row))
    <$> splitLines [] (trim (list_ascii_of_string layout)).

(** [rows[y][x] === "x"]; a missing entry is [undefined]. *)
Definition isX (rows : list (list (list ascii))) (x y : nat) : bool :=
  match rows !! y ≫= (.!! x) with
  | Some tok => bool_decide (tok = ["x"%char])
  | None => false
  end.

(** The body of the two [for] loops of the string branch; the state is
    [(this.slots, this.mineCount)]. *)
Definition layoutCell (rows : list (list (list ascii))) (y x : Z)
    (st : gmap Position MineSlot * Z) : gmap Position MineSlot * Z :=
  let hasMine := isX rows (Z.to_nat x) (Z.to_nat y) in
  (<[(x, y) := newMineSlot hasMine]> st.1,
   if hasMine then st.2 + 1 else st.2).

Definition layoutCells (rows : list (list (list ascii))) (width height : Z)
    : gmap Position MineSlot * Z :=
  fold_left
    (fun st y => fold_left (fun st x => layoutCell rows y x st) (range width) st)
    (range height) (∅, 0).

(** [constructor(width, height, mineCountOrSlots)]: the argument is a
    number or a string. A throw leaves no object behind. The numbers are
    integers, and [width * height] is the exact product: this is what the
    source computes as long as the product is a safe integer (see
    [safeInteger]); beyond [2 ^ 53] the product of the source is rounded. *)
Definition constructor (width height : Z) (mineCountOrSlots : Z + string)
    : outcome MineBoard :=
  match mineCountOrSlots with
  | inr layout =>
      let rows := parseRows layout in
      let width' := Z.of_nat (length (default [] (rows !! 0%nat))) in
      let height' := Z.of_nat (length rows) in
      let '(slots1, mineCount') := layoutCells rows width' height' in
      match initNearbyMine width' height' slots1 with
      | (slots2, Ret _) =>
          Ret (mkMineBoard slots2 mineCount' playing 0 width' height' true)
      | (_, Throw e) => Throw e
      | (_, Diverge) => Diverge
      end
  | inl mineCount =>
      if mineCount >=? width * height then Throw TooManyMines
      else Ret (mkMineBoard ∅ mineCount playing 0 width height false)
  end.

(** *** Lazy initialisation *)

(** [[positions[i], positions[j]] = [positions[j], positions[i]]] *)
Definition swap (positions : list Position) (i j : nat) : list Position :=
  match positions !! i, positions !! j with
  | Some pi, Some pj => <[j := pi]> (<[i := pj]> positions)
  | _, _ => positions
  end.

(** The Fisher-Yates loop, [i] running down to 1. [rnd i] is the draw of
    [Math.random()] made at index [i]; [Math.floor(Math.random() * (i + 1))]
    is some index in [0, i], here [rnd i mod (i + 1)], so that every
    outcome of the loop is the outcome for some [rnd]. *)
Fixpoint shuffle (rnd : nat → nat) (i : nat) (positions : list Position)
    : list Position :=
  match i with
  | O => positions
  | S i' => shuffle rnd i' (swap positions i (rnd i mod (i + 1))%nat)
  end.

(** [positions.forEach((position, i) => this.slots[position] =
    new MineSlot(i < this.mineCount))], from index [i] on. *)
Fixpoint placeMines (mineCount : Z) (i : nat) (positions : list Position)
    (slots : gmap Position MineSlot) : gmap Position MineSlot :=
  match positions with
  | [] => slots
  | position :: rest =>
      placeMines mineCount (S i) rest
        (<[position := newMineSlot (Z.of_nat i <? mineCount)]> slots)
  end.

(** [Array.from({length: width * height}, (_, index) => ...)] followed by
    [.filter((position) => position !== clickPosition)]. *)
Definition candidatePositions (width height : Z) (clickPosition : Position)
    : list Position :=
  filter (λ position, position ≠ clickPosition)
    ((λ index, (index / width, Z.rem index height)) <$> range (width * height)).

Definition initField (rnd : nat → nat) (x y : Z) (b : MineBoard)
    : MineBoard * outcome unit :=
  if fieldInited b then (b, Ret tt)
  else
    let b := set_fieldInited true b in
    let clickPosition := (x, y) in
    let positions := candidatePositions (width b) (height b) clickPosition in
    let positions := shuffle rnd (length positions - 1) positions in
    let positions := positions ++ [clickPosition] in
    let b := set_slots (placeMines (mineCount b) 0 positions (slots b)) b in
    let '(slots', r) := initNearbyMine (width b) (height b) (slots b) in
    (set_slots slots' b, r).

(** *** [click] *)

Definition click (rnd : nat → nat) (x y : Z) (b : MineBoard)
    : MineBoard * outcome (GameState * list RevealEvent) :=
  if negb (isVaildPosition (width b) (height b) x y)
  then (b, Throw BoardTooSmall)
  else
    match initField rnd x y b with
    | (b, Throw e) => (b, Throw e)
    | (b, Diverge) => (b, Diverge)
    | (b, Ret _) =>
        let position := (x, y) in
        match slots b !! position with
        | None => (b, Throw TypeError)
        | Some slot =>
            let b := if hasMine slot then set_state dead b else b in
            if negb (bool_decide (state b = playing))
            then (b, Ret (state b, []))
            else
              match touchingNoMine (width b) (height b) (slots b) x y with
              | Throw e => (b, Throw e)
              | Diverge => (b, Diverge)
              | Ret ps =>
                  match revealAll ps (slots b, revealCount b) with
                  | (st, Throw e) =>
                      (set_revealCount st.2 (set_slots st.1 b), Throw e)
                  | (st, Diverge) =>
                      (set_revealCount st.2 (set_slots st.1 b), Diverge)
                  | (st, Ret reveals) =>
                      let b := set_revealCount st.2 (set_slots st.1 b) in
                      let b :=
                        if bool_decide
                             (revealCount b = width b * height b - mineCount b)
                        then set_state win b else b in
                      (b, Ret (state b, reveals))
                  end
              end
        end
    end.

End Main.

(** ** src/unnamed/part_000: mines drawn by a predicate *)

Module Part000.

Record MineBoard := mkMineBoard {
  slots : gmap Position MineSlot;
  revealCount : Z;
  totalSpaceCount : Z;
  randomer : Z → Z → bool;
  state : GameState;
  width : Z;
  height : Z;
  fieldInited : bool
}.

Definition set_slots (v : gmap Position MineSlot) (b : MineBoard) : MineBoard :=
  mkMineBoard v (revealCount b) (totalSpaceCount b) (randomer b) (state b)
    (width b) (height b) (fieldInited b).
Definition set_revealCount (v : Z) (b : MineBoard) : MineBoard :=
  mkMineBoard (slots b) v (totalSpaceCount b) (randomer b) (state b)
    (width b) (height b) (fieldInited b).
Definition set_totalSpaceCount (v : Z) (b : MineBoard) : MineBoard :=
  mkMineBoard (slots b) (revealCount b) v (randomer b) (state b)
    (width b) (height b) (fieldInited b).
Definition set_state (v : GameState) (b : MineBoard) : MineBoard :=
  mkMineBoard (slots b) (revealCount b) (totalSpaceCount b) (randomer b) v
    (width b) (height b) (fieldInited b).
Definition set_fieldInited (v : bool) (b : MineBoard) : MineBoard :=
  mkMineBoard (slots b) (revealCount b) (totalSpaceCount b) (randomer b)
    (state b) (width b) (height b) v.

(** [constructor(width, height, randomer?)]. The default predicate
    [() => Math.random() < 0.2] is asked at most once per cell, so its
    answers are a function [coin] of the cell. *)
Definition constructor (coin : Z → Z → bool) (width height : Z)
    (randomer : option (Z → Z → bool)) : MineBoard :=
  mkMineBoard ∅ 0 0 (default coin randomer) playing width height false.

(** The body of the first pair of loops of [initField]; the state is
    [(this.slots, this.totalSpaceCount)]. *)
Definition fieldCell (randomer : Z → Z → bool) (clickPosition : Position)
    (i j : Z) (st : gmap Position MineSlot * Z) : gmap Position MineSlot * Z :=
  let position := (i, j) in
  let hasMine :=
    if bool_decide (position = clickPosition) then false else randomer i j in
  (<[position := newMineSlot hasMine]> st.1,
   if negb hasMine then st.2 + 1 else st.2).

Definition fieldCells (randomer : Z → Z → bool) (clickPosition : Position)
    (width height : Z) (st : gmap Position MineSlot * Z)
    : gmap Position MineSlot * Z :=
  fold_left
    (fun st i =>
       fold_left (fun st j => fieldCell randomer clickPosition i j st)
         (range height) st)
    (range width) st.

Definition initField (x y : Z) (b : MineBoard) : MineBoard * outcome unit :=
  if fieldInited b then (b, Ret tt)
  else
    let b := set_fieldInited true b in
    let clickPosition := (x, y) in
    let st := fieldCells (randomer b) clickPosition (width b) (height b)
                (slots b, totalSpaceCount b) in
    let b := set_totalSpaceCount st.2 (set_slots st.1 b) in
    let '(slots', r) := initNearbyMine (width b) (height b) (slots b) in
    (set_slots slots' b, r).

Definition click (x y : Z) (b : MineBoard)
    : MineBoard * outcome (GameState * list RevealEvent) :=
  if negb (isVaildPosition (width b) (height b) x y)
  then (b, Throw BoardTooSmall)
  else
    match initField x y b with
    | (b, Throw e) => (b, Throw e)
    | (b, Diverge) => (b, Diverge)
    | (b, Ret _) =>
        let position := (x, y) in
        match slots b !! position with
        | None => (b, Throw TypeError)
        | Some slot =>
            let b := if hasMine slot then set_state dead b else b in
            if negb (bool_decide (state b = playing))
            then (b, Ret (state b, []))
            else
              match touchingNoMine (width b) (height b) (slots b) x y with
              | Throw e => (b, Throw e)
              | Diverge => (b, Diverge)
              | Ret ps =>
                  match revealAll ps (slots b, revealCount b) with
                  | (st, Throw e) =>
                      (set_revealCount st.2 (set_slots st.1 b), Throw e)
                  | (st, Diverge) =>
                      (set_revealCount st.2 (set_slots st.1 b), Diverge)
                  | (st, Ret reveals) =>
                      let b := set_revealCount st.2 (set_slots st.1 b) in
                      let b :=
                        if bool_decide (revealCount b = totalSpaceCount b)
                        then set_state win b else b in
                      (b, Ret (state b, reveals))
                  end
              end
        end
    end.

End Part000.

(** ** Predicates and measures used by the statements *)

(** [Number.isSafeInteger(n)]: an integer of magnitude at most
    [2 ^ 53 - 1]. Sums, products and comparisons of numbers are exact on
    integers as long as the arguments and the result are safe. *)
Definition safeInteger (n : Z) : Prop :=
  -9007199254740991 ≤ n ≤ 9007199254740991.

(** The positions visited by [for i < width] / [for j < height], in order. *)
Definition gridPositions (width height : Z) : list Position :=
  i ← range width; (λ j, (i, j)) <$> range height.

(** Two slot maps with the same mines. *)
Definition sameMines (s1 s2 : gmap Position MineSlot) : Prop :=
  ∀ p, hasMine <$> s1 !! p = hasMine <$> s2 !! p.

(** Whether [p] holds a cell with a mine. *)
Definition hasMineAt (slots : gmap Position MineSlot) (p : Position) : bool :=
  match slots !! p with Some s => hasMine s | None => false end.

(** What the claim calls the number of in-bounds Moore neighbours with a
    mine: the offsets of [deltaMap] that land inside the grid on a mine. *)
Definition inBoundsMineNeighbours (width height : Z)
    (slots : gmap Position MineSlot) (i j : Z) : Z :=
  Z.of_nat (length (filter
    (λ d, isVaildPosition width height (i + d.1) (j + d.2) = true
          ∧ hasMineAt slots (i + d.1, j + d.2) = true)
    deltaMap)).

(** A map covers the grid when every in-bounds position holds a slot, and
    fits it when it holds nothing else. *)
Definition coversGrid (width height : Z) (slots : gmap Position MineSlot) : Prop :=
  ∀ x y, isVaildPosition width height x y = true → is_Some (slots !! (x, y)).

Definition fitsGrid (width height : Z) (slots : gmap Position MineSlot) : Prop :=
  ∀ x y, is_Some (slots !! (x, y)) → isVaildPosition width height x y = true.

(** [isVaildPosition] on a position. *)
Definition inGrid (width height : Z) (p : Position) : Prop :=
  isVaildPosition width height p.1 p.2 = true.

(** The flood fill of [touchingNoMine] on given dimensions and slots. *)
Section FloodDefs.
Variables (width height : Z) (slots : gmap Position MineSlot).

(** [p] is a neighbour of a cell [q] of [result] that was expanded, that
    is, whose count is not positive. *)
Definition pushedFrom (result : list Position) (p : Position) : Prop :=
  ∃ q sq d, q ∈ result ∧ slots !! q = Some sq ∧ ¬ (nearbyMine sq > 0)
            ∧ d ∈ deltaMap ∧ p = (d.1 + q.1, d.2 + q.2).

(** How a call inside the fill may end: with a value satisfying [P], or
    with the [TypeError] of a missing in-bounds slot; never out of fuel. *)
Definition fillOutcome {A} (P : A → Prop) (o : outcome A) : Prop :=
  match o with
  | Ret a => P a
  | Throw e => e = TypeError ∧ ¬ coversGrid width height slots
  | Diverge => False
  end.

Variable start : Position.

(** The invariant of the [while] loop. *)
Record fillInv (stack result : list Position) : Prop := {
  fill_nodup : NoDup (stack ++ result);
  fill_valid : ∀ p, p ∈ stack ++ result → inGrid width height p;
  fill_slot : ∀ p, p ∈ stack ++ result → is_Some (slots !! p);
  fill_from : ∀ p, p ∈ stack ++ result → p = start ∨ pushedFrom result p
}.
End FloodDefs.

(** The cells of [slots'] have the mines and the counts of [slots]. *)
Definition sameCells (slots slots' : gmap Position MineSlot) : Prop :=
  ∀ q, hasMine <$> slots' !! q = hasMine <$> slots !! q ∧
       nearbyMine <$> slots' !! q = nearbyMine <$> slots !! q.

(** The state of the cells after a sound initialisation: the slots are
    exactly those of the grid, and each stores the number of its in-bounds
    Moore neighbours that hold a mine. *)
Definition wellCounted (width height : Z) (slots : gmap Position MineSlot) : Prop :=
  coversGrid width height slots ∧ fitsGrid width height slots ∧
  ∀ x y s, slots !! (x, y) = Some s →
    nearbyMine s = inBoundsMineNeighbours width height slots x y.

(** The mine the first pair of loops of [initField] puts at [q]. *)
Definition drawnMine (randomer : Z → Z → bool) (clickPosition q : Position) : bool :=
  if bool_decide (q = clickPosition) then false else randomer q.1 q.2.

(** A neighbour is settled when the fill has nothing to do with it: it
    holds a slot that has a mine, is revealed, or is in [seen]. *)
Definition settled (slots : gmap Position MineSlot) (seen : list Position)
    (p : Position) : Prop :=
  ∃ s, slots !! p = Some s ∧ (hasMine s = true ∨ reveal s = true ∨ p ∈ seen).

(** All in-bounds neighbours of [q] are settled. *)
Definition neighboursSettled (width height : Z) (slots : gmap Position MineSlot)
    (seen : list Position) (q : Position) : Prop :=
  ∀ d, d ∈ deltaMap → inGrid width height (d.1 + q.1, d.2 + q.2) →
       settled slots seen (d.1 + q.1, d.2 + q.2).

(** Every expanded cell of [result] has its neighbours settled by the
    slots and the two lists. *)
Definition fillClosed (width height : Z) (slots : gmap Position MineSlot)
    (stack result : list Position) : Prop :=
  ∀ q sq, q ∈ result → slots !! q = Some sq → ¬ (nearbyMine sq > 0) →
          neighboursSettled width height slots (stack ++ result) q.

(** Every revealed cell has a positive count or only settled neighbours:
    what the reveals of completed fills leave behind. *)
Definition revealClosed (width height : Z) (slots : gmap Position MineSlot) : Prop :=
  ∀ q sq, slots !! q = Some sq → reveal sq = true →
          nearbyMine sq > 0 ∨ neighboursSettled width height slots [] q.

(** No cell is revealed. *)
Definition unrevealed (slots : gmap Position MineSlot) : Prop :=
  ∀ q s, slots !! q = Some s → reveal s = false.

(** The number of cells with [reveal = true]. *)
Definition revealedCells (slots : gmap Position MineSlot) : Z :=
  Z.of_nat (size (filter (λ kv, reveal kv.2 = true) slots)).

(** The number of grid cells that hold a mine. *)
Definition gridMines (width height : Z) (slots : gmap Position MineSlot) : Z :=
  Z.of_nat (length (filter (λ p, hasMineAt slots p = true)
                      (gridPositions width height))).

(** The tokens equal to ["x"] in a row, and the counts over a layout: all
    of them, and those among the first [width] tokens of each row. *)
Definition xTokensIn (row : list (list ascii)) : nat :=
  length (filter (λ tok, tok = ["x"%char]) row).

Definition xTokens (rows : list (list (list ascii))) : nat :=
  sum_list_with xTokensIn rows.

Definition xTokensRead (rows : list (list (list ascii))) (width : nat) : nat :=
  sum_list_with (λ row, xTokensIn (take width row)) rows.

(** Whether [p] holds a revealed cell. *)
Definition revealedAt (slots : gmap Position MineSlot) (p : Position) : bool :=
  match slots !! p with Some s => reveal s | None => false end.

(** Every stored count is one a cell with eight neighbours can have. *)
Definition countsBounded (slots : gmap Position MineSlot) : Prop :=
  ∀ q s, slots !! q = Some s → 0 ≤ nearbyMine s ≤ 8.

(** The number of grid cells that hold no mine. *)
Definition gridSafe (width height : Z) (slots : gmap Position MineSlot) : Z :=
  Z.of_nat (length (filter (λ p, hasMineAt slots p = false)
                      (gridPositions width height))).

(** The number of grid cells that are revealed. *)
Definition gridRevealed (width height : Z) (slots : gmap Position MineSlot) : Z :=
  Z.of_nat (length (filter (λ p, revealedAt slots p = true)
                      (gridPositions width height))).

(** Every grid cell without a mine is revealed. *)
Definition allSafeRevealed (width height : Z) (slots : gmap Position MineSlot)
    : Prop :=
  ∀ p, p ∈ gridPositions width height →
       hasMineAt slots p = false → revealedAt slots p = true.

(** The counters tell the truth: the cells are sound, [total] (the number
    the win test compares [revealCount] with) is the number of safe cells,
    [revealCount] is the number of revealed cells, only safe cells are
    revealed, and a won board has reached the total. *)
Definition exactReveals (width height : Z) (slots : gmap Position MineSlot)
    (revealCount total : Z) (st : GameState) : Prop :=
  wellCounted width height slots ∧
  total = gridSafe width height slots ∧
  revealCount = gridRevealed width height slots ∧
  (∀ p, revealedAt slots p = true → hasMineAt slots p = false) ∧
  (st = win → revealCount = total).

(** The cells [touchingNoMine] is meant to list: the start, and every
    in-bounds neighbour, mine-free and unrevealed, of a listed cell whose
    count is not positive. *)
Inductive floodReach (width height : Z) (slots : gmap Position MineSlot)
    (start : Position) : Position → Prop :=
| floodReach_start : floodReach width height slots start start
| floodReach_step q sq d sp :
    floodReach width height slots start q →
    slots !! q = Some sq → ¬ (nearbyMine sq > 0) →
    d ∈ deltaMap → inGrid width height (d.1 + q.1, d.2 + q.2) →
    slots !! (d.1 + q.1, d.2 + q.2) = Some sp →
    hasMine sp = false → reveal sp = false →
    floodReach width height slots start (d.1 + q.1, d.2 + q.2).

(** The number of line feeds of a string. *)
Definition lineFeeds (s : list ascii) : nat :=
  length (filter (λ c, N_of_ascii c = 10%N) s).

(** [pieces.join("\n")], the inverse of [split("\n")]. *)
Fixpoint joinLines (pieces : list (list ascii)) : list ascii :=
  match pieces with
  | [] => []
  | piece :: rest =>
      match rest with
      | [] => piece
      | _ :: _ => piece ++ ascii_of_N 10 :: joinLines rest
      end
  end.

(** ** Boards that a caller can hold

    A board is [reachable] when it comes out of the constructor or out of a
    [click] (whether that call returned or threw) on a reachable board. *)

Inductive Main_reachable : Main.MineBoard → Prop :=
| Main_reach_new width height spec b :
    Main.constructor width height spec = Ret b → Main_reachable b
| Main_reach_click rnd x y b :
    Main_reachable b → Main_reachable (Main.click rnd x y b).1.

Inductive Part000_reachable : Part000.MineBoard → Prop :=
| Part000_reach_new coin width height randomer :
    Part000_reachable (Part000.constructor coin width height randomer)
| Part000_reach_click x y b :
    Part000_reachable b → Part000_reachable (Part000.click x y b).1.

(** [Main_clicks b0 b]: [b] is what some sequence of clicks, returning or
    throwing, leaves of [b0]. *)
Inductive Main_clicks (b0 : Main.MineBoard) : Main.MineBoard → Prop :=
| Main_clicks_refl : Main_clicks b0 b0
| Main_clicks_step rnd x y b :
    Main_clicks b0 b → Main_clicks b0 (Main.click rnd x y b).1.

(** Boards played without a click on a revealed cell. *)
Inductive Part000_played : Part000.MineBoard → Prop :=
| Part000_played_new coin width height randomer :
    Part000_played (Part000.constructor coin width height randomer)
| Part000_played_click x y b :
    Part000_played b → revealedAt (Part000.slots b) (x, y) = false →
    Part000_played (Part000.click x y b).1.

Inductive Main_played (b0 : Main.MineBoard) : Main.MineBoard → Prop :=
| Main_played_refl : Main_played b0 b0
| Main_played_click rnd x y b :
    Main_played b0 b → revealedAt (Main.slots b) (x, y) = false →
    Main_played b0 (Main.click rnd x y b).1.

(** ** Concrete boards used as examples *)

(** A 2 x 2 layout with one mine, at [(1, 0)]. *)
Definition layout_2x2 : string := "_ x
_ _".

(** A ragged layout: the second row is longer than the first. *)
Definition layout_ragged : string := "_
x x".

(** A 1 x 1 layout holding a mine. *)
Definition layout_mine : string := "x".

(** The value of a call that returned, [d] otherwise. *)
Definition returned {A} (d : A) (o : outcome A) : A :=
  match o with Ret a => a | _ => d end.

Definition emptyBoard : Main.MineBoard :=
  Main.mkMineBoard ∅ 0 playing 0 0 0 false.

Definition board_2x2 : Main.MineBoard :=
  returned emptyBoard (Main.constructor 5 5 (inr layout_2x2)).

(** The board of the test "MineBoard click on mine" of part_000. *)
Definition board_all_mines : Part000.MineBoard :=
  Part000.constructor (λ _ _, false) 5 5 (Some (λ _ _, true)).

(** The 1 x 2 board with one mine, and the 2 x 3 board without mines. *)
Definition board_1x2 : Main.MineBoard := Main.mkMineBoard ∅ 1 playing 0 1 2 false.
Definition board_2x3 : Main.MineBoard := Main.mkMineBoard ∅ 0 playing 0 2 3 false.

(** * Properties *)

(** ** Coordinates *)

Lemma isVaildPosition_true width height x y :
  isVaildPosition width height x y = true ↔ 0 ≤ x < width ∧ 0 ≤ y < height.
Proof. unfold isVaildPosition. lia. Qed.

Lemma isVaildPosition_false width height x y :
  isVaildPosition width height x y = false ↔
  x < 0 ∨ x >= width ∨ y < 0 ∨ y >= height.
Proof. unfold isVaildPosition. lia. Qed.

Lemma Main_click_invalid rnd (b : Main.MineBoard) x y :
  isVaildPosition (Main.width b) (Main.height b) x y = false →
  Main.click rnd x y b = (b, Throw BoardTooSmall).
Proof. intros H. unfold Main.click. by rewrite H. Qed.

Lemma Part000_click_invalid (b : Part000.MineBoard) x y :
  isVaildPosition (Part000.width b) (Part000.height b) x y = false →
  Part000.click x y b = (b, Throw BoardTooSmall).
Proof. intros H. unfold Part000.click. by rewrite H. Qed.

(** C6. A click outside the grid throws the out-of-bounds error and returns
    the board it was given: no initialisation runs, and no cell, counter or
    state changes. This holds in both revisions, for every board. *)
Theorem click_out_of_bounds_unchanged :
  (∀ rnd (b : Main.MineBoard) x y,
     x < 0 ∨ x >= Main.width b ∨ y < 0 ∨ y >= Main.height b →
     Main.click rnd x y b = (b, Throw BoardTooSmall)) ∧
  (∀ (b : Part000.MineBoard) x y,
     x < 0 ∨ x >= Part000.width b ∨ y < 0 ∨ y >= Part000.height b →
     Part000.click x y b = (b, Throw BoardTooSmall)).
Proof.
  split; intros.
  - by apply Main_click_invalid, isVaildPosition_false.
  - by apply Part000_click_invalid, isVaildPosition_false.
Qed.

Lemma click_out_of_bounds_unchanged_witness :
  let bm := Main.mkMineBoard ∅ 3 playing 0 5 5 false in
  let bp := Part000.constructor (λ _ _, false) 5 5 None in
  Main.click (λ _, 0%nat) 5 2 bm = (bm, Throw BoardTooSmall) ∧
  Part000.click 2 (-1) bp = (bp, Throw BoardTooSmall).
Proof.
  split.
  - apply (proj1 click_out_of_bounds_unchanged). simpl. lia.
  - apply (proj2 click_out_of_bounds_unchanged). simpl. lia.
Defined.

(** ** Construction *)

(** C5, as the code has it, for safe integers: when the dimensions, the
    mine count and the product [width * height] are safe integers, so that
    the product and the comparison of the source are exact, the numeric
    constructor throws exactly when the mine count is at least
    [width * height]; there is no lower bound, and when it does not throw it
    yields the uninitialised board. *)
Theorem constructor_throws_iff_too_many width height mineCount :
  safeInteger width → safeInteger height → safeInteger mineCount →
  safeInteger (width * height) →
  (Main.constructor width height (inl mineCount) = Throw TooManyMines
   ↔ mineCount >= width * height) ∧
  (mineCount < width * height →
   Main.constructor width height (inl mineCount)
   = Ret (Main.mkMineBoard ∅ mineCount playing 0 width height false)).
Proof.
  intros _ _ _ _. unfold Main.constructor.
  destruct (Z.geb_spec mineCount (width * height)) as [Hge | Hlt].
  - split; [split; [lia | done] | lia].
  - split; [split; [done | lia] | done].
Qed.

Lemma constructor_throws_iff_too_many_witness :
  (safeInteger 5 ∧ safeInteger 24 ∧ safeInteger (5 * 5)) ∧
  Main.constructor 5 5 (inl 24)
  = Ret (Main.mkMineBoard ∅ 24 playing 0 5 5 false).
Proof.
  assert (safeInteger 5 ∧ safeInteger 24 ∧ safeInteger (5 * 5)) as Hs
    by (unfold safeInteger; lia).
  split; [exact Hs|].
  destruct Hs as (H5 & H24 & H25).
  apply (proj2 (constructor_throws_iff_too_many 5 5 24 H5 H5 H24 H25)). lia.
Defined.

(** C5 as stated fails: a negative mine count is outside
    [[0, width * height)], yet construction succeeds. *)
Lemma constructor_accepts_negative_mineCount :
  ¬ (0 ≤ -1 < 5 * 5) ∧
  Main.constructor 5 5 (inl (-1))
  = Ret (Main.mkMineBoard ∅ (-1) playing 0 5 5 false).
Proof. split; [lia | reflexivity]. Qed.

(** ** The initialisation flag *)

Lemma Main_initField_fieldInited rnd x y b :
  Main.fieldInited (Main.initField rnd x y b).1 = true.
Proof.
  unfold Main.initField. destruct (Main.fieldInited b) eqn:E; [done|].
  by case_match.
Qed.

Lemma Part000_initField_fieldInited x y b :
  Part000.fieldInited (Part000.initField x y b).1 = true.
Proof.
  unfold Part000.initField. destruct (Part000.fieldInited b) eqn:E; [done|].
  by case_match.
Qed.

(** A click either leaves the board alone or leaves it initialised, and it
    only leaves [playing] on an initialised board. *)
Lemma Main_click_inited rnd x y b :
  (Main.click rnd x y b).1 = b ∨ Main.fieldInited (Main.click rnd x y b).1 = true.
Proof.
  unfold Main.click. case_match; [by left|]. right.
  pose proof (Main_initField_fieldInited rnd x y b) as Hi.
  destruct (Main.initField rnd x y b) as [b1 r]. simpl in Hi.
  repeat (case_match; simplify_eq/=; try done).
Qed.

Lemma Part000_click_inited x y b :
  (Part000.click x y b).1 = b ∨ Part000.fieldInited (Part000.click x y b).1 = true.
Proof.
  unfold Part000.click. case_match; [by left|]. right.
  pose proof (Part000_initField_fieldInited x y b) as Hi.
  destruct (Part000.initField x y b) as [b1 r]. simpl in Hi.
  repeat (case_match; simplify_eq/=; try done).
Qed.

Lemma Main_reachable_inited b :
  Main_reachable b → Main.state b ≠ playing → Main.fieldInited b = true.
Proof.
  induction 1 as [width height spec b Hc | rnd x y b Hr IH].
  - unfold Main.constructor in Hc.
    repeat (case_match; simplify_eq/=; try done).
  - destruct (Main_click_inited rnd x y b) as [-> | ->]; done.
Qed.

Lemma Part000_reachable_inited b :
  Part000_reachable b → Part000.state b ≠ playing → Part000.fieldInited b = true.
Proof.
  induction 1 as [| x y b Hr IH]; [done|].
  destruct (Part000_click_inited x y b) as [-> | ->]; done.
Qed.

(** ** Clicks on a finished board *)

Lemma Main_click_terminal rnd x y b slot :
  Main.fieldInited b = true → Main.state b ≠ playing →
  isVaildPosition (Main.width b) (Main.height b) x y = true →
  Main.slots b !! (x, y) = Some slot →
  Main.click rnd x y b =
    let st := if hasMine slot then dead else Main.state b in
    (Main.set_state st b, Ret (st, [])).
Proof.
  intros Hi Hs Hv Hl. unfold Main.click, Main.initField.
  rewrite Hv, Hi. simpl. rewrite Hl.
  destruct (hasMine slot); simpl; [done|].
  rewrite bool_decide_eq_false_2 by done. simpl. by destruct b.
Qed.

Lemma Part000_click_terminal x y b slot :
  Part000.fieldInited b = true → Part000.state b ≠ playing →
  isVaildPosition (Part000.width b) (Part000.height b) x y = true →
  Part000.slots b !! (x, y) = Some slot →
  Part000.click x y b =
    let st := if hasMine slot then dead else Part000.state b in
    (Part000.set_state st b, Ret (st, [])).
Proof.
  intros Hi Hs Hv Hl. unfold Part000.click, Part000.initField.
  rewrite Hv, Hi. simpl. rewrite Hl.
  destruct (hasMine slot); simpl; [done|].
  rewrite bool_decide_eq_false_2 by done. simpl. by destruct b.
Qed.

(** ** The grid and the loops over it *)

Lemma elem_of_range n i : i ∈ range n ↔ 0 ≤ i < n.
Proof.
  unfold range. rewrite list_elem_of_fmap. setoid_rewrite elem_of_seq. split.
  - intros (k & -> & Hk). lia.
  - intros Hi. exists (Z.to_nat i). lia.
Qed.

Lemma length_range n : length (range n) = Z.to_nat n.
Proof. unfold range. by rewrite length_fmap, length_seq. Qed.

Lemma elem_of_gridPositions width height x y :
  (x, y) ∈ gridPositions width height ↔ isVaildPosition width height x y = true.
Proof.
  unfold gridPositions. rewrite list_elem_of_bind, isVaildPosition_true. split.
  - intros (i & Hj & Hi). apply elem_of_range in Hi.
    apply list_elem_of_fmap in Hj as (j & [= -> ->] & Hj).
    apply elem_of_range in Hj. lia.
  - intros [Hx Hy]. exists x. split; [|by apply elem_of_range].
    apply list_elem_of_fmap. exists y. split; [done|by apply elem_of_range].
Qed.

Lemma length_gridPositions width height :
  length (gridPositions width height) = (Z.to_nat width * Z.to_nat height)%nat.
Proof.
  unfold gridPositions. rewrite <- (length_range width).
  induction (range width) as [|i l IH]; [done|].
  rewrite bind_cons. cbn [length].
  rewrite length_app, length_fmap, length_range, IH. done.
Qed.

Lemma forEach_app {S A} (l1 l2 : list A) (body : A → S → S * outcome unit) s :
  forEach (l1 ++ l2) body s =
    match forEach l1 body s with
    | (s', Ret _) => forEach l2 body s'
    | other => other
    end.
Proof.
  revert s. induction l1 as [|a l1 IH]; intros s; simpl; [done|].
  destruct (body a s) as [s' [[]| |]]; [apply IH|done|done].
Qed.

Lemma forEach_fmap {S A B} (g : A → B) (l : list A)
    (body : B → S → S * outcome unit) s :
  forEach (g <$> l) body s = forEach l (body ∘ g) s.
Proof.
  revert s. induction l as [|a l IH]; intros s; simpl; [done|].
  destruct (body (g a) s) as [s' [[]| |]]; [apply IH|done|done].
Qed.

(** The two nested loops are one loop over [gridPositions]. *)
Lemma forEach_grid {S} width height (body : Z → Z → S → S * outcome unit) s :
  forEach (range width) (λ i, forEach (range height) (λ j, body i j)) s
  = forEach (gridPositions width height) (λ p, body p.1 p.2) s.
Proof.
  unfold gridPositions. revert s.
  induction (range width) as [|i l IH]; intros s; [done|].
  rewrite bind_cons. cbn [forEach].
  rewrite forEach_app, forEach_fmap. unfold compose. simpl.
  destruct (forEach (range height) (λ j, body i j) s) as [s' [[]| |]] eqn:E;
    rewrite ?E; [apply IH|done|done].
Qed.

(** ** Neighbour counts *)

Lemma nearByMine_sameMines s1 s2 i j :
  sameMines s1 s2 → nearByMine s1 i j = nearByMine s2 i j.
Proof.
  intros H. unfold nearByMine. generalize 0. generalize deltaMap.
  intros l. induction l as [|d l IH]; intros c; [done|]. simpl.
  specialize (H (i + d.1, j + d.2)).
  destruct (s1 !! (i + d.1, j + d.2)) as [a|], (s2 !! (i + d.1, j + d.2)) as [b|];
    simplify_eq/=; try apply IH.
  rewrite H. apply IH.
Qed.

(** [deltaMap] is exactly the Moore neighbourhood, each offset once. *)
Lemma deltaMap_Moore :
  NoDup deltaMap ∧
  ∀ dx dy, (dx, dy) ∈ deltaMap ↔
    -1 ≤ dx ≤ 1 ∧ -1 ≤ dy ≤ 1 ∧ (dx, dy) ≠ (0, 0).
Proof.
  split; [by apply (bool_decide_unpack (NoDup deltaMap))|].
  intros dx dy. unfold deltaMap. rewrite !elem_of_cons, elem_of_nil. split.
  - intros H. repeat (destruct H as [H|H]; [simplify_eq; split_and!; (lia || done)|]).
    done.
  - intros (Hx & Hy & Hne).
    assert (dx = -1 ∨ dx = 0 ∨ dx = 1) as Hdx by lia.
    assert (dy = -1 ∨ dy = 0 ∨ dy = 1) as Hdy by lia.
    destruct Hdx as [-> | [-> | ->]]; destruct Hdy as [-> | [-> | ->]];
      try done; tauto.
Qed.

Lemma nearByMine_count_from slots i j (l : list (Z * Z)) c :
  fold_left
    (fun count d =>
       match slots !! (i + d.1, j + d.2) with
       | Some s => if hasMine s then count + 1 else count
       | None => count
       end) l c
  = c + Z.of_nat (length (filter (λ d, hasMineAt slots (i + d.1, j + d.2) = true) l)).
Proof.
  revert c. induction l as [|d l IH]; intros c; simpl; [lia|].
  rewrite IH, filter_cons.
  destruct (decide _) as [Hd|Hd]; unfold hasMineAt in Hd;
    destruct (slots !! (i + d.1, j + d.2)) as [s|];
    try destruct (hasMine s); simplify_eq/=; lia.
Qed.

(** [nearByMine] counts the mines of all eight offsets that hold a slot;
    when no slot lies outside the grid these are the in-bounds ones. *)
Lemma nearByMine_inBounds width height slots i j :
  (∀ x y, is_Some (slots !! (x, y)) → isVaildPosition width height x y = true) →
  nearByMine slots i j = inBoundsMineNeighbours width height slots i j.
Proof.
  intros Hdom. unfold nearByMine, inBoundsMineNeighbours.
  rewrite nearByMine_count_from, Z.add_0_l. do 2 f_equal.
  apply list_filter_iff. intros d. split; [|tauto].
  intros H. split; [|done]. apply Hdom. unfold hasMineAt in H.
  destruct (slots !! (i + d.1, j + d.2)); [eauto|done].
Qed.

(** Writing a neighbour count into a slot keeps the other two fields. *)
Lemma set_nearbyMine_id s : set_nearbyMine (nearbyMine s) s = s.
Proof. by destruct s. Qed.

Lemma setNearbyMine_lookup i j slots q :
  (setNearbyMine i j slots).1 !! q =
    if decide (q = (i, j))
    then set_nearbyMine (nearByMine slots i j) <$> slots !! q
    else slots !! q.
Proof.
  unfold setNearbyMine. case_decide as Hq.
  - subst q. destruct (slots !! (i, j)) as [s|] eqn:E; simpl; [|done].
    by rewrite lookup_insert_eq.
  - destruct (slots !! (i, j)) as [s|] eqn:E; simpl; [|done].
    by rewrite lookup_insert_ne.
Qed.

(** Whatever the loop over [ps] does, and whether or not it throws, a slot
    is only ever changed in its [nearbyMine] field. *)
Lemma forEach_setNearbyMine_fields ps slots q :
  let slots' := (forEach ps (λ p, setNearbyMine p.1 p.2) slots).1 in
  hasMine <$> slots' !! q = hasMine <$> slots !! q ∧
  reveal <$> slots' !! q = reveal <$> slots !! q.
Proof.
  revert slots. induction ps as [|[i j] ps IH]; intros slots; simpl; [done|].
  pose proof (setNearbyMine_lookup i j slots q) as Hl.
  assert (hasMine <$> (setNearbyMine i j slots).1 !! q = hasMine <$> slots !! q
          ∧ reveal <$> (setNearbyMine i j slots).1 !! q = reveal <$> slots !! q)
    as [Hm Hr].
  { rewrite Hl. case_decide; [|done]. by destruct (slots !! q). }
  destruct (setNearbyMine i j slots) as [s1 [[]| |]]; simpl in *; [|done|done].
  destruct (IH s1) as [IHm IHr]. split; congruence.
Qed.

(** When every position of [ps] holds a slot the loop returns, and each of
    them gets the count taken over the mines that were there on entry. *)
Lemma forEach_setNearbyMine_covered ps slots :
  (∀ p, p ∈ ps → is_Some (slots !! p)) →
  ∃ slots', forEach ps (λ p, setNearbyMine p.1 p.2) slots = (slots', Ret tt) ∧
    ∀ q, slots' !! q =
      if decide (q ∈ ps)
      then set_nearbyMine (nearByMine slots q.1 q.2) <$> slots !! q
      else slots !! q.
Proof.
  revert slots. induction ps as [|[i j] ps IH]; intros slots Hcov;
    cbn [forEach fst snd].
  { exists slots. split; [done|]. intros q.
    rewrite decide_False; [done|apply not_elem_of_nil]. }
  destruct (Hcov (i, j)) as [s Hs]; [left|].
  pose proof (setNearbyMine_lookup i j slots) as Hl.
  unfold setNearbyMine in *. rewrite Hs in *. simpl in Hl.
  set (s1 := <[(i, j) := set_nearbyMine (nearByMine slots i j) s]> slots) in *.
  assert (sameMines s1 slots) as Hsame.
  { intros p. rewrite Hl. case_decide; [|done]. by destruct (slots !! p). }
  destruct (IH s1) as (slots' & -> & Hl').
  { intros p Hp. rewrite Hl. case_decide; [|by apply Hcov; right].
    rewrite fmap_is_Some. apply Hcov. by right. }
  exists slots'. split; [done|]. intros q. rewrite Hl', Hl.
  rewrite (nearByMine_sameMines s1 slots) by done.
  destruct (decide (q = (i, j))) as [->|Hne].
  - rewrite (decide_True (P := (i, j) ∈ (i, j) :: ps)) by left.
    rewrite Hs. simpl. by case_decide.
  - destruct (decide (q ∈ ps)) as [Hin|Hnin].
    + by rewrite (decide_True (P := q ∈ (i, j) :: ps)) by by right.
    + rewrite (decide_False (P := q ∈ (i, j) :: ps)); [done|].
      by intros [?|?]%elem_of_cons.
Qed.

Lemma initNearbyMine_fields width height slots q :
  let slots' := (initNearbyMine width height slots).1 in
  hasMine <$> slots' !! q = hasMine <$> slots !! q ∧
  reveal <$> slots' !! q = reveal <$> slots !! q.
Proof.
  unfold initNearbyMine. rewrite forEach_grid.
  apply forEach_setNearbyMine_fields.
Qed.

(** [coversGrid] can be checked by running over the grid. *)
Lemma coversGrid_check width height slots :
  forallb (λ p, bool_decide (is_Some (slots !! p))) (gridPositions width height)
  = true →
  coversGrid width height slots.
Proof.
  intros H x y Hv. rewrite forallb_forall in H.
  specialize (H (x, y)). rewrite <- list_elem_of_In in H.
  apply (bool_decide_eq_true_1 (is_Some (slots !! (x, y)))), H.
  by apply elem_of_gridPositions.
Qed.

(** On a map that covers the grid [initNearbyMine] returns; it changes
    [nearbyMine] of the grid cells and nothing else. *)
Lemma initNearbyMine_covered width height slots :
  coversGrid width height slots →
  ∃ slots', initNearbyMine width height slots = (slots', Ret tt) ∧
    ∀ x y, slots' !! (x, y) =
      if isVaildPosition width height x y
      then set_nearbyMine (nearByMine slots x y) <$> slots !! (x, y)
      else slots !! (x, y).
Proof.
  intros Hcov. unfold initNearbyMine. rewrite forEach_grid.
  destruct (forEach_setNearbyMine_covered (gridPositions width height) slots)
    as (slots' & Heq & Hl).
  { intros [x y] Hp. by apply Hcov, elem_of_gridPositions. }
  exists slots'. split; [done|]. intros x y. rewrite Hl. simpl.
  destruct (isVaildPosition width height x y) eqn:E.
  - by rewrite decide_True by by apply elem_of_gridPositions.
  - rewrite decide_False; [done|]. rewrite elem_of_gridPositions. congruence.
Qed.

(** ** The flood fill *)

Section Flood.
Variables (width height : Z) (slots : gmap Position MineSlot).

#[local] Abbreviation valid p := (inGrid width height p).

Lemma pushedFrom_mono result result' p :
  result ⊆ result' → pushedFrom slots result p → pushedFrom slots result' p.
Proof. intros Hsub (q & sq & d & Hq & ?). exists q, sq, d. split; [auto|done]. Qed.

Lemma fillOutcome_impl {A} (P Q : A → Prop) o :
  (∀ a, P a → Q a) →
  fillOutcome width height slots P o → fillOutcome width height slots Q o.
Proof. intros H. destruct o; simpl; auto. Qed.

(** The neighbour loop only pushes: the new entries are distinct,
    in-bounds, mine-free neighbours of [(i, j)] that hold a slot and were
    in neither list. *)
Lemma pushNeighbours_spec i j result deltas stack :
  fillOutcome width height slots
    (λ stack', ∃ new, stack' = new ++ stack ∧ NoDup new ∧
       ∀ p, p ∈ new →
         valid p ∧ (p ∉ result) ∧ (p ∉ stack) ∧ is_Some (slots !! p) ∧
         hasMineAt slots p = false ∧
         ∃ d, d ∈ deltas ∧ p = (d.1 + i, d.2 + j))
    (pushNeighbours width height slots i j result deltas stack).
Proof.
  revert stack. induction deltas as [|[x y] deltas IH]; intros stack; simpl.
  { exists []. split; [done|]. split; [constructor|]. by intros p ?%elem_of_nil. }
  assert (∀ stack0 : list Position, stack0 = stack →
    fillOutcome width height slots
      (λ stack', ∃ new, stack' = new ++ stack ∧ NoDup new ∧
         ∀ p, p ∈ new →
           valid p ∧ (p ∉ result) ∧ (p ∉ stack) ∧ is_Some (slots !! p) ∧
           hasMineAt slots p = false ∧
           ∃ d, d ∈ (x, y) :: deltas ∧ p = (d.1 + i, d.2 + j))
      (pushNeighbours width height slots i j result deltas stack0)) as Hskip.
  { intros ? ->. eapply fillOutcome_impl; [|apply IH].
    intros stack' (new & -> & Hnd & Hnew). exists new. split_and!; [done..|].
    intros p Hp. destruct (Hnew p Hp) as (?&?&?&?&?&d&?&?).
    split_and!; try done. exists d. split; [by right|done]. }
  destruct (isVaildPosition width height (x + i) (y + j)) eqn:Hv; simpl;
    [|by apply Hskip].
  destruct (slots !! (x + i, y + j)) as [s|] eqn:Hs; simpl.
  2:{ split; [done|]. intros Hcov. destruct (Hcov _ _ Hv) as [? ?]. congruence. }
  destruct (hasMine s) eqn:Hm; simpl; [by apply Hskip|].
  destruct (reveal s); simpl; [by apply Hskip|].
  case_bool_decide as Hr; simpl; [by apply Hskip|].
  case_bool_decide as Hst; simpl; [by apply Hskip|].
  eapply fillOutcome_impl; [|apply IH].
  intros stack' (new & -> & Hnd & Hnew). exists (new ++ [(x + i, y + j)]).
  split; [by rewrite <- app_assoc|]. split.
  - apply NoDup_app. split_and!; [done| |apply NoDup_singleton].
    intros p Hp ->%list_elem_of_singleton.
    destruct (Hnew _ Hp) as (_ & _ & Hn & _). apply Hn. left.
  - intros p [Hp| ->%list_elem_of_singleton]%elem_of_app.
    + destruct (Hnew p Hp) as (?&?&Hn&?&?&d&?&?).
      split_and!; try done.
      * intros ?. apply Hn. by right.
      * exists d. split; [by right|done].
    + split_and!; try done.
      * unfold hasMineAt. by rewrite Hs.
      * exists (x, y). split; [left|done].
Qed.

Variable start : Position.

Lemma fillInv_length stack result :
  fillInv width height slots start stack result →
  (length (stack ++ result) ≤ length (gridPositions width height))%nat.
Proof.
  intros [Hnd Hv _ _]. apply submseteq_length, NoDup_submseteq; [done|].
  intros [x y] Hp. apply elem_of_gridPositions. by apply (Hv (x, y)).
Qed.

(** With fuel for the cells still outside [result], the loop ends, and
    its value extends [result], first by the top of the stack, under the
    same invariant. *)
Lemma floodLoop_spec fuel stack result :
  fillInv width height slots start stack result →
  (length (gridPositions width height) + 1 - length result ≤ fuel)%nat →
  fillOutcome width height slots
    (λ r, fillInv width height slots start [] r ∧ (result ++ take 1 stack) `prefix_of` r)
    (floodLoop width height slots fuel stack result).
Proof.
  revert stack result. induction fuel as [|fuel IH]; intros stack result Hinv Hf.
  { apply fillInv_length in Hinv. rewrite length_app in Hinv. simpl. lia. }
  destruct stack as [|current stack]; [by rewrite app_nil_r; split|].
  cbn [floodLoop take].
  pose proof (fillInv_length _ _ Hinv) as Hlen.
  rewrite length_app in Hlen. simpl in Hlen.
  destruct Hinv as [Hnd Hv Hsl Hfrom].
  destruct current as [i j].
  destruct (slots !! (i, j)) as [s|] eqn:Hs.
  2:{ destruct (Hsl (i, j)) as [? ?]; [left|congruence]. }
  change ((i, j) :: stack) with ([(i, j)] ++ stack) in *.
  assert (∀ new,
    NoDup new →
    (∀ p, p ∈ new →
       valid p ∧ (p ∉ result ++ [(i, j)]) ∧ (p ∉ stack) ∧ is_Some (slots !! p) ∧
       pushedFrom slots (result ++ [(i, j)]) p) →
    fillOutcome width height slots
      (λ r, fillInv width height slots start [] r ∧ (result ++ [(i, j)]) `prefix_of` r)
      (floodLoop width height slots fuel (new ++ stack) (result ++ [(i, j)])))
    as Hnext.
  { intros new Hndn Hnew. eapply fillOutcome_impl; [|apply IH].
    - intros r [Hr Hpre]. split; [done|]. by eapply prefix_app_l.
    - rewrite <- (app_assoc [(i, j)] stack result) in Hnd, Hv, Hsl, Hfrom.
      apply NoDup_app in Hnd as (_ & Hcur & Hnd).
      apply NoDup_app in Hnd as (Hnds & Hsr & Hndr).
      split; rewrite <- (app_assoc new stack).
      + apply NoDup_app. split_and!; [done| |].
        { intros p Hp [Hin|Hin]%elem_of_app.
          - by destruct (Hnew p Hp) as (_ & _ & ? & _).
          - by destruct (Hnew p Hp) as (_ & ? & _). }
        apply NoDup_app. split_and!; [done| |].
        { intros p Hp [Hin| ->%list_elem_of_singleton]%elem_of_app.
          - by apply (Hsr p).
          - apply (Hcur (i, j)); [left|]. apply elem_of_app. by left. }
        apply NoDup_app. split_and!; [done| |apply NoDup_singleton].
        intros p Hp ->%list_elem_of_singleton.
        apply (Hcur (i, j)); [left|]. apply elem_of_app. by right.
      + intros p [Hp|Hp]%elem_of_app; [by destruct (Hnew p Hp)|].
        apply Hv. rewrite !elem_of_app in *. tauto.
      + intros p [Hp|Hp]%elem_of_app; [by destruct (Hnew p Hp) as (?&?&?&?&?)|].
        apply Hsl. rewrite !elem_of_app in *. tauto.
      + intros p [Hp|Hp]%elem_of_app.
        { right. by destruct (Hnew p Hp) as (?&?&?&?&?). }
        destruct (Hfrom p) as [?|Hpf]; [|by left|right].
        { rewrite !elem_of_app in *. tauto. }
        eapply pushedFrom_mono; [|done].
        intros q Hq. apply elem_of_app. by left.
    - rewrite length_app. simpl. lia. }
  destruct (nearbyMine s >? 0) eqn:Hn.
  { apply (Hnext []); [constructor|]. by intros p ?%elem_of_nil. }
  pose proof (pushNeighbours_spec i j (result ++ [(i, j)]) deltaMap stack) as Hp.
  destruct (pushNeighbours width height slots i j (result ++ [(i, j)])
              deltaMap stack) as [stack''| |]; simpl in *; [|done..].
  destruct Hp as (new & -> & Hndn & Hnew). apply Hnext; [done|].
  intros p Hp. destruct (Hnew p Hp) as (?&?&?&?&?&d&?&->).
  split_and!; try done.
  exists (i, j), s, d. split_and!; try done; [|lia].
  apply elem_of_app. right. left.
Qed.

(** A cell with a positive count is moved to the result and nothing is
    pushed: the frontier after the iteration is the rest of the stack. *)
Lemma floodLoop_numbered fuel current s stack result :
  slots !! current = Some s → nearbyMine s > 0 →
  floodLoop width height slots (S fuel) (current :: stack) result
  = floodLoop width height slots fuel stack (result ++ [current]).
Proof.
  intros Hs Hn. simpl. destruct current as [i j]. rewrite Hs.
  by rewrite (proj2 (Z.gtb_lt _ _)) by lia.
Qed.
End Flood.

Lemma gridPositions_fuel width height :
  (length (gridPositions width height) ≤ Z.to_nat (width * height))%nat.
Proof.
  rewrite length_gridPositions.
  destruct (Z.le_gt_cases width 0) as [Hw|Hw].
  { replace (Z.to_nat width) with 0%nat by lia. lia. }
  destruct (Z.le_gt_cases height 0) as [Hh|Hh].
  { replace (Z.to_nat height) with 0%nat by lia. lia. }
  rewrite Z2Nat.inj_mul by lia. done.
Qed.

(** [touchingNoMine] on an in-bounds safe cell: the loop ends within
    [floodFuel] iterations; its list starts with the clicked cell, has no
    repetition, and holds only in-bounds cells that hold a slot and are the
    start or a neighbour of an expanded cell of the list. *)
Lemma touchingNoMine_spec width height slots ox oy s :
  isVaildPosition width height ox oy = true →
  slots !! (ox, oy) = Some s → hasMine s = false →
  fillOutcome width height slots
    (λ r, fillInv width height slots (ox, oy) [] r ∧ [(ox, oy)] `prefix_of` r)
    (touchingNoMine width height slots ox oy).
Proof.
  intros Hv Hs Hm. unfold touchingNoMine. rewrite Hs, Hm.
  apply (floodLoop_spec width height slots (ox, oy) _ [(ox, oy)] []).
  - split; rewrite app_nil_r.
    + apply NoDup_singleton.
    + by intros p ->%list_elem_of_singleton.
    + intros p ->%list_elem_of_singleton. eauto.
    + intros p ->%list_elem_of_singleton. by left.
  - pose proof (gridPositions_fuel width height). unfold floodFuel. simpl. lia.
Qed.

(** ** Revealing *)

(** Whether or not it throws, [revealAll] only ever sets [reveal]. *)
Lemma revealAll_fields ps slots count q :
  let slots' := (revealAll ps (slots, count)).1.1 in
  hasMine <$> slots' !! q = hasMine <$> slots !! q ∧
  nearbyMine <$> slots' !! q = nearbyMine <$> slots !! q.
Proof.
  revert slots count. induction ps as [|p ps IH]; intros slots count; [done|].
  cbn [revealAll fst snd]. destruct (slots !! p) as [slot|] eqn:Hp; [|done].
  specialize (IH (<[p := set_reveal true slot]> slots) (count + 1)).
  destruct (revealAll ps _) as [st [evs| |]]; simpl in *;
    (destruct IH as [-> ->]; destruct (decide (q = p)) as [->|];
     [by rewrite lookup_insert_eq, Hp | by rewrite lookup_insert_ne]).
Qed.

(** When every listed position holds a slot, [revealAll] returns one event
    per position, in order, with the stored count; it marks these slots and
    adds the length of the list to the counter. *)
Lemma revealAll_spec ps slots count :
  (∀ p, p ∈ ps → is_Some (slots !! p)) →
  ∃ slots' evs,
    revealAll ps (slots, count) = ((slots', count + Z.of_nat (length ps)), Ret evs) ∧
    position <$> evs = ps ∧
    (∀ ev, ev ∈ evs →
       nearbyMine <$> slots !! position ev = Some (ev_nearbyMine ev)) ∧
    ∀ q, slots' !! q =
      if decide (q ∈ ps) then set_reveal true <$> slots !! q else slots !! q.
Proof.
  revert slots count. induction ps as [|p ps IH]; intros slots count Hcov.
  { exists slots, []. cbn [revealAll length]. rewrite Z.add_0_r.
    split_and!; [done..| |].
    - by intros ev ?%elem_of_nil.
    - intros q. rewrite decide_False; [done|apply not_elem_of_nil]. }
  cbn [revealAll fst snd]. destruct (Hcov p) as [slot Hp]; [left|]. rewrite Hp.
  destruct (IH (<[p := set_reveal true slot]> slots) (count + 1))
    as (slots' & evs & -> & Hpos & Hev & Hl).
  { intros p' Hp'. destruct (decide (p' = p)) as [->|].
    - rewrite lookup_insert_eq. eauto.
    - rewrite lookup_insert_ne by done. apply Hcov. by right. }
  exists slots', ({| position := p; ev_nearbyMine := nearbyMine slot |} :: evs).
  split_and!.
  - rewrite length_cons. do 2 f_equal. lia.
  - by rewrite fmap_cons, Hpos.
  - intros ev [->|Hin]%elem_of_cons; [by simpl; rewrite Hp|].
    specialize (Hev ev Hin). destruct (decide (position ev = p)) as [Heq|Hne].
    + rewrite Heq, lookup_insert_eq in Hev. rewrite Heq, Hp. done.
    + by rewrite lookup_insert_ne in Hev.
  - intros q. rewrite Hl. destruct (decide (q = p)) as [->|Hne].
    + rewrite lookup_insert_eq, Hp, (decide_True (P := p ∈ p :: ps)) by left.
      by case_decide.
    + rewrite lookup_insert_ne by done.
      destruct (decide (q ∈ ps)) as [Hin|Hnin].
      * by rewrite (decide_True (P := q ∈ p :: ps)) by by right.
      * rewrite (decide_False (P := q ∈ p :: ps)); [done|].
        by intros [?|?]%elem_of_cons.
Qed.

(** ** A click on a safe cell of an initialised board in play *)

Lemma touchingNoMine_covered width height slots ox oy s :
  isVaildPosition width height ox oy = true →
  slots !! (ox, oy) = Some s → hasMine s = false →
  coversGrid width height slots →
  ∃ ps, touchingNoMine width height slots ox oy = Ret ps ∧
        fillInv width height slots (ox, oy) [] ps ∧ [(ox, oy)] `prefix_of` ps.
Proof.
  intros Hv Hs Hm Hcov.
  pose proof (touchingNoMine_spec width height slots ox oy s Hv Hs Hm) as H.
  destruct (touchingNoMine width height slots ox oy) as [ps| |]; simpl in H.
  - by exists ps.
  - by destruct H.
  - done.
Qed.

Lemma Main_click_safe rnd x y b s :
  Main.fieldInited b = true → Main.state b = playing →
  isVaildPosition (Main.width b) (Main.height b) x y = true →
  Main.slots b !! (x, y) = Some s → hasMine s = false →
  coversGrid (Main.width b) (Main.height b) (Main.slots b) →
  ∃ ps slots' evs,
    touchingNoMine (Main.width b) (Main.height b) (Main.slots b) x y = Ret ps ∧
    [(x, y)] `prefix_of` ps ∧ position <$> evs = ps ∧
    revealAll ps (Main.slots b, Main.revealCount b)
    = ((slots', Main.revealCount b + Z.of_nat (length ps)), Ret evs) ∧
    Main.click rnd x y b =
      let b1 := Main.set_revealCount (Main.revealCount b + Z.of_nat (length ps))
                  (Main.set_slots slots' b) in
      let b2 := if bool_decide (Main.revealCount b1
                                = Main.width b1 * Main.height b1 - Main.mineCount b1)
                then Main.set_state win b1 else b1 in
      (b2, Ret (Main.state b2, evs)).
Proof.
  intros Hi Hst Hv Hs Hm Hcov.
  destruct (touchingNoMine_covered _ _ _ _ _ _ Hv Hs Hm Hcov)
    as (ps & Ht & Hinv & Hpre).
  destruct (revealAll_spec ps (Main.slots b) (Main.revealCount b))
    as (slots' & evs & Hr & Hpos & _).
  { intros p Hp. apply (fill_slot _ _ _ _ _ _ Hinv). by rewrite app_nil_l. }
  exists ps, slots', evs. split_and!; [done..|].
  unfold Main.click, Main.initField. rewrite Hv, Hi. simpl.
  rewrite Hs, Hm, Hst. simpl. rewrite Ht, Hr. done.
Qed.

Lemma Part000_click_safe x y b s :
  Part000.fieldInited b = true → Part000.state b = playing →
  isVaildPosition (Part000.width b) (Part000.height b) x y = true →
  Part000.slots b !! (x, y) = Some s → hasMine s = false →
  coversGrid (Part000.width b) (Part000.height b) (Part000.slots b) →
  ∃ ps slots' evs,
    touchingNoMine (Part000.width b) (Part000.height b) (Part000.slots b) x y
    = Ret ps ∧
    [(x, y)] `prefix_of` ps ∧ position <$> evs = ps ∧
    revealAll ps (Part000.slots b, Part000.revealCount b)
    = ((slots', Part000.revealCount b + Z.of_nat (length ps)), Ret evs) ∧
    Part000.click x y b =
      let b1 := Part000.set_revealCount
                  (Part000.revealCount b + Z.of_nat (length ps))
                  (Part000.set_slots slots' b) in
      let b2 := if bool_decide (Part000.revealCount b1 = Part000.totalSpaceCount b1)
                then Part000.set_state win b1 else b1 in
      (b2, Ret (Part000.state b2, evs)).
Proof.
  intros Hi Hst Hv Hs Hm Hcov.
  destruct (touchingNoMine_covered _ _ _ _ _ _ Hv Hs Hm Hcov)
    as (ps & Ht & Hinv & Hpre).
  destruct (revealAll_spec ps (Part000.slots b) (Part000.revealCount b))
    as (slots' & evs & Hr & Hpos & _).
  { intros p Hp. apply (fill_slot _ _ _ _ _ _ Hinv). by rewrite app_nil_l. }
  exists ps, slots', evs. split_and!; [done..|].
  unfold Part000.click, Part000.initField. rewrite Hv, Hi. simpl.
  rewrite Hs, Hm, Hst. simpl. rewrite Ht, Hr. done.
Qed.

(** ** Initialised boards *)

Lemma sameCells_refl slots : sameCells slots slots.
Proof. done. Qed.

Lemma sameCells_trans s1 s2 s3 : sameCells s1 s2 → sameCells s2 s3 → sameCells s1 s3.
Proof. intros H12 H23 q. destruct (H12 q), (H23 q). split; congruence. Qed.

Lemma sameCells_hasMineAt slots slots' p :
  sameCells slots slots' → hasMineAt slots' p = hasMineAt slots p.
Proof.
  intros H. destruct (H p) as [Hm _]. unfold hasMineAt.
  destruct (slots' !! p), (slots !! p); by simplify_eq/=.
Qed.

Lemma sameCells_is_Some slots slots' p :
  sameCells slots slots' → is_Some (slots' !! p) ↔ is_Some (slots !! p).
Proof.
  intros H. destruct (H p) as [Hm _].
  by rewrite <- (fmap_is_Some hasMine), Hm, fmap_is_Some.
Qed.

Lemma inBoundsMineNeighbours_sameCells width height slots slots' x y :
  sameCells slots slots' →
  inBoundsMineNeighbours width height slots' x y
  = inBoundsMineNeighbours width height slots x y.
Proof.
  intros H. unfold inBoundsMineNeighbours. do 2 f_equal.
  apply list_filter_iff. intros d. by rewrite (sameCells_hasMineAt slots slots').
Qed.

Lemma wellCounted_sameCells width height slots slots' :
  sameCells slots slots' → wellCounted width height slots →
  wellCounted width height slots'.
Proof.
  intros H (Hcov & Hfit & Hcnt). split_and!.
  - intros x y Hv. apply (sameCells_is_Some slots); auto.
  - intros x y Hs. apply Hfit. by apply (sameCells_is_Some slots slots').
  - intros x y s' Hs'. rewrite (inBoundsMineNeighbours_sameCells _ _ slots) by done.
    destruct (H (x, y)) as [_ Hn]. rewrite Hs' in Hn.
    destruct (slots !! (x, y)) as [s|] eqn:Hs; simplify_eq/=.
    rewrite Hn. by apply Hcnt.
Qed.

(** [initNearbyMine] on slots that are exactly those of the grid. *)
Lemma initNearbyMine_wellCounted width height slots :
  coversGrid width height slots → fitsGrid width height slots →
  ∃ slots', initNearbyMine width height slots = (slots', Ret tt) ∧
    wellCounted width height slots' ∧
    ∀ q, hasMine <$> slots' !! q = hasMine <$> slots !! q ∧
         reveal <$> slots' !! q = reveal <$> slots !! q.
Proof.
  intros Hcov Hfit.
  destruct (initNearbyMine_covered width height slots Hcov) as (slots' & Heq & Hl).
  pose proof (initNearbyMine_fields width height slots) as Hf.
  rewrite Heq in Hf. simpl in Hf.
  exists slots'. split_and!; [done| |done].
  assert (∀ p, hasMineAt slots' p = hasMineAt slots p) as Hm.
  { intros p. destruct (Hf p) as [Hp _]. unfold hasMineAt.
    destruct (slots' !! p), (slots !! p); by simplify_eq/=. }
  assert (∀ p, is_Some (slots' !! p) ↔ is_Some (slots !! p)) as Hdom.
  { intros p. destruct (Hf p) as [Hp _].
    by rewrite <- (fmap_is_Some hasMine), Hp, fmap_is_Some. }
  split_and!.
  - intros x y Hv. apply Hdom. auto.
  - intros x y Hs. apply Hfit. by apply Hdom.
  - intros x y s' Hs'.
    assert (isVaildPosition width height x y = true) as Hv.
    { apply Hfit, Hdom. eauto. }
    specialize (Hl x y). rewrite Hv, Hs' in Hl.
    destruct (slots !! (x, y)) as [s|]; simplify_eq/=.
    rewrite (nearByMine_inBounds width height) by done.
    unfold inBoundsMineNeighbours. do 2 f_equal.
    apply list_filter_iff. intros d. by rewrite Hm.
Qed.

(** The two nested [for] loops over a state without exceptions. *)
Lemma fold_left_grid {S} width height (body : Z → Z → S → S) (st : S) :
  fold_left
    (λ st i, fold_left (λ st j, body i j st) (range height) st)
    (range width) st
  = fold_left (λ st p, body p.1 p.2 st) (gridPositions width height) st.
Proof.
  unfold gridPositions. revert st.
  induction (range width) as [|i l IH]; intros st; [done|].
  rewrite bind_cons, fold_left_app. cbn [fold_left]. rewrite IH. f_equal.
  generalize (range height). intros l'. revert st.
  induction l' as [|j l' IH']; intros st; [done|]. simpl. apply IH'.
Qed.

(** ** part_000: the first click *)

Lemma fold_fieldCell_lookup randomer clickPosition ps st q :
  (fold_left (λ st p, Part000.fieldCell randomer clickPosition p.1 p.2 st) ps st).1
    !! q
  = if decide (q ∈ ps)
    then Some (newMineSlot (drawnMine randomer clickPosition q))
    else st.1 !! q.
Proof.
  revert st. induction ps as [|[i j] ps IH]; intros st.
  { rewrite decide_False; [done|apply not_elem_of_nil]. }
  cbn [fold_left]. rewrite IH. destruct (decide (q ∈ ps)) as [Hin|Hnin].
  { by rewrite (decide_True (P := q ∈ (i, j) :: ps)) by by right. }
  unfold Part000.fieldCell at 1. cbn [fst snd].
  destruct (decide (q = (i, j))) as [->|Hne].
  - rewrite lookup_insert_eq, (decide_True (P := (i, j) ∈ (i, j) :: ps)) by left.
    done.
  - rewrite lookup_insert_ne by done.
    rewrite (decide_False (P := q ∈ (i, j) :: ps)); [done|].
    by intros [?|?]%elem_of_cons.
Qed.

Lemma fieldCells_lookup randomer clickPosition width height st x y :
  (Part000.fieldCells randomer clickPosition width height st).1 !! (x, y)
  = if isVaildPosition width height x y
    then Some (newMineSlot (drawnMine randomer clickPosition (x, y)))
    else st.1 !! (x, y).
Proof.
  unfold Part000.fieldCells.
  rewrite (fold_left_grid width height
             (λ i j st, Part000.fieldCell randomer clickPosition i j st)).
  rewrite fold_fieldCell_lookup.
  destruct (isVaildPosition width height x y) eqn:E.
  - by rewrite decide_True by by apply elem_of_gridPositions.
  - rewrite decide_False; [done|]. rewrite elem_of_gridPositions. congruence.
Qed.

(** The first click on a fresh board: [initField] returns, the cells are
    exactly those of the grid with the mines of [drawnMine], none of them
    revealed, and the counts are those of the in-bounds neighbours. *)
Lemma Part000_initField_fresh x y b :
  Part000.fieldInited b = false → Part000.slots b = ∅ →
  ∃ slots' total,
    Part000.initField x y b
    = (Part000.set_slots slots'
         (Part000.set_totalSpaceCount total (Part000.set_fieldInited true b)),
       Ret tt) ∧
    wellCounted (Part000.width b) (Part000.height b) slots' ∧
    ∀ x' y', isVaildPosition (Part000.width b) (Part000.height b) x' y' = true →
      ∃ s, slots' !! (x', y') = Some s ∧ reveal s = false ∧
           hasMine s = drawnMine (Part000.randomer b) (x, y) (x', y').
Proof.
  intros Hi He. unfold Part000.initField. rewrite Hi. cbn zeta.
  set (st := Part000.fieldCells _ _ _ _ _).
  assert (∀ x' y', st.1 !! (x', y') =
            if isVaildPosition (Part000.width b) (Part000.height b) x' y'
            then Some (newMineSlot (drawnMine (Part000.randomer b) (x, y) (x', y')))
            else None) as Hst.
  { intros x' y'. unfold st. rewrite fieldCells_lookup. simpl.
    by rewrite He, lookup_empty. }
  destruct (initNearbyMine_wellCounted (Part000.width b) (Part000.height b) st.1)
    as (slots' & Heq & Hwc & Hf).
  { intros x' y' Hv. rewrite Hst, Hv. eauto. }
  { intros x' y' [s Hs]. rewrite Hst in Hs. by case_match. }
  exists slots', st.2. simpl. rewrite Heq. split_and!; [done..|].
  intros x' y' Hv. destruct (Hf (x', y')) as [Hm Hr].
  rewrite Hst, Hv in Hm, Hr. simpl in Hm, Hr.
  destruct (slots' !! (x', y')) as [s|]; simplify_eq/=. by exists s.
Qed.

(** ** What a click on an initialised board can change *)

(** On an initialised board a click, returning or throwing, keeps the
    dimensions and the flag, and keeps every cell's mine and count. *)
Lemma Part000_click_keeps x y b :
  Part000.fieldInited b = true →
  let b' := (Part000.click x y b).1 in
  Part000.width b' = Part000.width b ∧ Part000.height b' = Part000.height b ∧
  Part000.fieldInited b' = true ∧
  Part000.totalSpaceCount b' = Part000.totalSpaceCount b ∧
  sameCells (Part000.slots b) (Part000.slots b').
Proof.
  intros Hi. unfold Part000.click, Part000.initField. rewrite Hi.
  destruct (isVaildPosition _ _ x y); simpl; [|done].
  destruct (Part000.slots b !! (x, y)) as [slot|]; [|done].
  destruct (hasMine slot); simpl; [done|].
  case_bool_decide; simpl; [|done].
  destruct (touchingNoMine _ _ _ x y) as [ps| |]; [|done..].
  pose proof (revealAll_fields ps (Part000.slots b) (Part000.revealCount b)) as Hr.
  destruct (revealAll ps _) as [[slots' count'] [evs| |]]; simpl in *;
    try case_bool_decide; done.
Qed.

Lemma Main_click_keeps rnd x y b :
  Main.fieldInited b = true →
  let b' := (Main.click rnd x y b).1 in
  Main.width b' = Main.width b ∧ Main.height b' = Main.height b ∧
  Main.fieldInited b' = true ∧
  Main.mineCount b' = Main.mineCount b ∧
  sameCells (Main.slots b) (Main.slots b').
Proof.
  intros Hi. unfold Main.click, Main.initField. rewrite Hi.
  destruct (isVaildPosition _ _ x y); simpl; [|done].
  destruct (Main.slots b !! (x, y)) as [slot|]; [|done].
  destruct (hasMine slot); simpl; [done|].
  case_bool_decide; simpl; [|done].
  destruct (touchingNoMine _ _ _ x y) as [ps| |]; [|done..].
  pose proof (revealAll_fields ps (Main.slots b) (Main.revealCount b)) as Hr.
  destruct (revealAll ps _) as [[slots' count'] [evs| |]]; simpl in *;
    try case_bool_decide; done.
Qed.

(** The first click of part_000 is the click on the board [initField]
    leaves. *)
Lemma Part000_click_after_init x y b b1 :
  Part000.initField x y b = (b1, Ret tt) →
  Part000.fieldInited b1 = true →
  Part000.width b1 = Part000.width b → Part000.height b1 = Part000.height b →
  isVaildPosition (Part000.width b) (Part000.height b) x y = true →
  Part000.click x y b = Part000.click x y b1.
Proof.
  intros Heq Hi Hw Hh Hv. unfold Part000.click. rewrite Hw, Hh, Hv, Heq.
  unfold Part000.initField. by rewrite Hi.
Qed.

(** Every board of part_000 a caller can hold is either untouched or has
    exactly the grid's cells, counted correctly. *)
Lemma Part000_reachable_wellCounted b :
  Part000_reachable b →
  (Part000.fieldInited b = false ∧ Part000.slots b = ∅ ∧ Part000.state b = playing)
  ∨ (Part000.fieldInited b = true ∧
     wellCounted (Part000.width b) (Part000.height b) (Part000.slots b)).
Proof.
  induction 1 as [| x y b Hr IH]; [by left|].
  destruct (isVaildPosition (Part000.width b) (Part000.height b) x y) eqn:Hv.
  2:{ by rewrite Part000_click_invalid. }
  right.
  assert (∃ b1, Part000.click x y b = Part000.click x y b1 ∧
                Part000.fieldInited b1 = true ∧
                wellCounted (Part000.width b1) (Part000.height b1) (Part000.slots b1))
    as (b1 & -> & Hi1 & Hwc1).
  { destruct IH as [(Hi & He & _)|[Hi Hwc]]; [|by exists b].
    destruct (Part000_initField_fresh x y b Hi He) as (slots' & total & Heq & Hwc & _).
    eexists. split; [by eapply Part000_click_after_init|]. done. }
  destruct (Part000_click_keeps x y b1 Hi1) as (Hw & Hh & Hf & _ & Hsame).
  split; [done|]. rewrite Hw, Hh. by eapply wellCounted_sameCells.
Qed.

(** ** Finished boards (C1) *)

(** C1 as stated fails: the test board of part_000 is won by its first
    click, and the next in-bounds click, on a mine, returns [dead] and
    stores [dead], not [win]. *)
Lemma click_on_won_board_turns_dead :
  let b := (Part000.click 2 3 board_all_mines).1 in
  Part000.state b = win ∧
  isVaildPosition (Part000.width b) (Part000.height b) 2 2 = true ∧
  (Part000.click 2 2 b).2 = Ret (dead, []) ∧
  Part000.state (Part000.click 2 2 b).1 = dead.
Proof. vm_compute. done. Qed.

(** C1, as the code has it. On a board a caller can hold whose state is
    [dead] or [win], an in-bounds click on a position that holds a cell
    returns an empty reveal list and the state it stores: [dead] when the
    clicked cell has a mine, the previous state otherwise. The board it
    leaves is the old one with that state: no cell and no counter changes.
    In part_000 every in-bounds position of such a board holds a cell. *)
Theorem click_on_finished_board :
  (∀ rnd b x y slot,
     Main_reachable b → Main.state b ≠ playing →
     0 ≤ x < Main.width b → 0 ≤ y < Main.height b →
     Main.slots b !! (x, y) = Some slot →
     let st := if hasMine slot then dead else Main.state b in
     Main.click rnd x y b = (Main.set_state st b, Ret (st, []))) ∧
  (∀ b x y,
     Part000_reachable b → Part000.state b ≠ playing →
     0 ≤ x < Part000.width b → 0 ≤ y < Part000.height b →
     ∃ slot, Part000.slots b !! (x, y) = Some slot ∧
       let st := if hasMine slot then dead else Part000.state b in
       Part000.click x y b = (Part000.set_state st b, Ret (st, []))).
Proof.
  split.
  - intros rnd b x y slot Hr Hs Hx Hy Hl.
    apply Main_click_terminal; [by apply Main_reachable_inited|done| |done].
    by apply isVaildPosition_true.
  - intros b x y Hr Hs Hx Hy.
    assert (isVaildPosition (Part000.width b) (Part000.height b) x y = true) as Hv
      by by apply isVaildPosition_true.
    destruct (Part000_reachable_wellCounted b Hr) as [(_ & _ & ?)|[Hi (Hcov & _)]];
      [done|].
    destruct (Hcov x y Hv) as [slot Hl]. exists slot. split; [done|].
    by apply Part000_click_terminal.
Qed.

Lemma click_on_finished_board_witness :
  let b := (Part000.click 2 3 board_all_mines).1 in
  ∃ slot, Part000.slots b !! (2, 2) = Some slot ∧
    let st := if hasMine slot then dead else Part000.state b in
    Part000.click 2 2 b = (Part000.set_state st b, Ret (st, [])).
Proof.
  intros b. apply (proj2 click_on_finished_board b 2 2).
  - apply Part000_reach_click, Part000_reach_new.
  - vm_compute. discriminate.
  - vm_compute. split; [discriminate|reflexivity].
  - vm_compute. split; [discriminate|reflexivity].
Defined.

(** ** An example board a caller can hold *)

Lemma Main_reachable_board_2x2 : Main_reachable board_2x2.
Proof. by apply (Main_reach_new 5 5 (inr layout_2x2)). Qed.

(** ** The win test (C2) *)

(** On an initialised, covered board in play, a click on a safe cell ends
    in [win] exactly when the counter it leaves equals
    [width * height - mineCount], and in [playing] otherwise. *)
Lemma Main_click_win_iff_count rnd x y b s :
  Main.fieldInited b = true → Main.state b = playing →
  isVaildPosition (Main.width b) (Main.height b) x y = true →
  Main.slots b !! (x, y) = Some s → hasMine s = false →
  coversGrid (Main.width b) (Main.height b) (Main.slots b) →
  let b' := (Main.click rnd x y b).1 in
  (Main.state b' = win ↔
   Main.revealCount b' = Main.width b * Main.height b - Main.mineCount b) ∧
  (Main.state b' = win ∨ Main.state b' = playing) ∧
  ∃ evs, (Main.click rnd x y b).2 = Ret (Main.state b', evs).
Proof.
  intros Hi Hst Hv Hs Hm Hcov.
  destruct (Main_click_safe rnd x y b s Hi Hst Hv Hs Hm Hcov)
    as (ps & slots' & evs & _ & _ & _ & _ & ->).
  cbn zeta. case_bool_decide as Hc; simpl in *.
  - split_and!; [done|by left|by exists evs].
  - rewrite Hst. split_and!; [split; [done|by intros ?]|by right|by exists evs].
Qed.

(** C2 fails on the code. On the 2 x 2 layout with one mine, three clicks
    on the safe cell [(0, 0)] bring [revealCount] to 3, which is
    [width * height - mineCount], and the state becomes [win]; yet the two
    other safe cells, [(0, 1)] and [(1, 1)], were never revealed. *)
Theorem win_without_all_safe_cells_revealed :
  let click := Main.click (λ _, 0%nat) 0 0 in
  let b := (click (click (click board_2x2).1).1).1 in
  Main.state b = win ∧
  Main.revealCount b = Main.width b * Main.height b - Main.mineCount b ∧
  revealedCells (Main.slots b) = 1 ∧
  (reveal <$> Main.slots b !! (0, 1)) = Some false ∧
  (hasMine <$> Main.slots b !! (0, 1)) = Some false ∧
  (reveal <$> Main.slots b !! (1, 1)) = Some false ∧
  (hasMine <$> Main.slots b !! (1, 1)) = Some false.
Proof. by vm_compute. Qed.

(** ** The string layout (C10) *)

Lemma range_S n : range (Z.of_nat (S n)) = range (Z.of_nat n) ++ [Z.of_nat n].
Proof. unfold range. by rewrite !Nat2Z.id, seq_S, fmap_app. Qed.

Lemma length_filter_fmap {A B} (P : B → Prop) `{!∀ b, Decision (P b)}
    (f : A → B) (l : list A) :
  length (filter P (f <$> l)) = length (filter (P ∘ f) l).
Proof.
  induction l as [|a l IH]; [done|]. rewrite fmap_cons, !filter_cons. simpl.
  destruct (decide (P (f a))); simpl; by rewrite IH.
Qed.

Lemma isX_true rows x y :
  Main.isX rows x y = true ↔ ∃ row, rows !! y = Some row ∧ row !! x = Some ["x"%char].
Proof.
  unfold Main.isX. split.
  - intros H. destruct (rows !! y) as [row|] eqn:Hr; simpl in H; [|done].
    destruct (row !! x) as [tok|] eqn:Hx; [|done].
    apply bool_decide_eq_true in H as ->. eauto.
  - intros (row & -> & Hx). simpl. rewrite Hx. by apply bool_decide_eq_true.
Qed.

(** The inner loop, over the first [width] indices of one row. *)
Lemma xTokensIn_take (row : list (list ascii)) width :
  length (filter (λ x : nat, row !! x = Some ["x"%char]) (seq 0 width))
  = xTokensIn (take width row).
Proof.
  unfold xTokensIn. induction width as [|n IH]; [done|].
  rewrite seq_S, filter_app, length_app, IH. simpl.
  destruct (row !! n) as [tok|] eqn:E.
  - rewrite (take_S_r _ _ tok), filter_app, length_app by done. f_equal.
    rewrite !filter_cons, !filter_nil.
    destruct (decide (tok = ["x"%char])) as [->|Hne].
    + by rewrite decide_True.
    + rewrite decide_False; [done|]. rewrite E. by intros [= ?].
  - rewrite filter_cons, filter_nil, decide_False by by rewrite E.
    apply lookup_ge_None in E. rewrite !take_ge by lia. simpl. lia.
Qed.

(** The two loops together, over the first [n] rows. *)
Lemma xTokensRead_grid (rows : list (list (list ascii))) n width :
  (n ≤ length rows)%nat →
  length (filter (λ p : Position,
                    Main.isX rows (Z.to_nat p.2) (Z.to_nat p.1) = true)
            (gridPositions (Z.of_nat n) (Z.of_nat width)))
  = xTokensRead (take n rows) width.
Proof.
  unfold xTokensRead. induction n as [|n IH]; intros Hn; [done|].
  destruct (lookup_lt_is_Some_2 rows n) as [row Hrow]; [lia|].
  unfold gridPositions in *. rewrite range_S, bind_app, filter_app, length_app.
  rewrite IH by lia. rewrite (take_S_r _ _ row) by done.
  rewrite sum_list_with_app. f_equal. simpl. rewrite app_nil_r, Nat.add_0_r.
  rewrite <- xTokensIn_take. unfold range. rewrite Nat2Z.id.
  rewrite <- list_fmap_compose, length_filter_fmap. f_equal.
  apply list_filter_iff. intros x. unfold compose. simpl. rewrite !Nat2Z.id.
  rewrite isX_true. split.
  - intros (row' & Hr & Hx). congruence.
  - intros Hx. eauto.
Qed.

Lemma fold_layoutCell_lookup rows ps st x y :
  (fold_left (λ st p, Main.layoutCell rows p.1 p.2 st) ps st).1 !! (x, y)
  = if decide ((y, x) ∈ ps)
    then Some (newMineSlot (Main.isX rows (Z.to_nat x) (Z.to_nat y)))
    else st.1 !! (x, y).
Proof.
  revert st. induction ps as [|[j i] ps IH]; intros st.
  { rewrite decide_False; [done|apply not_elem_of_nil]. }
  cbn [fold_left]. rewrite IH. destruct (decide ((y, x) ∈ ps)) as [Hin|Hnin].
  { by rewrite (decide_True (P := (y, x) ∈ (j, i) :: ps)) by by right. }
  unfold Main.layoutCell at 1. cbn [fst snd].
  destruct (decide ((y, x) = (j, i))) as [[= -> ->]|Hne].
  - rewrite lookup_insert_eq, (decide_True (P := (j, i) ∈ (j, i) :: ps)) by left.
    done.
  - rewrite lookup_insert_ne by congruence.
    rewrite (decide_False (P := (y, x) ∈ (j, i) :: ps)); [done|].
    by intros [?|?]%elem_of_cons.
Qed.

Lemma fold_layoutCell_count rows ps st :
  (fold_left (λ st p, Main.layoutCell rows p.1 p.2 st) ps st).2
  = st.2 + Z.of_nat (length (filter
             (λ p : Position, Main.isX rows (Z.to_nat p.2) (Z.to_nat p.1) = true) ps)).
Proof.
  revert st. induction ps as [|[j i] ps IH]; intros st; [simpl; lia|].
  cbn [fold_left]. rewrite IH, filter_cons. unfold Main.layoutCell at 1. simpl.
  destruct (Main.isX rows (Z.to_nat i) (Z.to_nat j)); simpl; lia.
Qed.

Lemma splitLines_nonempty cur s : Main.splitLines cur s ≠ [].
Proof.
  revert cur. induction s as [|c s IH]; intros cur; simpl; [done|].
  by destruct (N_of_ascii c =? 10)%N.
Qed.

Lemma parseRows_nonempty layout : ∃ first rest, Main.parseRows layout = first :: rest.
Proof.
  unfold Main.parseRows.
  pose proof (splitLines_nonempty [] (Main.trim (list_ascii_of_string layout))) as H.
  destruct (Main.splitLines _ _) as [|l ls]; [done|]. rewrite fmap_cons. eauto.
Qed.

Lemma xTokensRead_all rows width :
  (∀ row, row ∈ rows → (length row ≤ width)%nat) →
  xTokensRead rows width = xTokens rows.
Proof.
  unfold xTokensRead, xTokens. induction rows as [|row rows IH]; intros H; [done|].
  simpl. rewrite IH by (intros r Hr; apply H; by right).
  rewrite take_ge; [done|]. apply H. left.
Qed.

(** The string branch of the constructor never throws. The board it
    returns has the dimensions of the parsed rows, counts the ["x"] tokens
    it read, is initialised, and has exactly the grid's cells, with the
    layout's mines, none revealed, and correct counts. *)
Lemma Main_constructor_layout width height layout :
  let rows := Main.parseRows layout in
  let w := length (default [] (rows !! 0%nat)) in
  let h := length rows in
  ∃ slots,
    Main.constructor width height (inr layout)
    = Ret (Main.mkMineBoard slots (Z.of_nat (xTokensRead rows w)) playing 0
             (Z.of_nat w) (Z.of_nat h) true) ∧
    wellCounted (Z.of_nat w) (Z.of_nat h) slots ∧
    ∀ x y, isVaildPosition (Z.of_nat w) (Z.of_nat h) x y = true →
      ∃ s, slots !! (x, y) = Some s ∧ reveal s = false ∧
           hasMine s = Main.isX rows (Z.to_nat x) (Z.to_nat y).
Proof.
  intros rows w h. unfold Main.constructor. fold rows. fold w. fold h.
  unfold Main.layoutCells.
  rewrite (fold_left_grid (Z.of_nat h) (Z.of_nat w)
             (λ y x st, Main.layoutCell rows y x st)).
  pose proof (fold_layoutCell_count rows
                (gridPositions (Z.of_nat h) (Z.of_nat w)) (∅, 0)) as Hc.
  pose proof (fold_layoutCell_lookup rows
                (gridPositions (Z.of_nat h) (Z.of_nat w)) (∅, 0)) as Hl.
  destruct (fold_left _ _ _) as [slots1 mc]. simpl in Hc, Hl.
  rewrite xTokensRead_grid in Hc by done. rewrite take_ge in Hc by done.
  assert (∀ x y, slots1 !! (x, y) =
            if isVaildPosition (Z.of_nat w) (Z.of_nat h) x y
            then Some (newMineSlot (Main.isX rows (Z.to_nat x) (Z.to_nat y)))
            else None) as Hs.
  { intros x y. rewrite Hl, lookup_empty.
    destruct (isVaildPosition (Z.of_nat w) (Z.of_nat h) x y) eqn:E.
    - rewrite decide_True; [done|]. apply elem_of_gridPositions.
      apply isVaildPosition_true in E. apply isVaildPosition_true. lia.
    - rewrite decide_False; [done|]. rewrite elem_of_gridPositions.
      intros E'. apply isVaildPosition_true in E'.
      apply isVaildPosition_false in E. lia. }
  destruct (initNearbyMine_wellCounted (Z.of_nat w) (Z.of_nat h) slots1)
    as (slots' & Heq & Hwc & Hf).
  { intros x y Hv. rewrite Hs, Hv. eauto. }
  { intros x y [s Hxy]. rewrite Hs in Hxy. by case_match. }
  exists slots'. rewrite Heq, Hc, Z.add_0_l. split_and!; [done..|].
  intros x y Hv. destruct (Hf (x, y)) as [Hm Hr].
  rewrite Hs, Hv in Hm, Hr. simpl in Hm, Hr.
  destruct (slots' !! (x, y)) as [s|]; simplify_eq/=. by exists s.
Qed.

(** C10 as stated fails on a ragged layout: the second row of
    [layout_ragged] holds two ["x"] tokens, the first row one token, and
    the board counts one mine. *)
Lemma ragged_layout_mineCount :
  let b := returned emptyBoard (Main.constructor 2 2 (inr layout_ragged)) in
  Main.constructor 2 2 (inr layout_ragged) = Ret b ∧
  Main.mineCount b = 1 ∧
  xTokens (Main.parseRows layout_ragged) = 2%nat.
Proof. by vm_compute. Qed.

(** C10, as the code has it. A board built from a string layout takes its
    width from the number of tokens of the first row and its height from the
    number of rows, whatever [width] and [height] were passed. Its
    [mineCount] is the number of ["x"] tokens among the first [width] tokens
    of each row, which is the number of all ["x"] tokens when no row is
    longer than the first. The board is initialised by the constructor:
    [initField] returns it unchanged for every click. *)
Theorem layout_constructor width height layout :
  ∃ first rest b,
    Main.parseRows layout = first :: rest ∧
    Main.constructor width height (inr layout) = Ret b ∧
    Main.width b = Z.of_nat (length first) ∧
    Main.height b = Z.of_nat (length (first :: rest)) ∧
    Main.mineCount b = Z.of_nat (xTokensRead (first :: rest) (length first)) ∧
    ((∀ row, row ∈ rest → (length row ≤ length first)%nat) →
     Main.mineCount b = Z.of_nat (xTokens (first :: rest))) ∧
    Main.fieldInited b = true ∧
    ∀ rnd x y, Main.initField rnd x y b = (b, Ret tt).
Proof.
  destruct (parseRows_nonempty layout) as (first & rest & Hrows).
  destruct (Main_constructor_layout width height layout) as (slots & Hc & _).
  cbn zeta in Hc. rewrite Hrows in Hc.
  change (default [] ((first :: rest) !! 0%nat)) with first in Hc.
  eexists first, rest, _. split_and!; [done|exact Hc|done..| |done|done].
  intros Hle. cbn [Main.mineCount]. rewrite xTokensRead_all; [done|].
  intros row [->|Hin]%elem_of_cons; [done|by apply Hle].
Qed.

Lemma layout_constructor_witness :
  ∃ b, Main.constructor 5 5 (inr layout_2x2) = Ret b ∧
       Main.width b = 2 ∧ Main.height b = 2 ∧ Main.mineCount b = 1.
Proof.
  destruct (layout_constructor 5 5 layout_2x2)
    as (first & rest & b & Hrows & Hc & Hw & Hh & _ & Hm & _).
  injection Hrows as <- <-.
  exists b. split_and!; [done..|]. rewrite Hm; [done|].
  intros row ->%list_elem_of_singleton. vm_compute. lia.
Defined.

(** ** main.ts: the first click on a mine-count board *)

Lemma swap_length positions i j : length (Main.swap positions i j) = length positions.
Proof.
  unfold Main.swap. destruct (positions !! i), (positions !! j); try done.
  by rewrite !length_insert.
Qed.

Lemma shuffle_length rnd i positions :
  length (Main.shuffle rnd i positions) = length positions.
Proof.
  revert positions. induction i as [|i IH]; intros positions; [done|].
  simpl. by rewrite IH, swap_length.
Qed.

(** The position pushed last is written last: it gets the flag of its own
    index whatever came before it. *)
Lemma placeMines_last mineCount i positions p slots :
  Main.placeMines mineCount i (positions ++ [p]) slots !! p
  = Some (newMineSlot (Z.of_nat (i + length positions) <? mineCount)).
Proof.
  revert i slots. induction positions as [|q positions IH]; intros i slots; simpl.
  - by rewrite lookup_insert_eq, Nat.add_0_r.
  - rewrite IH. do 3 f_equal. lia.
Qed.

(** Once [initField] is done, the rest of a click keeps mines and counts. *)
Lemma Main_click_after_initField rnd x y b :
  isVaildPosition (Main.width b) (Main.height b) x y = true →
  sameCells (Main.slots (Main.initField rnd x y b).1)
            (Main.slots (Main.click rnd x y b).1).
Proof.
  intros Hv.
  pose proof (Main_initField_fieldInited rnd x y b) as Hi.
  assert (Main.width (Main.initField rnd x y b).1 = Main.width b ∧
          Main.height (Main.initField rnd x y b).1 = Main.height b) as [Hw Hh].
  { unfold Main.initField. destruct (Main.fieldInited b); [done|].
    cbn zeta. by destruct (initNearbyMine _ _ _). }
  pose proof (Main_click_keeps rnd x y _ Hi) as (_ & _ & _ & _ & Hk).
  unfold Main.click in *. rewrite Hv. rewrite Hw, Hh, Hv in Hk. simpl in *.
  destruct (Main.initField rnd x y b) as [b1 [[]| |]] eqn:E; simpl in *;
    [|done..].
  unfold Main.initField in Hk at 1. by rewrite Hi in Hk.
Qed.

(** On a square board the candidate list, before the filter, enumerates
    the grid without repetition. *)
Lemma square_positions n :
  0 < n →
  let l := (λ index, (index / n, Z.rem index n)) <$> range (n * n) in
  NoDup l ∧ ∀ x y, (x, y) ∈ l ↔ isVaildPosition n n x y = true.
Proof.
  intros Hn l. subst l. split.
  - apply NoDup_fmap_2_strong.
    + intros a c Ha Hc [= Hq Hr]. apply elem_of_range in Ha, Hc.
      rewrite !Z.rem_mod_nonneg in Hr by lia.
      rewrite (Z.div_mod a n), (Z.div_mod c n) by lia. congruence.
    + unfold range. apply NoDup_fmap_2; [apply _|apply NoDup_seq].
  - intros x y. rewrite list_elem_of_fmap, isVaildPosition_true. split.
    + intros (a & [= -> ->] & Ha%elem_of_range).
      rewrite Z.rem_mod_nonneg by lia.
      pose proof (Z.mod_pos_bound a n). split; [|lia].
      split; [apply Z.div_pos; lia|apply Z.div_lt_upper_bound; lia].
    + intros [Hx Hy]. exists (x * n + y). split; [|apply elem_of_range; nia].
      rewrite Z.rem_mod_nonneg by nia. f_equal.
      * rewrite Z.div_add_l by lia. rewrite Z.div_small by lia. lia.
      * rewrite Z.add_comm, Z.mod_add by lia. by rewrite Z.mod_small.
Qed.

Lemma filter_ne_length {A} `{EqDecision A} (c : A) (l : list A) :
  NoDup l → (length l ≤ length (filter (λ p, p ≠ c) l) + 1)%nat.
Proof.
  induction 1 as [|a l Hnin Hnd IH]; [simpl; lia|].
  rewrite filter_cons. destruct (decide (a ≠ c)) as [Hne|Heq]; simpl; [lia|].
  apply dec_stable in Heq as ->.
  assert (filter (λ p, p ≠ c) l = l) as ->; [|lia].
  clear IH Hnd. induction l as [|a l IH]; [done|].
  rewrite filter_cons, decide_True.
  - rewrite IH; [done|]. intros ?. apply Hnin. by right.
  - intros ->. apply Hnin. left.
Qed.

(** The clicked cell of a square mine-count board is mine-free once
    [initField] has run. *)
Lemma Main_initField_square_click rnd n mineCount x y :
  mineCount < n * n →
  isVaildPosition n n x y = true →
  let b := Main.mkMineBoard ∅ mineCount playing 0 n n false in
  hasMine <$> Main.slots (Main.initField rnd x y b).1 !! (x, y) = Some false.
Proof.
  intros Hmc Hv b. unfold Main.initField. cbn [Main.fieldInited b]. cbn zeta.
  cbn [Main.width Main.height Main.mineCount Main.slots Main.set_slots
       Main.set_fieldInited b].
  set (positions := Main.shuffle rnd _ _).
  pose proof (initNearbyMine_fields n n
    (Main.placeMines mineCount 0 (positions ++ [(x, y)]) ∅) (x, y)) as [Hm _].
  destruct (initNearbyMine n n _) as [slots' r]. simpl in *.
  rewrite Hm, placeMines_last. simpl. do 2 f_equal. apply Z.ltb_ge.
  unfold positions. rewrite shuffle_length. unfold Main.candidatePositions.
  apply isVaildPosition_true in Hv.
  destruct (square_positions n) as [Hnd _]; [lia|].
  pose proof (filter_ne_length (x, y) _ Hnd) as Hlen.
  rewrite length_fmap, length_range in Hlen. lia.
Qed.

(** ** The first click (C3) *)

(** C3 as stated fails for a fixed layout: the board of the one-token
    layout ["x"] is initialised by the constructor, and its first click, on
    [(0, 0)], finds the mine the layout put there. *)
Lemma first_click_on_layout_mine :
  let b := returned emptyBoard (Main.constructor 1 1 (inr layout_mine)) in
  Main.constructor 1 1 (inr layout_mine) = Ret b ∧
  isVaildPosition (Main.width b) (Main.height b) 0 0 = true ∧
  (Main.click (λ _, 0%nat) 0 0 b).2 = Ret (dead, []) ∧
  hasMine <$> Main.slots (Main.click (λ _, 0%nat) 0 0 b).1 !! (0, 0) = Some true.
Proof. by vm_compute. Qed.

(** C3, as the code has it. After the first click, in bounds:
    - in part_000 (predicate) the click returns, not with [dead], and the
      clicked cell has no mine;
    - in main.ts with a mine count below [n * n] on a square [n] x [n]
      board, the clicked cell has no mine;
    - in main.ts with a string layout, the clicked cell has the mine the
      layout gives it: nothing is forced. *)
Theorem first_click_safe :
  (∀ coin width height randomer x y,
     0 ≤ x < width → 0 ≤ y < height →
     let r := Part000.click x y (Part000.constructor coin width height randomer) in
     hasMine <$> Part000.slots r.1 !! (x, y) = Some false ∧
     ∃ st evs, r.2 = Ret (st, evs) ∧ st ≠ dead) ∧
  (∀ rnd n mineCount b x y,
     Main.constructor n n (inl mineCount) = Ret b →
     0 ≤ x < n → 0 ≤ y < n →
     hasMine <$> Main.slots (Main.click rnd x y b).1 !! (x, y) = Some false) ∧
  (∀ rnd width height layout b x y,
     Main.constructor width height (inr layout) = Ret b →
     0 ≤ x < Main.width b → 0 ≤ y < Main.height b →
     hasMine <$> Main.slots (Main.click rnd x y b).1 !! (x, y)
     = Some (Main.isX (Main.parseRows layout) (Z.to_nat x) (Z.to_nat y))).
Proof.
  split_and!.
  - intros coin width height randomer x y Hx Hy.
    set (b := Part000.constructor coin width height randomer).
    assert (isVaildPosition (Part000.width b) (Part000.height b) x y = true) as Hv
      by by apply isVaildPosition_true.
    destruct (Part000_initField_fresh x y b) as (slots' & total & Heq & Hwc & Hc);
      [done..|].
    destruct (Hc x y Hv) as (s & Hs & _ & Hm).
    unfold drawnMine in Hm. rewrite bool_decide_eq_true_2 in Hm by done.
    cbn zeta. erewrite Part000_click_after_init; [|done..].
    set (b1 := Part000.set_slots _ _) in *.
    destruct (Part000_click_safe x y b1 s) as (ps & slots2 & evs & _ & _ & _ & _ & Hcl);
      [done..|by destruct Hwc|].
    destruct (Part000_click_keeps x y b1) as (_ & _ & _ & _ & Hk); [done|].
    split.
    + destruct (Hk (x, y)) as [-> _]. unfold b1. simpl. rewrite Hs. simpl.
      by rewrite Hm.
    + rewrite Hcl. cbn zeta. eexists _, evs. split; [done|].
      case_bool_decide; simpl; done.
  - intros rnd n mineCount b x y Hc Hx Hy.
    assert (isVaildPosition n n x y = true) as Hv by by apply isVaildPosition_true.
    unfold Main.constructor in Hc.
    destruct (Z.geb_spec mineCount (n * n)) as [|Hlt]; [done|].
    injection Hc as <-.
    destruct (Main_click_after_initField rnd x y
                (Main.mkMineBoard ∅ mineCount playing 0 n n false) Hv (x, y))
      as [-> _].
    by apply Main_initField_square_click.
  - intros rnd width height layout b x y Hc Hx Hy.
    destruct (Main_constructor_layout width height layout) as (slots & Hc' & _ & Hl).
    cbn zeta in Hc'. rewrite Hc in Hc'. injection Hc' as Hb.
    assert (Main.fieldInited b = true) as Hi by by subst b.
    destruct (Main_click_keeps rnd x y b Hi) as (_ & _ & _ & _ & Hk).
    destruct (Hk (x, y)) as [-> _]. subst b. simpl in *.
    destruct (Hl x y) as (s & -> & _ & <-); [by apply isVaildPosition_true|done].
Qed.

Lemma first_click_safe_witness :
  hasMine <$> Part000.slots (Part000.click 2 3 board_all_mines).1 !! (2, 3)
  = Some false.
Proof.
  apply (proj1 first_click_safe (λ _ _, false) 5 5 (Some (λ _ _, true)) 2 3); lia.
Defined.

(** ** Mine placement and counts on a board that is not square (C4, C7) *)

(** The shuffle permutes its list. *)
Lemma swap_Permutation positions i j : Main.swap positions i j ≡ₚ positions.
Proof.
  unfold Main.swap. destruct (positions !! i) eqn:Ei; [|done].
  destruct (positions !! j) eqn:Ej; [|done]. by apply Permutation_insert_swap.
Qed.

Lemma shuffle_Permutation rnd i positions :
  Main.shuffle rnd i positions ≡ₚ positions.
Proof.
  revert positions. induction i as [|i IH]; intros positions; [done|].
  cbn [Main.shuffle]. by rewrite IH, swap_Permutation.
Qed.

(** [placeMines] writes the listed positions and no other. *)
Lemma placeMines_lookup_notin mineCount i positions slots p :
  p ∉ positions → Main.placeMines mineCount i positions slots !! p = slots !! p.
Proof.
  revert i slots. induction positions as [|q positions IH]; intros i slots Hp;
    [done|].
  apply not_elem_of_cons in Hp as [Hne Hp]. simpl.
  rewrite IH by done. by rewrite lookup_insert_ne.
Qed.

Lemma placeMines_is_Some mineCount i positions slots p :
  is_Some (Main.placeMines mineCount i positions slots !! p)
  ↔ p ∈ positions ∨ is_Some (slots !! p).
Proof.
  revert i slots. induction positions as [|q positions IH]; intros i slots; simpl.
  { rewrite elem_of_nil. tauto. }
  rewrite IH, elem_of_cons. destruct (decide (p = q)) as [->|Hne].
  - rewrite lookup_insert_eq. split; [by left; left|]. intros _. right. eauto.
  - rewrite lookup_insert_ne by done. tauto.
Qed.

(** A position written once gets the flag of its index. *)
Lemma placeMines_lookup_NoDup mineCount i positions slots k p :
  NoDup positions → positions !! k = Some p →
  Main.placeMines mineCount i positions slots !! p
  = Some (newMineSlot (Z.of_nat (i + k) <? mineCount)).
Proof.
  intros Hnd. revert i k slots.
  induction Hnd as [|q positions Hnin Hnd IH]; intros i k slots Hk; [done|].
  simpl. destruct k as [|k]; simpl in Hk.
  - injection Hk as ->. rewrite placeMines_lookup_notin by done.
    by rewrite lookup_insert_eq, Nat.add_0_r.
  - rewrite (IH _ k) by done. do 3 f_equal. lia.
Qed.

(** When some position of [ps] holds no slot, the loop writing the counts
    throws, and it has added no slot before. *)
Lemma forEach_setNearbyMine_uncovered ps slots p :
  p ∈ ps → slots !! p = None →
  (forEach ps (λ p, setNearbyMine p.1 p.2) slots).2 = Throw TypeError.
Proof.
  revert slots. induction ps as [|[i j] ps IH]; intros slots Hp Hn.
  { by apply elem_of_nil in Hp. }
  cbn [forEach fst snd]. unfold setNearbyMine at 1.
  destruct (slots !! (i, j)) as [s|] eqn:Hs; [|done].
  apply elem_of_cons in Hp as [->|Hp]; [congruence|].
  apply IH; [done|]. rewrite lookup_insert_ne; [done|]. congruence.
Qed.

Lemma initNearbyMine_uncovered width height slots x y :
  isVaildPosition width height x y = true → slots !! (x, y) = None →
  (initNearbyMine width height slots).2 = Throw TypeError.
Proof.
  intros Hv Hn. unfold initNearbyMine. rewrite forEach_grid.
  apply (forEach_setNearbyMine_uncovered _ _ (x, y)); [|done].
  by apply elem_of_gridPositions.
Qed.

(** The cells a mine-count board holds after its first click: those it
    held, the candidates and the clicked one. *)
Lemma Main_first_click_cells rnd x y b p :
  Main.fieldInited b = false →
  isVaildPosition (Main.width b) (Main.height b) x y = true →
  is_Some (Main.slots (Main.click rnd x y b).1 !! p)
  ↔ p ∈ Main.candidatePositions (Main.width b) (Main.height b) (x, y)
    ∨ p = (x, y) ∨ is_Some (Main.slots b !! p).
Proof.
  intros Hi Hv.
  rewrite (sameCells_is_Some _ _ p (Main_click_after_initField rnd x y b Hv)).
  unfold Main.initField. rewrite Hi. cbn zeta.
  cbn [Main.width Main.height Main.mineCount Main.slots Main.set_slots
       Main.set_fieldInited].
  set (placed := Main.placeMines _ _ _ _).
  pose proof (initNearbyMine_fields (Main.width b) (Main.height b) placed p)
    as [Hm _].
  destruct (initNearbyMine _ _ placed) as [slots' r]. simpl in *.
  rewrite <- (fmap_is_Some hasMine), Hm, fmap_is_Some. unfold placed.
  rewrite placeMines_is_Some, elem_of_app, list_elem_of_singleton.
  rewrite shuffle_Permutation. tauto.
Qed.

(** When the candidates and the clicked cell leave an in-bounds position
    without a cell, the first click throws out of [initNearbyMine]. *)
Lemma Main_first_click_throws rnd x y b x' y' :
  Main.fieldInited b = false → Main.slots b = ∅ →
  isVaildPosition (Main.width b) (Main.height b) x y = true →
  isVaildPosition (Main.width b) (Main.height b) x' y' = true →
  (x', y') ∉ Main.candidatePositions (Main.width b) (Main.height b) (x, y) →
  (x', y') ≠ (x, y) →
  (Main.click rnd x y b).2 = Throw TypeError.
Proof.
  intros Hi He Hv Hv' Hnin Hne. unfold Main.click, Main.initField.
  rewrite Hv, Hi. cbn zeta. cbn [negb].
  cbn [Main.width Main.height Main.mineCount Main.slots Main.set_slots
       Main.set_fieldInited].
  set (placed := Main.placeMines _ _ _ _).
  pose proof (initNearbyMine_uncovered (Main.width b) (Main.height b) placed x' y' Hv')
    as Hthrow.
  destruct (initNearbyMine _ _ placed) as [slots' r]. simpl in Hthrow.
  rewrite Hthrow; [done|]. unfold placed.
  rewrite placeMines_lookup_notin, He; [done|].
  rewrite elem_of_app, list_elem_of_singleton, shuffle_Permutation. tauto.
Qed.

(** C4 fails on the code when [width ≠ height]: [initField] lists the
    candidates as [(index / width, index % height)].
    - On the 1 x 2 board with one mine, first click [(0, 1)]: for every
      outcome of the shuffle a cell is stored at [(1, 1)], outside the grid;
      when the shuffle swaps, the mine goes there and no grid cell has one.
    - On the 2 x 3 board, first click [(0, 0)]: for every outcome of the
      shuffle the grid position [(0, 2)] gets no cell, [(2, 1)] outside the
      grid gets one, and the click throws the [TypeError] of
      [initNearbyMine]. *)
Theorem mine_placement_off_square :
  (Main.constructor 1 2 (inl 1) = Ret board_1x2 ∧
   isVaildPosition 1 2 0 1 = true ∧ isVaildPosition 1 2 1 1 = false ∧
   (∀ rnd, is_Some (Main.slots (Main.click rnd 0 1 board_1x2).1 !! (1, 1))) ∧
   let b' := (Main.click (λ _, 0%nat) 0 1 board_1x2).1 in
   Main.mineCount b' = 1 ∧ gridMines 1 2 (Main.slots b') = 0 ∧
   hasMineAt (Main.slots b') (1, 1) = true) ∧
  (Main.constructor 2 3 (inl 0) = Ret board_2x3 ∧
   isVaildPosition 2 3 0 0 = true ∧
   isVaildPosition 2 3 0 2 = true ∧ isVaildPosition 2 3 2 1 = false ∧
   ∀ rnd,
     (Main.click rnd 0 0 board_2x3).2 = Throw TypeError ∧
     Main.slots (Main.click rnd 0 0 board_2x3).1 !! (0, 2) = None ∧
     is_Some (Main.slots (Main.click rnd 0 0 board_2x3).1 !! (2, 1))).
Proof.
  split; split_and!; try done.
  - intros rnd. apply Main_first_click_cells; [done..|]. left.
    apply (bool_decide_unpack _). by vm_compute.
  - intros rnd. split_and!.
    + apply (Main_first_click_throws rnd 0 0 board_2x3 0 2); try done.
      apply (bool_decide_unpack _). by vm_compute.
    + apply eq_None_not_Some. rewrite Main_first_click_cells by done.
      intros [Hin|[?|[? ?]]]; [|done..].
      revert Hin. apply (bool_decide_unpack _). by vm_compute.
    + apply Main_first_click_cells; [done..|]. left.
      apply (bool_decide_unpack _). by vm_compute.
Qed.

(** C7 fails on the code for the same reason as C4. On the 1 x 2 board with
    one mine, first click [(0, 1)], when the shuffle swaps: the click
    returns (the game is won), both grid cells store the count 1, and
    neither has an in-bounds neighbour with a mine; the mine they count is
    the one stored at [(1, 1)], outside the grid. *)
Theorem neighbour_count_off_square :
  let r := Main.click (λ _, 0%nat) 0 1 board_1x2 in
  r.2 = Ret (win, [{| position := (0, 1); ev_nearbyMine := 1 |}]) ∧
  nearbyMine <$> Main.slots r.1 !! (0, 0) = Some 1 ∧
  inBoundsMineNeighbours 1 2 (Main.slots r.1) 0 0 = 0 ∧
  nearbyMine <$> Main.slots r.1 !! (0, 1) = Some 1 ∧
  inBoundsMineNeighbours 1 2 (Main.slots r.1) 0 1 = 0 ∧
  isVaildPosition 1 2 1 1 = false ∧ hasMineAt (Main.slots r.1) (1, 1) = true.
Proof. by vm_compute. Qed.

(** Where C7 holds. Every board of part_000 that left the fresh state, and
    every board built from a string layout, has exactly the grid's cells
    with the count of their in-bounds neighbours that hold a mine; and a
    click on an initialised board of either revision never changes a mine
    or a count. *)
Lemma neighbour_counts_where_sound :
  (∀ b, Part000_reachable b → Part000.fieldInited b = true →
        wellCounted (Part000.width b) (Part000.height b) (Part000.slots b)) ∧
  (∀ width height layout b,
     Main.constructor width height (inr layout) = Ret b →
     wellCounted (Main.width b) (Main.height b) (Main.slots b)) ∧
  (∀ rnd x y b, Main.fieldInited b = true →
     sameCells (Main.slots b) (Main.slots (Main.click rnd x y b).1)) ∧
  (∀ x y b, Part000.fieldInited b = true →
     sameCells (Part000.slots b) (Part000.slots (Part000.click x y b).1)).
Proof.
  split_and!.
  - intros b Hr Hi.
    destruct (Part000_reachable_wellCounted b Hr) as [(? & _)|[_ ?]];
      [congruence|done].
  - intros width height layout b Hc.
    destruct (Main_constructor_layout width height layout) as (slots & Hc' & Hwc & _).
    cbn zeta in Hc'. rewrite Hc in Hc'. by injection Hc' as ->.
  - intros rnd x y b Hi. by destruct (Main_click_keeps rnd x y b Hi) as (_&_&_&_&?).
  - intros x y b Hi. by destruct (Part000_click_keeps x y b Hi) as (_&_&_&_&?).
Qed.

(** ** Revealed cells stay closed under the flood fill *)

Lemma settled_mono slots seen seen' p :
  (∀ q, q ∈ seen → q ∈ seen') → settled slots seen p → settled slots seen' p.
Proof.
  intros Hsub (s & Hs & H). exists s. split; [done|].
  destruct H as [?|[?|?]]; auto.
Qed.

Section Closed.
Variables (width height : Z) (slots : gmap Position MineSlot).

Lemma pushNeighbours_settled i j result deltas stack stack' :
pushNeighbours width height slots i j result deltas stack = Ret stack' →
(∀ p, p ∈ stack → p ∈ stack') ∧
∀ d, d ∈ deltas → inGrid width height (d.1 + i, d.2 + j) →
     settled slots (stack' ++ result) (d.1 + i, d.2 + j).
Proof.
revert stack. induction deltas as [|[x y] deltas IH]; intros stack Heq;
  simpl in Heq.
{ injection Heq as <-. split; [done|]. by intros d ?%elem_of_nil. }
assert (∀ stack0,
  pushNeighbours width height slots i j result deltas stack0 = Ret stack' →
  (∀ p, p ∈ stack → p ∈ stack0) →
  (inGrid width height (x + i, y + j) →
   settled slots (stack0 ++ result) (x + i, y + j)) →
  (∀ p, p ∈ stack → p ∈ stack') ∧
  ∀ d, d ∈ (x, y) :: deltas → inGrid width height (d.1 + i, d.2 + j) →
       settled slots (stack' ++ result) (d.1 + i, d.2 + j)) as Hstep.
{ intros stack0 H0 Hsub Hhead. destruct (IH _ H0) as [Hmono Hset]. split; [auto|].
  intros d [->|Hd]%elem_of_cons Hg; [|by apply Hset].
  eapply settled_mono; [|by apply Hhead].
  intros q [?|?]%elem_of_app; apply elem_of_app; auto. }
destruct (isVaildPosition width height (x + i) (y + j)) eqn:Hv; simpl in Heq.
2:{ apply (Hstep stack); [done..|]. unfold inGrid. simpl. congruence. }
destruct (slots !! (x + i, y + j)) as [s|] eqn:Hs; [|done].
destruct (hasMine s || reveal s || bool_decide ((x + i, y + j) ∈ result)
          || bool_decide ((x + i, y + j) ∈ stack)) eqn:Hc.
- apply (Hstep stack); [done..|]. intros _. exists s. split; [done|].
  rewrite !orb_true_iff, !bool_decide_eq_true in Hc. rewrite elem_of_app. tauto.
- apply (Hstep ((x + i, y + j) :: stack)); [done|by right|].
  intros _. exists s. split; [done|]. right. right. left.
Qed.

Lemma pushNeighbours_nothing i j result deltas stack :
(∀ d, d ∈ deltas → inGrid width height (d.1 + i, d.2 + j) →
      settled slots [] (d.1 + i, d.2 + j)) →
pushNeighbours width height slots i j result deltas stack = Ret stack.
Proof.
induction deltas as [|[x y] deltas IH]; intros H; simpl; [done|].
assert (∀ d, d ∈ deltas → inGrid width height (d.1 + i, d.2 + j) →
          settled slots [] (d.1 + i, d.2 + j)) as H'.
{ intros d Hd. apply H. by right. }
specialize (IH H').
destruct (isVaildPosition width height (x + i) (y + j)) eqn:Hv; simpl; [|done].
destruct (H (x, y)) as (s & Hs & Hc); [left|done|]. simpl in Hs. rewrite Hs.
destruct Hc as [->|[->|Hin]].
- done.
- by rewrite orb_true_r.
- by apply elem_of_nil in Hin.
Qed.

Lemma floodLoop_closed fuel stack result r :
floodLoop width height slots fuel stack result = Ret r →
fillClosed width height slots stack result →
fillClosed width height slots [] r.
Proof.
revert stack result. induction fuel as [|fuel IH]; intros stack result Heq Hcl;
  [done|].
destruct stack as [|[i j] stack]; cbn [floodLoop] in Heq.
{ by injection Heq as <-. }
destruct (slots !! (i, j)) as [s|] eqn:Hs; [|done].
assert (∀ stack'',
  (∀ p, p ∈ stack → p ∈ stack'') →
  (¬ (nearbyMine s > 0) →
   neighboursSettled width height slots (stack'' ++ result ++ [(i, j)]) (i, j)) →
  fillClosed width height slots stack'' (result ++ [(i, j)])) as Hnext.
{ intros stack'' Hsub Hcur q sq [Hq| ->%list_elem_of_singleton]%elem_of_app Hsq Hn.
  - intros d Hd Hg. eapply settled_mono; [|by eapply Hcl].
    intros p. rewrite !elem_of_app, elem_of_cons, list_elem_of_singleton.
    intros [[->|?]|?]; auto.
  - rewrite Hs in Hsq. injection Hsq as <-. by apply Hcur. }
destruct (nearbyMine s >? 0) eqn:Hn.
{ apply (IH _ _ Heq), Hnext; [done|]. intros Hn'. lia. }
destruct (pushNeighbours width height slots i j (result ++ [(i, j)]) deltaMap stack)
  as [stack''| |] eqn:Hp; [|done..].
destruct (pushNeighbours_settled _ _ _ _ _ _ Hp) as [Hsub Hset].
apply (IH _ _ Heq), Hnext; [done|]. intros _ d Hd Hg. by apply Hset.
Qed.

Lemma touchingNoMine_closed ox oy ps :
touchingNoMine width height slots ox oy = Ret ps →
fillClosed width height slots [] ps.
Proof.
unfold touchingNoMine. destruct (slots !! (ox, oy)) as [s|]; [|done].
destruct (hasMine s); [done|]. intros Heq.
apply (floodLoop_closed _ _ _ _ Heq). by intros q sq ?%elem_of_nil.
Qed.

(** A revealed cell that is closed is a fixed point of the fill: the list
  is the cell alone. *)
Lemma touchingNoMine_revealed ox oy s :
slots !! (ox, oy) = Some s → hasMine s = false →
nearbyMine s > 0 ∨ neighboursSettled width height slots [] (ox, oy) →
touchingNoMine width height slots ox oy = Ret [(ox, oy)].
Proof.
intros Hs Hm Hcl. unfold touchingNoMine, floodFuel. rewrite Hs, Hm.
cbn [floodLoop]. rewrite Hs. destruct (nearbyMine s >? 0) eqn:Hn; [done|].
destruct Hcl as [?|Hcl]; [lia|].
rewrite pushNeighbours_nothing; [done|]. intros d Hd Hg. by apply Hcl.
Qed.

(** Revealing the list of a completed fill keeps every revealed cell
  closed. *)
Lemma revealAll_closed ps count :
revealClosed width height slots →
fillClosed width height slots [] ps →
(∀ p, p ∈ ps → is_Some (slots !! p)) →
revealClosed width height (revealAll ps (slots, count)).1.1.
Proof.
intros Hold Hnew Hcov.
destruct (revealAll_spec ps slots count Hcov) as (slots' & evs & -> & _ & _ & Hl).
simpl. intros q sq' Hq Hr.
assert (∀ p, settled slots ps p → settled slots' [] p) as Hset.
{ intros p (s & Hs & H). rewrite <- (app_nil_l ps) in H.
  destruct (decide (p ∈ ps)) as [Hin|Hnin].
  - exists (set_reveal true s). split; [|by right; left].
    by rewrite Hl, decide_True, Hs.
  - exists s. split; [by rewrite Hl, decide_False|].
    destruct H as [?|[?|?]]; auto. }
rewrite Hl in Hq. destruct (decide (q ∈ ps)) as [Hin|Hnin].
- destruct (slots !! q) as [sq|] eqn:Hsq; simplify_eq/=.
  destruct (decide (nearbyMine sq > 0)) as [?|Hn]; [by left|right].
  intros d Hd Hg. apply Hset. by apply (Hnew q sq).
- destruct (Hold q sq' Hq Hr) as [?|Hc]; [by left|right].
  intros d Hd Hg. apply Hset. eapply settled_mono; [|by apply Hc].
  by intros p ?%elem_of_nil.
Qed.
End Closed.

(** ** Reachable boards keep their revealed cells closed *)

Lemma unrevealed_revealClosed width height slots :
  unrevealed slots → revealClosed width height slots.
Proof. intros H q sq Hq Hr. rewrite (H q sq Hq) in Hr. done. Qed.

Lemma placeMines_unrevealed mineCount i positions slots :
  unrevealed slots → unrevealed (Main.placeMines mineCount i positions slots).
Proof.
  revert i slots. induction positions as [|p positions IH]; intros i slots H;
    [done|].
  simpl. apply IH. intros q s. destruct (decide (q = p)) as [->|Hne].
  - rewrite lookup_insert_eq. by intros [= <-].
  - rewrite lookup_insert_ne by done. apply H.
Qed.

Lemma initNearbyMine_unrevealed width height slots :
  unrevealed slots → unrevealed (initNearbyMine width height slots).1.
Proof.
  intros H q s Hq.
  destruct (initNearbyMine_fields width height slots q) as [_ Hr].
  rewrite Hq in Hr. destruct (slots !! q) as [s0|] eqn:E; simplify_eq/=.
  rewrite Hr. by apply (H q).
Qed.

Lemma Main_initField_unrevealed rnd x y b :
  Main.fieldInited b = false → Main.slots b = ∅ →
  unrevealed (Main.slots (Main.initField rnd x y b).1).
Proof.
  intros Hi He. unfold Main.initField. rewrite Hi. cbn zeta.
  cbn [Main.width Main.height Main.mineCount Main.slots Main.set_slots
       Main.set_fieldInited].
  set (placed := Main.placeMines _ _ _ _).
  assert (unrevealed placed) as Hp.
  { apply placeMines_unrevealed. rewrite He. intros q s.
    by rewrite lookup_empty. }
  pose proof (initNearbyMine_unrevealed (Main.width b) (Main.height b) placed Hp).
  by destruct (initNearbyMine _ _ placed).
Qed.

Lemma Main_initField_dims rnd x y b :
  Main.width (Main.initField rnd x y b).1 = Main.width b ∧
  Main.height (Main.initField rnd x y b).1 = Main.height b.
Proof.
  unfold Main.initField. destruct (Main.fieldInited b); [done|].
  cbn zeta. by destruct (initNearbyMine _ _ _).
Qed.

(** A click is [initField] followed by the click on the board it leaves,
    unless [initField] throws. *)
Lemma Main_click_via_initField rnd x y b :
  isVaildPosition (Main.width b) (Main.height b) x y = true →
  (Main.click rnd x y b).1 = (Main.initField rnd x y b).1 ∨
  Main.click rnd x y b = Main.click rnd x y (Main.initField rnd x y b).1.
Proof.
  intros Hv. pose proof (Main_initField_fieldInited rnd x y b) as Hi.
  destruct (Main_initField_dims rnd x y b) as [Hw Hh].
  destruct (Main.initField rnd x y b) as [b1 r] eqn:E. simpl in Hi, Hw, Hh.
  cbn [fst]. unfold Main.click. rewrite Hw, Hh, Hv, E. cbn [negb fst].
  destruct r as [[]| |]; [right|by left..].
  unfold Main.initField. by rewrite Hi.
Qed.

Lemma Main_click_closed rnd x y b :
  Main.fieldInited b = true →
  revealClosed (Main.width b) (Main.height b) (Main.slots b) →
  revealClosed (Main.width b) (Main.height b) (Main.slots (Main.click rnd x y b).1).
Proof.
  intros Hi Hcl. unfold Main.click, Main.initField. rewrite Hi.
  destruct (isVaildPosition _ _ x y) eqn:Hv; simpl; [|done].
  destruct (Main.slots b !! (x, y)) as [slot|] eqn:Hs; [|done].
  destruct (hasMine slot) eqn:Hm; simpl; [done|].
  case_bool_decide; simpl; [|done].
  pose proof (touchingNoMine_spec _ _ _ _ _ _ Hv Hs Hm) as Hsp.
  destruct (touchingNoMine _ _ _ x y) as [ps| |] eqn:Ht; [|done..].
  simpl in Hsp. destruct Hsp as [Hinv _].
  pose proof (revealAll_closed _ _ _ ps (Main.revealCount b) Hcl
                (touchingNoMine_closed _ _ _ _ _ _ Ht)) as Hr.
  destruct (revealAll ps _) as [[slots' count'] [evs| |]]; simpl in *;
    try case_bool_decide; simpl; apply Hr; intros p Hp;
    apply (fill_slot _ _ _ _ _ _ Hinv); by rewrite app_nil_l.
Qed.

Lemma Part000_click_closed x y b :
  Part000.fieldInited b = true →
  revealClosed (Part000.width b) (Part000.height b) (Part000.slots b) →
  revealClosed (Part000.width b) (Part000.height b)
    (Part000.slots (Part000.click x y b).1).
Proof.
  intros Hi Hcl. unfold Part000.click, Part000.initField. rewrite Hi.
  destruct (isVaildPosition _ _ x y) eqn:Hv; simpl; [|done].
  destruct (Part000.slots b !! (x, y)) as [slot|] eqn:Hs; [|done].
  destruct (hasMine slot) eqn:Hm; simpl; [done|].
  case_bool_decide; simpl; [|done].
  pose proof (touchingNoMine_spec _ _ _ _ _ _ Hv Hs Hm) as Hsp.
  destruct (touchingNoMine _ _ _ x y) as [ps| |] eqn:Ht; [|done..].
  simpl in Hsp. destruct Hsp as [Hinv _].
  pose proof (revealAll_closed _ _ _ ps (Part000.revealCount b) Hcl
                (touchingNoMine_closed _ _ _ _ _ _ Ht)) as Hr.
  destruct (revealAll ps _) as [[slots' count'] [evs| |]]; simpl in *;
    try case_bool_decide; simpl; apply Hr; intros p Hp;
    apply (fill_slot _ _ _ _ _ _ Hinv); by rewrite app_nil_l.
Qed.

(** Every board of main.ts a caller can hold is fresh and empty, or
    initialised; its revealed cells are closed. *)
Lemma Main_reachable_closed b :
  Main_reachable b →
  revealClosed (Main.width b) (Main.height b) (Main.slots b) ∧
  (Main.fieldInited b = true ∨ Main.slots b = ∅).
Proof.
  induction 1 as [width height spec b Hc | rnd x y b Hr [Hcl IH]].
  - destruct spec as [mineCount|layout].
    + unfold Main.constructor in Hc. case_match; [done|]. injection Hc as <-.
      split; [|by right]. apply unrevealed_revealClosed. intros q s.
      simpl. by rewrite lookup_empty.
    + destruct (Main_constructor_layout width height layout)
        as (slots & Hc' & (_ & Hfit & _) & Hl).
      cbn zeta in Hc'. rewrite Hc in Hc'. injection Hc' as ->.
      split; [|by left]. apply unrevealed_revealClosed. intros [x y] s Hs.
      simpl in *. destruct (Hl x y) as (s' & Hs' & Hr & _); [apply Hfit; eauto|].
      congruence.
  - destruct (isVaildPosition (Main.width b) (Main.height b) x y) eqn:Hv.
    2:{ by rewrite Main_click_invalid. }
    destruct (Main_click_inited rnd x y b) as [Heq|Hi']; [by rewrite Heq|].
    split; [|by left].
    assert (Main.fieldInited (Main.initField rnd x y b).1 = true ∧
            revealClosed (Main.width b) (Main.height b)
              (Main.slots (Main.initField rnd x y b).1)) as [Hi1 Hcl1].
    { split; [apply Main_initField_fieldInited|].
      destruct IH as [Hi|He].
      - unfold Main.initField. by rewrite Hi.
      - destruct (Main.fieldInited b) eqn:Hi.
        + unfold Main.initField. by rewrite Hi.
        + by apply unrevealed_revealClosed, Main_initField_unrevealed. }
    destruct (Main_initField_dims rnd x y b) as [Hw Hh].
    rewrite <- Hw, <- Hh in Hcl1.
    destruct (Main_click_via_initField rnd x y b Hv) as [Heq|Heq]; rewrite Heq;
      [done|].
    destruct (Main_click_keeps rnd x y _ Hi1) as (Hw1 & Hh1 & _).
    rewrite Hw1, Hh1. by apply Main_click_closed.
Qed.

Lemma Part000_reachable_closed b :
  Part000_reachable b →
  revealClosed (Part000.width b) (Part000.height b) (Part000.slots b).
Proof.
  induction 1 as [| x y b Hr IH].
  { apply unrevealed_revealClosed. intros q s. simpl. by rewrite lookup_empty. }
  destruct (isVaildPosition (Part000.width b) (Part000.height b) x y) eqn:Hv.
  2:{ by rewrite Part000_click_invalid. }
  assert (∃ b1, Part000.click x y b = Part000.click x y b1 ∧
                Part000.fieldInited b1 = true ∧
                revealClosed (Part000.width b1) (Part000.height b1) (Part000.slots b1))
    as (b1 & -> & Hi1 & Hcl1).
  { destruct (Part000_reachable_wellCounted b Hr) as [(Hi & He & _)|[Hi _]];
      [|by exists b].
    destruct (Part000_initField_fresh x y b Hi He)
      as (slots' & total & Heq & (_ & Hfit & _) & Hc).
    eexists. split; [by eapply Part000_click_after_init|]. split; [done|].
    apply unrevealed_revealClosed. intros [x' y'] s Hs. simpl in *.
    destruct (Hc x' y') as (s' & Hs' & ? & _); [apply Hfit; eauto|]. congruence. }
  destruct (Part000_click_keeps x y b1 Hi1) as (Hw & Hh & _).
  rewrite Hw, Hh. by apply Part000_click_closed.
Qed.

(** ** Clicking a revealed cell again (C9) *)

Lemma set_reveal_revealed s : reveal s = true → set_reveal true s = s.
Proof. destruct s. simpl. by intros ->. Qed.

Lemma revealAll_revealed slots count p s :
  slots !! p = Some s → reveal s = true →
  revealAll [p] (slots, count)
  = ((slots, count + 1),
     Ret [{| position := p; ev_nearbyMine := nearbyMine s |}]).
Proof.
  intros Hs Hr. cbn [revealAll fst snd]. rewrite Hs.
  by rewrite set_reveal_revealed, insert_id.
Qed.

(** C9. While the state is [playing], a click on an in-bounds cell that is
    already revealed and has no mine returns a reveal list holding that
    cell again, and only it, and adds one to [revealCount] for it; the
    cells do not change, and the state is [win] when the new count meets
    the win test. This holds for every board a caller can hold, in both
    revisions. Hence [revealCount] can exceed the number of revealed cells:
    after two clicks on [(0, 0)] of the 2 x 2 layout it is 2 while one cell
    is revealed. *)
Theorem click_revealed_cell_counts_again :
  (∀ rnd b x y s,
     Main_reachable b → Main.state b = playing →
     0 ≤ x < Main.width b → 0 ≤ y < Main.height b →
     Main.slots b !! (x, y) = Some s → hasMine s = false → reveal s = true →
     let b1 := Main.set_revealCount (Main.revealCount b + 1) b in
     let b2 := if bool_decide (Main.revealCount b1
                               = Main.width b1 * Main.height b1 - Main.mineCount b1)
               then Main.set_state win b1 else b1 in
     Main.click rnd x y b
     = (b2, Ret (Main.state b2,
                 [{| position := (x, y); ev_nearbyMine := nearbyMine s |}]))) ∧
  (∀ b x y s,
     Part000_reachable b → Part000.state b = playing →
     0 ≤ x < Part000.width b → 0 ≤ y < Part000.height b →
     Part000.slots b !! (x, y) = Some s → hasMine s = false → reveal s = true →
     let b1 := Part000.set_revealCount (Part000.revealCount b + 1) b in
     let b2 := if bool_decide (Part000.revealCount b1 = Part000.totalSpaceCount b1)
               then Part000.set_state win b1 else b1 in
     Part000.click x y b
     = (b2, Ret (Part000.state b2,
                 [{| position := (x, y); ev_nearbyMine := nearbyMine s |}]))) ∧
  (let b := (Main.click (λ _, 0%nat) 0 0
               (Main.click (λ _, 0%nat) 0 0 board_2x2).1).1 in
   Main_reachable b ∧ Main.state b = playing ∧
   Main.revealCount b = 2 ∧ revealedCells (Main.slots b) = 1).
Proof.
  split_and!.
  - intros rnd b x y s Hr Hst Hx Hy Hs Hm Hrev.
    assert (isVaildPosition (Main.width b) (Main.height b) x y = true) as Hv
      by by apply isVaildPosition_true.
    destruct (Main_reachable_closed b Hr) as [Hcl [Hi|He]].
    2:{ by rewrite He, lookup_empty in Hs. }
    pose proof (touchingNoMine_revealed _ _ _ x y s Hs Hm (Hcl _ _ Hs Hrev)) as Ht.
    unfold Main.click, Main.initField. rewrite Hv, Hi. simpl.
    rewrite Hs, Hm, Hst. simpl. rewrite Ht.
    rewrite (revealAll_revealed _ _ _ s) by done. simpl. by destruct b.
  - intros b x y s Hr Hst Hx Hy Hs Hm Hrev.
    assert (isVaildPosition (Part000.width b) (Part000.height b) x y = true) as Hv
      by by apply isVaildPosition_true.
    destruct (Part000_reachable_wellCounted b Hr) as [(_ & He & _)|[Hi _]].
    { by rewrite He, lookup_empty in Hs. }
    pose proof (Part000_reachable_closed b Hr) as Hcl.
    pose proof (touchingNoMine_revealed _ _ _ x y s Hs Hm (Hcl _ _ Hs Hrev)) as Ht.
    unfold Part000.click, Part000.initField. rewrite Hv, Hi. simpl.
    rewrite Hs, Hm, Hst. simpl. rewrite Ht.
    rewrite (revealAll_revealed _ _ _ s) by done. simpl. by destruct b.
  - split; [|by vm_compute].
    do 2 apply Main_reach_click. apply Main_reachable_board_2x2.
Qed.

Lemma click_revealed_cell_counts_again_witness :
  let b := (Main.click (λ _, 0%nat) 0 0 board_2x2).1 in
  Main.click (λ _, 0%nat) 0 0 b
  = (Main.set_revealCount 2 b,
     Ret (playing, [{| position := (0, 0); ev_nearbyMine := 1 |}])).
Proof.
  intros b.
  apply (proj1 click_revealed_cell_counts_again (λ _, 0%nat) b 0 0
           (mkMineSlot false 1 true)).
  - apply Main_reach_click, Main_reachable_board_2x2.
  - vm_compute. reflexivity.
  - vm_compute. split; [discriminate|reflexivity].
  - vm_compute. split; [discriminate|reflexivity].
  - vm_compute. reflexivity.
  - reflexivity.
  - reflexivity.
Defined.

(** ** main.ts: mine placement on a square board *)

Lemma NoDup_range n : NoDup (range n).
Proof. unfold range. apply NoDup_fmap_2; [apply _|apply NoDup_seq]. Qed.

Lemma NoDup_gridPositions width height : NoDup (gridPositions width height).
Proof.
  unfold gridPositions. apply NoDup_bind; [| |apply NoDup_range].
  - intros i1 i2 p _ _ (j1 & Hp1 & _)%list_elem_of_fmap
           (j2 & Hp2 & _)%list_elem_of_fmap.
    congruence.
  - intros i _. apply NoDup_fmap_2; [|apply NoDup_range]. by intros j1 j2 [= ->].
Qed.

(** The list handed to [placeMines] on a square board: the grid, each
    position once, the clicked one last. *)
Lemma square_placed rnd n x y :
  isVaildPosition n n x y = true →
  let positions :=
    Main.shuffle rnd (length (Main.candidatePositions n n (x, y)) - 1)
      (Main.candidatePositions n n (x, y)) ++ [(x, y)] in
  positions ≡ₚ gridPositions n n.
Proof.
  intros Hv positions. subst positions.
  assert (0 < n) as Hn by (apply isVaildPosition_true in Hv; lia).
  destruct (square_positions n Hn) as [Hnd Hin].
  rewrite shuffle_Permutation. unfold Main.candidatePositions.
  apply NoDup_Permutation; [| apply NoDup_gridPositions |].
  - apply NoDup_app. split_and!; [by apply NoDup_filter| |apply NoDup_singleton].
    intros p [Hne _]%list_elem_of_filter ->%list_elem_of_singleton. done.
  - intros [x' y']. rewrite elem_of_app, list_elem_of_filter, list_elem_of_singleton.
    rewrite Hin, elem_of_gridPositions. split; [intros [[_ ?]|[= -> ->]]; done|].
    intros Hv'. destruct (decide ((x', y') = (x, y))); auto.
Qed.

(** The number of indices from [i] on that are below the mine count. *)
Lemma placeMines_count mineCount i positions slots :
  NoDup positions →
  length (filter
            (λ p, hasMineAt (Main.placeMines mineCount i positions slots) p = true)
            positions)
  = length (filter (λ k, (Z.of_nat k <? mineCount) = true) (seq i (length positions))).
Proof.
  intros Hnd. revert i slots.
  induction Hnd as [|q positions Hnin Hnd IH]; intros i slots; [done|].
  cbn [Main.placeMines length seq]. rewrite !filter_cons.
  assert (hasMineAt
            (Main.placeMines mineCount (S i) positions
               (<[q:=newMineSlot (Z.of_nat i <? mineCount)]> slots)) q
          = (Z.of_nat i <? mineCount)) as Hq.
  { unfold hasMineAt. rewrite placeMines_lookup_notin by done.
    by rewrite lookup_insert_eq. }
  specialize (IH (S i) (<[q:=newMineSlot (Z.of_nat i <? mineCount)]> slots)).
  rewrite Hq. destruct (Z.of_nat i <? mineCount).
  - rewrite !decide_True by done. simpl. by rewrite IH.
  - by rewrite !decide_False by done.
Qed.

Lemma count_below mineCount len :
  length (filter (λ k, (Z.of_nat k <? mineCount) = true) (seq 0 len))
  = Nat.min len (Z.to_nat mineCount).
Proof.
  induction len as [|len IH]; [done|].
  rewrite seq_S, filter_app, length_app, IH. cbn [Nat.add].
  rewrite filter_cons, filter_nil.
  destruct (Z.ltb_spec (Z.of_nat len) mineCount).
  - rewrite decide_True by done. cbn [length]. lia.
  - rewrite decide_False by done. cbn [length]. lia.
Qed.

Lemma Main_click_after_init rnd x y b b1 :
  Main.initField rnd x y b = (b1, Ret tt) →
  isVaildPosition (Main.width b) (Main.height b) x y = true →
  Main.click rnd x y b = Main.click rnd x y b1.
Proof.
  intros Heq Hv.
  destruct (Main_click_via_initField rnd x y b Hv) as [H|H];
    rewrite Heq in H; [|done].
  pose proof (Main_initField_fieldInited rnd x y b) as Hi.
  destruct (Main_initField_dims rnd x y b) as [Hw Hh]. rewrite Heq in Hi, Hw, Hh.
  simpl in *. unfold Main.click. rewrite Hw, Hh, Hv, Heq. simpl.
  unfold Main.initField. by rewrite Hi.
Qed.

(** Where C4 holds: on a square board with [0 ≤ mineCount < n * n], for
    every outcome of the shuffle, the first in-bounds click returns, not
    with [dead]; the cells are exactly those of the grid, exactly
    [mineCount] of them hold a mine, the clicked one does not, and the
    counts are those of the in-bounds neighbours. *)
Lemma mine_placement_square rnd n mineCount x y :
  0 ≤ mineCount < n * n →
  isVaildPosition n n x y = true →
  let r := Main.click rnd x y (Main.mkMineBoard ∅ mineCount playing 0 n n false) in
  wellCounted n n (Main.slots r.1) ∧
  gridMines n n (Main.slots r.1) = mineCount ∧
  hasMineAt (Main.slots r.1) (x, y) = false ∧
  ∃ st evs, r.2 = Ret (st, evs) ∧ st ≠ dead.
Proof.
  intros Hmc Hv. set (b := Main.mkMineBoard ∅ mineCount playing 0 n n false).
  pose proof (square_placed rnd n x y Hv) as Hperm. cbn zeta in Hperm.
  set (positions := Main.shuffle rnd _ _ ++ [(x, y)]) in Hperm.
  set (slots1 := Main.placeMines mineCount 0 positions ∅).
  assert (∀ p, is_Some (slots1 !! p) ↔ p ∈ gridPositions n n) as Hdom.
  { intros p. unfold slots1. rewrite placeMines_is_Some, Hperm, lookup_empty.
    split; [intros [?|[? ?]]; done|by left]. }
  destruct (initNearbyMine_wellCounted n n slots1) as (slots' & Heq & Hwc & Hf).
  { intros x' y' Hv'. by apply Hdom, elem_of_gridPositions. }
  { intros x' y' Hs. by apply elem_of_gridPositions, Hdom. }
  assert (∀ p, hasMineAt slots' p = hasMineAt slots1 p) as Hm.
  { intros p. destruct (Hf p) as [Hp _]. unfold hasMineAt.
    destruct (slots' !! p), (slots1 !! p); by simplify_eq/=. }
  set (b1 := Main.set_slots slots'
               (Main.set_slots slots1 (Main.set_fieldInited true b))).
  assert (Main.initField rnd x y b = (b1, Ret tt)) as Hinit.
  { unfold Main.initField, b1, b.
    cbn [Main.fieldInited Main.width Main.height Main.mineCount Main.slots
         Main.set_slots Main.set_fieldInited].
    cbn zeta. fold positions. fold slots1. by rewrite Heq. }
  assert (hasMineAt slots' (x, y) = false) as Hclick.
  { rewrite Hm. unfold hasMineAt, slots1, positions.
    rewrite placeMines_last. simpl. apply Z.ltb_ge.
    apply Permutation_length in Hperm. unfold positions in Hperm.
    rewrite length_app, length_gridPositions in Hperm. simpl in Hperm.
    apply isVaildPosition_true in Hv. nia. }
  assert (gridMines n n slots' = mineCount) as Hcount.
  { unfold gridMines. rewrite <- Hperm.
    rewrite (list_filter_iff _ (λ p, hasMineAt slots1 p = true))
      by (intros p; by rewrite Hm).
    unfold slots1. rewrite placeMines_count, count_below.
    2:{ rewrite Hperm. apply NoDup_gridPositions. }
    rewrite Hperm, length_gridPositions.
    apply isVaildPosition_true in Hv. nia. }
  cbn zeta. rewrite (Main_click_after_init rnd x y b b1) by done.
  destruct (Main_click_keeps rnd x y b1 eq_refl) as (_ & _ & _ & _ & Hk).
  assert (∃ s, slots' !! (x, y) = Some s ∧ hasMine s = false) as (s & Hs & Hsm).
  { destruct Hwc as (Hcov & _). destruct (Hcov x y Hv) as [s Hs]. exists s.
    split; [done|]. unfold hasMineAt in Hclick. by rewrite Hs in Hclick. }
  destruct (Main_click_safe rnd x y b1 s) as (ps & slots2 & evs & _ & _ & _ & _ & Hcl);
    [done..|by destruct Hwc|].
  split_and!.
  - by apply (wellCounted_sameCells n n slots').
  - unfold gridMines in *. rewrite <- Hcount. do 2 f_equal.
    apply list_filter_iff. intros p. by rewrite (sameCells_hasMineAt slots').
  - by rewrite (sameCells_hasMineAt slots').
  - rewrite Hcl. cbn zeta. eexists _, evs. split; [done|].
    case_bool_decide; simpl; done.
Qed.

(** ** The flood fill of a click (C8) *)

(** The reveals a click returns never repeat a position. *)
Lemma Main_click_reveals_NoDup rnd x y b b' st evs :
  Main.click rnd x y b = (b', Ret (st, evs)) → NoDup (position <$> evs).
Proof.
  intros Hc. unfold Main.click in Hc.
  destruct (isVaildPosition (Main.width b) (Main.height b) x y) eqn:Hv;
    simpl in Hc; [|done].
  destruct (Main_initField_dims rnd x y b) as [Hw Hh].
  destruct (Main.initField rnd x y b) as [b1 [[]| |]]; simpl in *; [|done..].
  destruct (Main.slots b1 !! (x, y)) as [slot|] eqn:Hs; [|done].
  destruct (hasMine slot) eqn:Hm.
  { simpl in Hc. injection Hc as _ _ <-. constructor. }
  destruct (bool_decide (Main.state b1 = playing)); simpl in Hc.
  2:{ injection Hc as _ _ <-. constructor. }
  rewrite <- Hw, <- Hh in Hv.
  pose proof (touchingNoMine_spec _ _ _ _ _ _ Hv Hs Hm) as Hsp.
  destruct (touchingNoMine _ _ _ x y) as [ps| |]; [|done..].
  destruct Hsp as [[Hnd _ Hsl _] _]. rewrite app_nil_l in *.
  destruct (revealAll_spec ps (Main.slots b1) (Main.revealCount b1) Hsl)
    as (slots' & evs' & Hr & Hpos & _).
  rewrite Hr in Hc. injection Hc as _ _ <-. by rewrite Hpos.
Qed.

Lemma Part000_click_reveals_NoDup x y b b' st evs :
  Part000.click x y b = (b', Ret (st, evs)) → NoDup (position <$> evs).
Proof.
  intros Hc. unfold Part000.click in Hc.
  destruct (isVaildPosition (Part000.width b) (Part000.height b) x y) eqn:Hv;
    simpl in Hc; [|done].
  assert (Part000.width (Part000.initField x y b).1 = Part000.width b ∧
          Part000.height (Part000.initField x y b).1 = Part000.height b) as [Hw Hh].
  { unfold Part000.initField. destruct (Part000.fieldInited b); [done|].
    cbn zeta. by destruct (initNearbyMine _ _ _). }
  destruct (Part000.initField x y b) as [b1 [[]| |]]; simpl in *; [|done..].
  destruct (Part000.slots b1 !! (x, y)) as [slot|] eqn:Hs; [|done].
  destruct (hasMine slot) eqn:Hm.
  { simpl in Hc. injection Hc as _ _ <-. constructor. }
  destruct (bool_decide (Part000.state b1 = playing)); simpl in Hc.
  2:{ injection Hc as _ _ <-. constructor. }
  rewrite <- Hw, <- Hh in Hv.
  pose proof (touchingNoMine_spec _ _ _ _ _ _ Hv Hs Hm) as Hsp.
  destruct (touchingNoMine _ _ _ x y) as [ps| |]; [|done..].
  destruct Hsp as [[Hnd _ Hsl _] _]. rewrite app_nil_l in *.
  destruct (revealAll_spec ps (Part000.slots b1) (Part000.revealCount b1) Hsl)
    as (slots' & evs' & Hr & Hpos & _).
  rewrite Hr in Hc. injection Hc as _ _ <-. by rewrite Hpos.
Qed.

(** C8. A flood fill started by a click on an in-bounds cell without a
    mine never runs out of iterations: it returns a list, or throws the
    [TypeError] of a missing slot, and the latter only when some in-bounds
    position holds no slot. The returned list has no repetition, and every
    entry other than the clicked cell is a neighbour of an entry whose count
    is not positive. A cell with a positive count is appended to the result
    and the frontier after its iteration is the rest of the stack. The
    reveal list a click returns, in either revision, repeats no position. *)
Theorem touchingNoMine_terminates_once :
  (∀ width height slots ox oy s,
     isVaildPosition width height ox oy = true →
     slots !! (ox, oy) = Some s → hasMine s = false →
     match touchingNoMine width height slots ox oy with
     | Ret result =>
         NoDup result ∧ (ox, oy) ∈ result ∧
         ∀ p, p ∈ result →
           p = (ox, oy) ∨
           ∃ q sq d, q ∈ result ∧ slots !! q = Some sq ∧ ¬ (nearbyMine sq > 0)
                     ∧ d ∈ deltaMap ∧ p = (d.1 + q.1, d.2 + q.2)
     | Throw e => e = TypeError ∧ ¬ coversGrid width height slots
     | Diverge => False
     end ∧
     (coversGrid width height slots →
      ∃ result, touchingNoMine width height slots ox oy = Ret result)) ∧
  (∀ width height slots fuel current sc stack result,
     slots !! current = Some sc → nearbyMine sc > 0 →
     floodLoop width height slots (S fuel) (current :: stack) result
     = floodLoop width height slots fuel stack (result ++ [current])) ∧
  (∀ rnd x y b b' st evs,
     Main.click rnd x y b = (b', Ret (st, evs)) → NoDup (position <$> evs)) ∧
  (∀ x y b b' st evs,
     Part000.click x y b = (b', Ret (st, evs)) → NoDup (position <$> evs)).
Proof.
  split_and!.
  - intros width height slots ox oy s Hv Hs Hm.
    pose proof (touchingNoMine_spec width height slots ox oy s Hv Hs Hm) as H.
    split.
    + destruct (touchingNoMine width height slots ox oy) as [r| |]; simpl in H;
        [|done..].
      destruct H as [[Hnd _ _ Hfrom] Hpre]. rewrite app_nil_l in *.
      split_and!; [done| |done].
      destruct Hpre as [k ->]. left.
    + intros Hcov.
      destruct (touchingNoMine width height slots ox oy) as [r| |]; simpl in H.
      * by exists r.
      * by destruct H.
      * done.
  - intros. by eapply floodLoop_numbered.
  - intros. by eapply Main_click_reveals_NoDup.
  - intros. by eapply Part000_click_reveals_NoDup.
Qed.

Lemma touchingNoMine_terminates_once_witness :
  let slots : gmap Position MineSlot :=
    {[ (0, 0) := mkMineSlot false 0 false; (0, 1) := mkMineSlot false 1 false;
       (1, 0) := mkMineSlot false 1 false; (1, 1) := mkMineSlot false 1 false ]} in
  ∃ result, touchingNoMine 2 2 slots 0 0 = Ret result.
Proof.
  intros slots.
  refine (proj2 (proj1 touchingNoMine_terminates_once 2 2 slots 0 0
                   (mkMineSlot false 0 false) _ _ _) _);
    [reflexivity..|].
  apply coversGrid_check. vm_compute. reflexivity.
Defined.

(** * Further properties of the code *)

(** ** Mine placement *)

(** X1. The Fisher-Yates loop of [initField] returns a permutation of the
    list it is given, whatever [Math.random] draws: no candidate is lost
    and none is placed twice. *)
Theorem shuffle_permutes rnd i positions :
  Main.shuffle rnd i positions ≡ₚ positions ∧
  length (Main.shuffle rnd i positions) = length positions.
Proof. split; [apply shuffle_Permutation|apply shuffle_length]. Qed.

(** X2. main.ts, mine count on a square board: for [0 ≤ mineCount < n * n]
    and every outcome of the shuffle, the first in-bounds click returns, not
    with [dead]; afterwards the cells are exactly those of the grid, exactly
    [mineCount] of them hold a mine, the clicked one does not, and every
    stored count is the number of in-bounds neighbours with a mine. *)
Theorem square_board_first_click rnd n mineCount x y :
  0 ≤ mineCount < n * n →
  0 ≤ x < n → 0 ≤ y < n →
  ∃ b,
    Main.constructor n n (inl mineCount) = Ret b ∧
    let r := Main.click rnd x y b in
    (∃ st evs, r.2 = Ret (st, evs) ∧ st ≠ dead) ∧
    Main.fieldInited r.1 = true ∧
    wellCounted n n (Main.slots r.1) ∧
    gridMines n n (Main.slots r.1) = mineCount ∧
    hasMineAt (Main.slots r.1) (x, y) = false.
Proof.
  intros Hmc Hx Hy.
  assert (isVaildPosition n n x y = true) as Hv by by apply isVaildPosition_true.
  exists (Main.mkMineBoard ∅ mineCount playing 0 n n false). split.
  { unfold Main.constructor. destruct (Z.geb_spec mineCount (n * n)); [lia|done]. }
  destruct (mine_placement_square rnd n mineCount x y Hmc Hv)
    as (Hwc & Hcount & Hclick & Hret).
  cbn zeta. split_and!; try done.
  destruct (Main_click_inited rnd x y
              (Main.mkMineBoard ∅ mineCount playing 0 n n false)) as [Heq|Hi];
    [|done].
  rewrite Heq in Hwc. destruct Hwc as (Hcov & _). simpl in Hcov.
  destruct (Hcov x y Hv) as [s Hs]. by rewrite lookup_empty in Hs.
Qed.

Lemma square_board_first_click_witness :
  ∃ b, Main.constructor 3 3 (inl 4) = Ret b ∧
       gridMines 3 3 (Main.slots (Main.click (λ k, k) 1 2 b).1) = 4.
Proof.
  destruct (square_board_first_click (λ k, k) 3 4 1 2) as (b & Hc & _ & _ & _ & Hm & _);
    [lia..|].
  exists b. split; [exact Hc|exact Hm].
Defined.

Lemma filter_ext_in {A} (P Q : A → Prop) `{!∀ a, Decision (P a)}
    `{!∀ a, Decision (Q a)} (l : list A) :
  (∀ a, a ∈ l → P a ↔ Q a) → filter P l = filter Q l.
Proof.
  induction l as [|a l IH]; intros Hl; [done|].
  rewrite !filter_cons, IH by (intros; apply Hl; by right).
  assert (P a ↔ Q a) as Ha by (apply Hl; left).
  destruct (decide (P a)), (decide (Q a)); tauto.
Qed.

Lemma fold_fieldCell_count randomer clickPosition ps st :
  (fold_left (λ st p, Part000.fieldCell randomer clickPosition p.1 p.2 st) ps st).2
  = st.2 + Z.of_nat (length (filter
             (λ p, drawnMine randomer clickPosition p = false) ps)).
Proof.
  revert st. induction ps as [|[i j] ps IH]; intros st; [simpl; lia|].
  cbn [fold_left]. rewrite IH, filter_cons. unfold Part000.fieldCell at 1.
  cbn [fst snd].
  change (if bool_decide ((i, j) = clickPosition) then false else randomer i j)
    with (drawnMine randomer clickPosition (i, j)).
  destruct (drawnMine randomer clickPosition (i, j)); simpl; lia.
Qed.

(** The board [initField] of part_000 leaves of a fresh board. *)
Lemma Part000_first_init x y b :
  Part000.fieldInited b = false → Part000.slots b = ∅ →
  Part000.totalSpaceCount b = 0 →
  isVaildPosition (Part000.width b) (Part000.height b) x y = true →
  ∃ b1,
    Part000.click x y b = Part000.click x y b1 ∧
    Part000.fieldInited b1 = true ∧
    Part000.state b1 = Part000.state b ∧
    Part000.revealCount b1 = Part000.revealCount b ∧
    Part000.width b1 = Part000.width b ∧ Part000.height b1 = Part000.height b ∧
    wellCounted (Part000.width b) (Part000.height b) (Part000.slots b1) ∧
    unrevealed (Part000.slots b1) ∧
    (∀ x' y', isVaildPosition (Part000.width b) (Part000.height b) x' y' = true →
       hasMineAt (Part000.slots b1) (x', y')
       = drawnMine (Part000.randomer b) (x, y) (x', y')) ∧
    Part000.totalSpaceCount b1
    = gridSafe (Part000.width b) (Part000.height b) (Part000.slots b1).
Proof.
  intros Hi He Ht Hv.
  destruct (Part000_initField_fresh x y b Hi He)
    as (slots' & total & Heq & Hwc & Hc).
  assert (total = (Part000.fieldCells (Part000.randomer b) (x, y)
                     (Part000.width b) (Part000.height b) (∅, 0)).2) as Htot.
  { unfold Part000.initField in Heq. rewrite Hi in Heq. cbn zeta in Heq.
    cbn [Part000.slots Part000.totalSpaceCount Part000.randomer Part000.width
         Part000.height Part000.set_fieldInited Part000.set_slots
         Part000.set_totalSpaceCount] in Heq.
    rewrite He, Ht in Heq.
    destruct (initNearbyMine _ _ _) as [s' r'] in Heq. by injection Heq as _ <- _. }
  eexists. split; [by eapply Part000_click_after_init|].
  assert (∀ x' y',
    isVaildPosition (Part000.width b) (Part000.height b) x' y' = true →
    hasMineAt slots' (x', y') = drawnMine (Part000.randomer b) (x, y) (x', y'))
    as Hm.
  { intros x' y' Hv'. destruct (Hc x' y' Hv') as (s & Hs & _ & Hms).
    unfold hasMineAt. by rewrite Hs. }
  simpl. split_and!; try done.
  - intros [x' y'] s Hs. destruct Hwc as (_ & Hfit & _).
    destruct (Hc x' y') as (s' & Hs' & Hr & _); [apply Hfit; eauto|]. congruence.
  - rewrite Htot. unfold Part000.fieldCells, gridSafe.
    rewrite (fold_left_grid _ _
               (λ i j st, Part000.fieldCell (Part000.randomer b) (x, y) i j st)).
    rewrite fold_fieldCell_count. cbn [snd]. rewrite Z.add_0_l. do 2 f_equal.
    apply filter_ext_in. intros [x' y'] Hp.
    apply elem_of_gridPositions in Hp. by rewrite Hm.
Qed.

(** X3. part_000: the first in-bounds click on a new board returns, not
    with [dead]. Afterwards the cells are exactly those of the grid; a cell
    other than the clicked one has a mine exactly when the predicate says
    so, the clicked one has none; every stored count is the number of
    in-bounds neighbours with a mine; and [totalSpaceCount] is the number of
    mine-free grid cells. *)
Theorem predicate_board_first_click coin width height randomer x y :
  0 ≤ x < width → 0 ≤ y < height →
  let b := Part000.constructor coin width height randomer in
  let r := Part000.click x y b in
  (∃ st evs, r.2 = Ret (st, evs) ∧ st ≠ dead) ∧
  Part000.fieldInited r.1 = true ∧
  wellCounted width height (Part000.slots r.1) ∧
  (∀ x' y', isVaildPosition width height x' y' = true →
     hasMineAt (Part000.slots r.1) (x', y')
     = if bool_decide ((x', y') = (x, y)) then false
       else default coin randomer x' y') ∧
  Part000.totalSpaceCount r.1 = gridSafe width height (Part000.slots r.1).
Proof.
  intros Hx Hy b r.
  assert (isVaildPosition (Part000.width b) (Part000.height b) x y = true) as Hv
    by by apply isVaildPosition_true.
  destruct (Part000_first_init x y b) as
    (b1 & Hcl & Hi & Hst & Hrc & Hw & Hh & Hwc & Hun & Hm & Htot); [done..|].
  subst r. rewrite Hcl. simpl in *.
  destruct (Part000_click_keeps x y b1 Hi) as (_ & _ & Hi' & Ht' & Hk).
  assert (∃ s, Part000.slots b1 !! (x, y) = Some s ∧ hasMine s = false)
    as (s & Hs & Hsm).
  { destruct Hwc as (Hcov & _). destruct (Hcov x y Hv) as [s Hs]. exists s.
    split; [done|]. specialize (Hm x y Hv). unfold hasMineAt, drawnMine in Hm.
    rewrite Hs, bool_decide_eq_true_2 in Hm; done. }
  destruct (Part000_click_safe x y b1 s) as (ps & slots2 & evs & _ & _ & _ & _ & Hc);
    [done|done|by rewrite Hw, Hh|done|done|rewrite Hw, Hh; by destruct Hwc|].
  split_and!.
  - rewrite Hc. cbn zeta. eexists _, evs. split; [done|].
    case_bool_decide; simpl; [done|]. by rewrite Hst.
  - done.
  - by apply (wellCounted_sameCells width height (Part000.slots b1)).
  - intros x' y' Hv'. rewrite (sameCells_hasMineAt (Part000.slots b1)) by done.
    by rewrite Hm.
  - rewrite Ht', Htot. unfold gridSafe. do 2 f_equal.
    apply list_filter_iff. intros p.
    by rewrite (sameCells_hasMineAt (Part000.slots b1) _ p Hk).
Qed.

Lemma predicate_board_first_click_witness :
  let r := Part000.click 2 3 board_all_mines in
  Part000.totalSpaceCount r.1 = gridSafe 5 5 (Part000.slots r.1).
Proof.
  refine (proj2 (proj2 (proj2 (proj2
    (predicate_board_first_click (λ _ _, false) 5 5 (Some (λ _ _, true)) 2 3 _ _)))));
    lia.
Defined.

(** X4. main.ts, string layout: the constructor never throws. The board it
    returns is in play with a zero counter; its cells are exactly those of
    the [width] x [height] grid it read, none revealed; the cell at
    [(x, y)] has a mine exactly when token [x] of row [y] is ["x"]; and
    every stored count is the number of in-bounds neighbours with a mine. *)
Theorem layout_board_cells width height layout :
  ∃ b,
    Main.constructor width height (inr layout) = Ret b ∧
    Main.state b = playing ∧ Main.revealCount b = 0 ∧
    wellCounted (Main.width b) (Main.height b) (Main.slots b) ∧
    unrevealed (Main.slots b) ∧
    ∀ x y, isVaildPosition (Main.width b) (Main.height b) x y = true →
      hasMineAt (Main.slots b) (x, y)
      = Main.isX (Main.parseRows layout) (Z.to_nat x) (Z.to_nat y).
Proof.
  destruct (Main_constructor_layout width height layout)
    as (slots & Hc & Hwc & Hl).
  cbn zeta in Hc. eexists. split; [exact Hc|]. simpl. split_and!; try done.
  - intros [x y] s Hs. destruct Hwc as (_ & Hfit & _).
    destruct (Hl x y) as (s' & Hs' & Hr & _); [apply Hfit; eauto|]. congruence.
  - intros x y Hv. destruct (Hl x y Hv) as (s & Hs & _ & Hm).
    unfold hasMineAt. by rewrite Hs.
Qed.

Lemma layout_board_cells_witness :
  ∃ b, Main.constructor 5 5 (inr layout_2x2) = Ret b ∧
       hasMineAt (Main.slots b) (1, 0) = true ∧
       hasMineAt (Main.slots b) (0, 1) = false.
Proof.
  destruct (layout_board_cells 5 5 layout_2x2) as (b & Hc & _ & _ & _ & _ & Hm).
  exists b. split; [exact Hc|].
  assert (Ret b = Ret board_2x2) as [= ->] by (rewrite <- Hc; reflexivity).
  split; rewrite Hm; reflexivity.
Defined.

(** ** How a click can end *)

Lemma forEach_setNearbyMine_outcome ps slots slots' o :
  forEach ps (λ p, setNearbyMine p.1 p.2) slots = (slots', o) →
  match o with
  | Ret _ => True
  | Throw e => e = TypeError ∧ ∃ p, p ∈ ps ∧ slots' !! p = None
  | Diverge => False
  end.
Proof.
  revert slots. induction ps as [|[i j] ps IH]; intros slots; cbn [forEach fst snd].
  { by intros [= <- <-]. }
  unfold setNearbyMine at 1.
  destruct (slots !! (i, j)) as [s|] eqn:Hs.
  - intros H. apply IH in H. destruct o as [[]|e|]; [done| |done].
    destruct H as (-> & p & Hp & Hn). split; [done|]. exists p. split; [by right|done].
  - intros [= <- <-]. split; [done|]. exists (i, j). split; [left|done].
Qed.

Lemma initNearbyMine_outcome width height slots :
  match (initNearbyMine width height slots).2 with
  | Ret _ => True
  | Throw e =>
      e = TypeError ∧
      ¬ coversGrid width height (initNearbyMine width height slots).1
  | Diverge => False
  end.
Proof.
  unfold initNearbyMine. rewrite forEach_grid.
  destruct (forEach (gridPositions width height) _ slots) as [s' o] eqn:He.
  apply forEach_setNearbyMine_outcome in He.
  destruct o as [[]|e|]; simpl in *; [done| |done].
  destruct He as (-> & [x y] & Hp & Hn). split; [done|]. intros Hcov.
  apply elem_of_gridPositions in Hp. destruct (Hcov x y Hp) as [? ?]. congruence.
Qed.

Lemma Main_initField_outcome rnd x y b :
  match (Main.initField rnd x y b).2 with
  | Ret _ => True
  | Throw e =>
      e = TypeError ∧
      ¬ coversGrid (Main.width b) (Main.height b)
          (Main.slots (Main.initField rnd x y b).1)
  | Diverge => False
  end.
Proof.
  unfold Main.initField. destruct (Main.fieldInited b); [done|]. cbn zeta.
  cbn [Main.width Main.height Main.mineCount Main.slots Main.set_slots
       Main.set_fieldInited].
  set (placed := Main.placeMines _ _ _ _).
  pose proof (initNearbyMine_outcome (Main.width b) (Main.height b) placed) as H.
  by destruct (initNearbyMine _ _ placed) as [s' [[]| |]].
Qed.

Lemma Part000_initField_dims x y b :
  Part000.width (Part000.initField x y b).1 = Part000.width b ∧
  Part000.height (Part000.initField x y b).1 = Part000.height b.
Proof.
  unfold Part000.initField. destruct (Part000.fieldInited b); [done|].
  cbn zeta. by destruct (initNearbyMine _ _ _).
Qed.

Lemma Part000_initField_outcome x y b :
  match (Part000.initField x y b).2 with
  | Ret _ => True
  | Throw e =>
      e = TypeError ∧
      ¬ coversGrid (Part000.width b) (Part000.height b)
          (Part000.slots (Part000.initField x y b).1)
  | Diverge => False
  end.
Proof.
  unfold Part000.initField. destruct (Part000.fieldInited b); [done|]. cbn zeta.
  cbn [Part000.width Part000.height Part000.slots Part000.set_slots
       Part000.set_fieldInited Part000.set_totalSpaceCount].
  set (placed := (Part000.fieldCells _ _ _ _ _).1).
  pose proof (initNearbyMine_outcome (Part000.width b) (Part000.height b) placed) as H.
  by destruct (initNearbyMine _ _ placed) as [s' [[]| |]].
Qed.

(** The ways a click of main.ts ends. *)
Lemma Main_click_outcome rnd x y b :
  let r := Main.click rnd x y b in
  match r.2 with
  | Ret (st, evs) =>
      isVaildPosition (Main.width b) (Main.height b) x y = true ∧
      st = Main.state r.1
  | Throw e =>
      (e = BoardTooSmall ∧
       isVaildPosition (Main.width b) (Main.height b) x y = false ∧ r.1 = b) ∨
      (e = TypeError ∧
       isVaildPosition (Main.width b) (Main.height b) x y = true ∧
       ¬ coversGrid (Main.width b) (Main.height b) (Main.slots r.1))
  | Diverge => False
  end.
Proof.
  cbn zeta. unfold Main.click.
  destruct (isVaildPosition (Main.width b) (Main.height b) x y) eqn:Hv;
    cbn [negb]; [|by left].
  pose proof (Main_initField_outcome rnd x y b) as Ho.
  destruct (Main_initField_dims rnd x y b) as [Hw Hh].
  destruct (Main.initField rnd x y b) as [b1 [[]| |]]; simpl in *;
    [|right; by destruct Ho|done].
  rewrite <- Hw, <- Hh in *.
  destruct (Main.slots b1 !! (x, y)) as [slot|] eqn:Hs.
  2:{ right. split_and!; [done..|]. intros Hcov. simpl in Hcov.
      destruct (Hcov x y Hv) as [? ?]. congruence. }
  destruct (hasMine slot) eqn:Hm; simpl; [done|].
  case_bool_decide; simpl; [|done].
  pose proof (touchingNoMine_spec _ _ _ _ _ _ Hv Hs Hm) as Hsp.
  destruct (touchingNoMine _ _ _ x y) as [ps| |]; simpl in *;
    [|right; by destruct Hsp|done].
  destruct Hsp as [[_ _ Hsl _] _]. rewrite app_nil_l in Hsl.
  destruct (revealAll_spec ps (Main.slots b1) (Main.revealCount b1) Hsl)
    as (slots' & evs & -> & _).
  simpl. by case_bool_decide.
Qed.

Lemma Part000_click_outcome x y b :
  let r := Part000.click x y b in
  match r.2 with
  | Ret (st, evs) =>
      isVaildPosition (Part000.width b) (Part000.height b) x y = true ∧
      st = Part000.state r.1
  | Throw e =>
      (e = BoardTooSmall ∧
       isVaildPosition (Part000.width b) (Part000.height b) x y = false ∧ r.1 = b) ∨
      (e = TypeError ∧
       isVaildPosition (Part000.width b) (Part000.height b) x y = true ∧
       ¬ coversGrid (Part000.width b) (Part000.height b) (Part000.slots r.1))
  | Diverge => False
  end.
Proof.
  cbn zeta. unfold Part000.click.
  destruct (isVaildPosition (Part000.width b) (Part000.height b) x y) eqn:Hv;
    cbn [negb]; [|by left].
  pose proof (Part000_initField_outcome x y b) as Ho.
  destruct (Part000_initField_dims x y b) as [Hw Hh].
  destruct (Part000.initField x y b) as [b1 [[]| |]]; simpl in *;
    [|right; by destruct Ho|done].
  rewrite <- Hw, <- Hh in *.
  destruct (Part000.slots b1 !! (x, y)) as [slot|] eqn:Hs.
  2:{ right. split_and!; [done..|]. intros Hcov. simpl in Hcov.
      destruct (Hcov x y Hv) as [? ?]. congruence. }
  destruct (hasMine slot) eqn:Hm; simpl; [done|].
  case_bool_decide; simpl; [|done].
  pose proof (touchingNoMine_spec _ _ _ _ _ _ Hv Hs Hm) as Hsp.
  destruct (touchingNoMine _ _ _ x y) as [ps| |]; simpl in *;
    [|right; by destruct Hsp|done].
  destruct Hsp as [[_ _ Hsl _] _]. rewrite app_nil_l in Hsl.
  destruct (revealAll_spec ps (Part000.slots b1) (Part000.revealCount b1) Hsl)
    as (slots' & evs & -> & _).
  simpl. by case_bool_decide.
Qed.

(** X5. Every call of [click], on any board of either revision, ends: it
    returns the state it stores, or it throws. It throws the out-of-bounds
    error exactly when the coordinates are out of bounds, and then the board
    is unchanged; the only other exception is the [TypeError] of a missing
    cell, in bounds, and then some in-bounds position of the board it leaves
    holds no cell. The error of [touchingNoMine] on a mined cell is never
    thrown by [click]. *)
Theorem click_ends :
  (∀ rnd x y b,
     let r := Main.click rnd x y b in
     let valid := isVaildPosition (Main.width b) (Main.height b) x y in
     (r.2 = Throw BoardTooSmall ↔ valid = false) ∧
     (valid = false → r.1 = b) ∧
     ((∃ st evs, r.2 = Ret (st, evs) ∧ st = Main.state r.1) ∨
      r.2 = Throw BoardTooSmall ∨
      (r.2 = Throw TypeError ∧
       ¬ coversGrid (Main.width b) (Main.height b) (Main.slots r.1)))) ∧
  (∀ x y b,
     let r := Part000.click x y b in
     let valid := isVaildPosition (Part000.width b) (Part000.height b) x y in
     (r.2 = Throw BoardTooSmall ↔ valid = false) ∧
     (valid = false → r.1 = b) ∧
     ((∃ st evs, r.2 = Ret (st, evs) ∧ st = Part000.state r.1) ∨
      r.2 = Throw BoardTooSmall ∨
      (r.2 = Throw TypeError ∧
       ¬ coversGrid (Part000.width b) (Part000.height b) (Part000.slots r.1)))).
Proof.
  split.
  - intros rnd x y b. cbn zeta. pose proof (Main_click_outcome rnd x y b) as H.
    cbn zeta in H. destruct (Main.click rnd x y b) as [b' [[st evs]|e|]];
      simpl in *; [| |done].
    + destruct H as [Hv ->]. rewrite Hv. split_and!; [done|done|]. left. eauto.
    + destruct H as [(-> & Hv & ->)|(-> & Hv & Hn)]; rewrite Hv.
      * split_and!; [done|done|]. right. by left.
      * split_and!; [done|done|]. right. by right.
  - intros x y b. cbn zeta. pose proof (Part000_click_outcome x y b) as H.
    cbn zeta in H. destruct (Part000.click x y b) as [b' [[st evs]|e|]];
      simpl in *; [| |done].
    + destruct H as [Hv ->]. rewrite Hv. split_and!; [done|done|]. left. eauto.
    + destruct H as [(-> & Hv & ->)|(-> & Hv & Hn)]; rewrite Hv.
      * split_and!; [done|done|]. right. by left.
      * split_and!; [done|done|]. right. by right.
Qed.

Lemma click_ends_witness :
  (Main.click (λ _, 0%nat) 7 0 board_2x2).1 = board_2x2.
Proof.
  apply (proj1 click_ends (λ _, 0%nat) 7 0 board_2x2). reflexivity.
Defined.

Lemma Main_initField_frame rnd x y b :
  let b1 := (Main.initField rnd x y b).1 in
  Main.width b1 = Main.width b ∧ Main.height b1 = Main.height b ∧
  Main.state b1 = Main.state b ∧ Main.revealCount b1 = Main.revealCount b ∧
  Main.fieldInited b1 = true ∧
  (Main.fieldInited b = true → Main.initField rnd x y b = (b, Ret tt)).
Proof.
  unfold Main.initField. destruct (Main.fieldInited b) eqn:Hi; [done|].
  cbn zeta. by destruct (initNearbyMine _ _ _).
Qed.

(** The five ways a click ends, with [b1] the board [initField] leaves. *)
Lemma Main_click_cases rnd x y b :
  let b1 := (Main.initField rnd x y b).1 in
  let r := Main.click rnd x y b in
  (isVaildPosition (Main.width b) (Main.height b) x y = false ∧
   r = (b, Throw BoardTooSmall)) ∨
  (isVaildPosition (Main.width b) (Main.height b) x y = true ∧
   ((r = (b1, Throw TypeError) ∧
     ¬ coversGrid (Main.width b) (Main.height b) (Main.slots b1)) ∨
    (∃ slot, Main.slots b1 !! (x, y) = Some slot ∧ hasMine slot = true ∧
       r = (Main.set_state dead b1, Ret (dead, []))) ∨
    (∃ slot, Main.slots b1 !! (x, y) = Some slot ∧ hasMine slot = false ∧
       Main.state b1 ≠ playing ∧ r = (b1, Ret (Main.state b1, []))) ∨
    (∃ slot ps slots' evs,
       Main.slots b1 !! (x, y) = Some slot ∧ hasMine slot = false ∧
       Main.state b1 = playing ∧
       touchingNoMine (Main.width b) (Main.height b) (Main.slots b1) x y = Ret ps ∧
       position <$> evs = ps ∧
       (∀ ev, ev ∈ evs →
          nearbyMine <$> Main.slots b1 !! position ev = Some (ev_nearbyMine ev)) ∧
       (∀ q, slots' !! q =
          if decide (q ∈ ps) then set_reveal true <$> Main.slots b1 !! q
          else Main.slots b1 !! q) ∧
       let b2 := Main.set_revealCount (Main.revealCount b1 + Z.of_nat (length ps))
                   (Main.set_slots slots' b1) in
       let b3 := if bool_decide (Main.revealCount b2 = Main.width b2 * Main.height b2 - Main.mineCount b2)
                 then Main.set_state win b2 else b2 in
       r = (b3, Ret (Main.state b3, evs))))).
Proof.
  cbn zeta. unfold Main.click.
  destruct (isVaildPosition (Main.width b) (Main.height b) x y) eqn:Hv;
    cbn [negb]; [right; split; [done|]|by left].
  pose proof (Main_initField_outcome rnd x y b) as Ho.
  destruct (Main_initField_frame rnd x y b) as (Hw & Hh & _).
  destruct (Main.initField rnd x y b) as [b1 [[]|e|]]; cbn [fst snd] in *;
    [|left; by destruct Ho as [-> ?]|done].
  rewrite <- Hw, <- Hh in *.
  destruct (Main.slots b1 !! (x, y)) as [slot|] eqn:Hs.
  2:{ left. split; [done|]. intros Hcov.
      destruct (Hcov x y Hv) as [? ?]. congruence. }
  destruct (hasMine slot) eqn:Hm; cbn [Main.state Main.set_state].
  { right. left. exists slot. by rewrite bool_decide_eq_false_2. }
  case_bool_decide as Hst; cbn [negb].
  2:{ right. right. left. by exists slot. }
  pose proof (touchingNoMine_spec _ _ _ _ _ _ Hv Hs Hm) as Hsp.
  destruct (touchingNoMine _ _ _ x y) as [ps| |] eqn:Ht; cbn [fillOutcome] in Hsp;
    [|left; by destruct Hsp as [-> ?]|done].
  destruct Hsp as [[_ _ Hsl _] _]. rewrite app_nil_l in Hsl.
  destruct (revealAll_spec ps (Main.slots b1) (Main.revealCount b1) Hsl)
    as (slots' & evs & -> & Hpos & Hev & Hl).
  right. right. right. exists slot, ps, slots', evs. by split_and!.
Qed.

Lemma Part000_initField_frame x y b :
  let b1 := (Part000.initField x y b).1 in
  Part000.width b1 = Part000.width b ∧ Part000.height b1 = Part000.height b ∧
  Part000.state b1 = Part000.state b ∧ Part000.revealCount b1 = Part000.revealCount b ∧
  Part000.fieldInited b1 = true ∧
  (Part000.fieldInited b = true → Part000.initField x y b = (b, Ret tt)).
Proof.
  unfold Part000.initField. destruct (Part000.fieldInited b) eqn:Hi; [done|].
  cbn zeta. by destruct (initNearbyMine _ _ _).
Qed.

(** The five ways a click ends, with [b1] the board [initField] leaves. *)
Lemma Part000_click_cases x y b :
  let b1 := (Part000.initField x y b).1 in
  let r := Part000.click x y b in
  (isVaildPosition (Part000.width b) (Part000.height b) x y = false ∧
   r = (b, Throw BoardTooSmall)) ∨
  (isVaildPosition (Part000.width b) (Part000.height b) x y = true ∧
   ((r = (b1, Throw TypeError) ∧
     ¬ coversGrid (Part000.width b) (Part000.height b) (Part000.slots b1)) ∨
    (∃ slot, Part000.slots b1 !! (x, y) = Some slot ∧ hasMine slot = true ∧
       r = (Part000.set_state dead b1, Ret (dead, []))) ∨
    (∃ slot, Part000.slots b1 !! (x, y) = Some slot ∧ hasMine slot = false ∧
       Part000.state b1 ≠ playing ∧ r = (b1, Ret (Part000.state b1, []))) ∨
    (∃ slot ps slots' evs,
       Part000.slots b1 !! (x, y) = Some slot ∧ hasMine slot = false ∧
       Part000.state b1 = playing ∧
       touchingNoMine (Part000.width b) (Part000.height b) (Part000.slots b1) x y = Ret ps ∧
       position <$> evs = ps ∧
       (∀ ev, ev ∈ evs →
          nearbyMine <$> Part000.slots b1 !! position ev = Some (ev_nearbyMine ev)) ∧
       (∀ q, slots' !! q =
          if decide (q ∈ ps) then set_reveal true <$> Part000.slots b1 !! q
          else Part000.slots b1 !! q) ∧
       let b2 := Part000.set_revealCount (Part000.revealCount b1 + Z.of_nat (length ps))
                   (Part000.set_slots slots' b1) in
       let b3 := if bool_decide (Part000.revealCount b2 = Part000.totalSpaceCount b2)
                 then Part000.set_state win b2 else b2 in
       r = (b3, Ret (Part000.state b3, evs))))).
Proof.
  cbn zeta. unfold Part000.click.
  destruct (isVaildPosition (Part000.width b) (Part000.height b) x y) eqn:Hv;
    cbn [negb]; [right; split; [done|]|by left].
  pose proof (Part000_initField_outcome x y b) as Ho.
  destruct (Part000_initField_frame x y b) as (Hw & Hh & _).
  destruct (Part000.initField x y b) as [b1 [[]|e|]]; cbn [fst snd] in *;
    [|left; by destruct Ho as [-> ?]|done].
  rewrite <- Hw, <- Hh in *.
  destruct (Part000.slots b1 !! (x, y)) as [slot|] eqn:Hs.
  2:{ left. split; [done|]. intros Hcov.
      destruct (Hcov x y Hv) as [? ?]. congruence. }
  destruct (hasMine slot) eqn:Hm; cbn [Part000.state Part000.set_state].
  { right. left. exists slot. by rewrite bool_decide_eq_false_2. }
  case_bool_decide as Hst; cbn [negb].
  2:{ right. right. left. by exists slot. }
  pose proof (touchingNoMine_spec _ _ _ _ _ _ Hv Hs Hm) as Hsp.
  destruct (touchingNoMine _ _ _ x y) as [ps| |] eqn:Ht; cbn [fillOutcome] in Hsp;
    [|left; by destruct Hsp as [-> ?]|done].
  destruct Hsp as [[_ _ Hsl _] _]. rewrite app_nil_l in Hsl.
  destruct (revealAll_spec ps (Part000.slots b1) (Part000.revealCount b1) Hsl)
    as (slots' & evs & -> & Hpos & Hev & Hl).
  right. right. right. exists slot, ps, slots', evs. by split_and!.
Qed.

Lemma Main_click_frame rnd x y b :
  let r := Main.click rnd x y b in
  Main.width r.1 = Main.width b ∧ Main.height r.1 = Main.height b ∧
  (isVaildPosition (Main.width b) (Main.height b) x y = true →
   Main.fieldInited r.1 = true) ∧
  Main.revealCount b ≤ Main.revealCount r.1 ∧
  (∀ st evs, r.2 = Ret (st, evs) →
     Main.revealCount r.1 = Main.revealCount b + Z.of_nat (length evs)).
Proof.
  cbn zeta. destruct (Main_initField_frame rnd x y b) as (Hw & Hh & Hst & Hrc & Hi & _).
  destruct (Main_click_cases rnd x y b)
    as [[Hv ->]|[Hv [[-> _]|[(slot & _ & _ & ->)|[(slot & _ & _ & _ & ->)
        |(slot & ps & slots' & evs & _ & _ & _ & _ & Hpos & _ & _ & ->)]]]]];
    cbn zeta; cbn [fst snd].
  - split_and!; try done; try congruence; lia.
  - split_and!; try done; lia.
  - simpl. split_and!; try done; try lia. intros ? ? [= <- <-]. simpl. lia.
  - simpl. split_and!; try done; try lia. intros ? ? [= <- <-]. simpl. lia.
  - assert (length evs = length ps) as Hlen by (by rewrite <- Hpos, length_fmap).
    case_bool_decide; simpl; (split_and!; try done; try lia);
      intros ? ? [= <- <-]; lia.
Qed.

Lemma Part000_click_frame x y b :
  let r := Part000.click x y b in
  Part000.width r.1 = Part000.width b ∧ Part000.height r.1 = Part000.height b ∧
  (isVaildPosition (Part000.width b) (Part000.height b) x y = true →
   Part000.fieldInited r.1 = true) ∧
  Part000.revealCount b ≤ Part000.revealCount r.1 ∧
  (∀ st evs, r.2 = Ret (st, evs) →
     Part000.revealCount r.1 = Part000.revealCount b + Z.of_nat (length evs)).
Proof.
  cbn zeta. destruct (Part000_initField_frame x y b) as (Hw & Hh & Hst & Hrc & Hi & _).
  destruct (Part000_click_cases x y b)
    as [[Hv ->]|[Hv [[-> _]|[(slot & _ & _ & ->)|[(slot & _ & _ & _ & ->)
        |(slot & ps & slots' & evs & _ & _ & _ & _ & Hpos & _ & _ & ->)]]]]];
    cbn zeta; cbn [fst snd].
  - split_and!; try done; try congruence; lia.
  - split_and!; try done; lia.
  - simpl. split_and!; try done; try lia. intros ? ? [= <- <-]. simpl. lia.
  - simpl. split_and!; try done; try lia. intros ? ? [= <- <-]. simpl. lia.
  - assert (length evs = length ps) as Hlen by (by rewrite <- Hpos, length_fmap).
    case_bool_decide; simpl; (split_and!; try done; try lia);
      intros ? ? [= <- <-]; lia.
Qed.

(** X6. part_000: on every board a caller can hold, a click with in-bounds
    coordinates returns; it never throws. The board it leaves is
    initialised, with exactly the cells of the grid, each storing the number
    of its in-bounds neighbours with a mine. *)
Theorem predicate_board_click_returns x y b :
  Part000_reachable b →
  isVaildPosition (Part000.width b) (Part000.height b) x y = true →
  let r := Part000.click x y b in
  (∃ st evs, r.2 = Ret (st, evs)) ∧
  Part000.fieldInited r.1 = true ∧
  wellCounted (Part000.width b) (Part000.height b) (Part000.slots r.1).
Proof.
  intros Hr Hv. cbn zeta.
  destruct (Part000_click_frame x y b) as (Hw & Hh & Hi & _). specialize (Hi Hv).
  assert (wellCounted (Part000.width b) (Part000.height b)
            (Part000.slots (Part000.click x y b).1)) as Hwc.
  { destruct (Part000_reachable_wellCounted (Part000.click x y b).1)
      as [(Hf & _)|(_ & Hwc)]; [by constructor|congruence|].
    by rewrite Hw, Hh in Hwc. }
  split_and!; [|done|done].
  pose proof (Part000_click_outcome x y b) as Ho. cbn zeta in Ho.
  destruct (Part000.click x y b) as [b' [[st evs]|e|]]; simpl in *; [eauto| |done].
  destruct Ho as [(_ & Hn & _)|(_ & _ & Hn)]; [congruence|].
  destruct Hn. apply Hwc.
Qed.

Lemma predicate_board_click_returns_witness :
  ∃ st evs,
    (Part000.click 0 0 (Part000.click 2 3 board_all_mines).1).2 = Ret (st, evs).
Proof.
  refine (proj1 (predicate_board_click_returns 0 0
                   (Part000.click 2 3 board_all_mines).1 _ _)).
  - apply Part000_reach_click. apply Part000_reach_new.
  - reflexivity.
Defined.

(** X7. main.ts: take a board built from a string layout, or a square board
    built from a mine count [0 ≤ mineCount < n * n], and apply any sequence
    of clicks to it, returning or throwing. On the board this leaves, a
    click with in-bounds coordinates returns; and the board always has the
    dimensions it was built with. *)
Theorem sound_board_click_returns b0 b rnd x y :
  (∃ width height layout, Main.constructor width height (inr layout) = Ret b0) ∨
  (∃ n mineCount, 0 ≤ mineCount ∧ Main.constructor n n (inl mineCount) = Ret b0) →
  Main_clicks b0 b →
  isVaildPosition (Main.width b) (Main.height b) x y = true →
  (∃ st evs, (Main.click rnd x y b).2 = Ret (st, evs)) ∧
  Main.width b = Main.width b0 ∧ Main.height b = Main.height b0.
Proof.
  intros H0 Hc Hv.
  assert ((Main.width b = Main.width b0 ∧ Main.height b = Main.height b0) ∧
          ((Main.fieldInited b = true ∧
            wellCounted (Main.width b) (Main.height b) (Main.slots b)) ∨
           ∃ n mineCount, 0 ≤ mineCount < n * n ∧
             b = Main.mkMineBoard ∅ mineCount playing 0 n n false)) as [Hd Hinv].
  { clear Hv. induction Hc as [|rnd' x' y' b Hc IH].
    - split; [done|]. destruct H0 as [(w & h & layout & Hb)|(n & mc & Hmc & Hb)].
      + left. destruct (Main_constructor_layout w h layout) as (slots & Hc & Hwc & _).
        cbn zeta in Hc. rewrite Hc in Hb. by injection Hb as <-.
      + right. exists n, mc. unfold Main.constructor in Hb.
        destruct (Z.geb_spec mc (n * n)); [done|]. injection Hb as <-.
        split; [lia|done].
    - destruct IH as [[Hw Hh] IH].
      destruct (Main_click_frame rnd' x' y' b) as (Hw' & Hh' & Hi' & _).
      cbn zeta in *. split; [split; congruence|].
      destruct IH as [[Hi Hwc]|(n & mc & Hmc & ->)].
      + left. destruct (Main_click_keeps rnd' x' y' b Hi) as (_ & _ & ? & _ & Hsame).
        split; [done|]. rewrite Hw', Hh'. by eapply wellCounted_sameCells.
      + destruct (isVaildPosition n n x' y') eqn:Hv'.
        * left. split; [by apply Hi'|].
          destruct (mine_placement_square rnd' n mc x' y' Hmc Hv') as (Hwc & _).
          by rewrite Hw', Hh'.
        * right. exists n, mc. split; [done|].
          by rewrite (Main_click_invalid rnd'
                        (Main.mkMineBoard ∅ mc playing 0 n n false) x' y' Hv'). }
  split; [|done]. destruct Hinv as [[Hi Hwc]|(n & mc & Hmc & ->)].
  - pose proof (Main_click_outcome rnd x y b) as Ho. cbn zeta in Ho.
    destruct (Main_click_keeps rnd x y b Hi) as (_ & _ & _ & _ & Hsame).
    destruct (Main.click rnd x y b) as [b' [[st evs]|e|]]; simpl in *; [eauto| |done].
    destruct Ho as [(_ & Hn & _)|(_ & _ & Hn)]; [congruence|].
    destruct Hn. eapply wellCounted_sameCells in Hwc; [|done]. apply Hwc.
  - destruct (mine_placement_square rnd n mc x y Hmc Hv) as (_ & _ & _ & st & evs & Hr & _).
    eauto.
Qed.

Lemma sound_board_click_returns_witness :
  ∃ st evs, (Main.click (λ _, 0%nat) 1 1
               (Main.click (λ _, 0%nat) 0 0 board_2x2).1).2 = Ret (st, evs).
Proof.
  refine (proj1 (sound_board_click_returns board_2x2
                   (Main.click (λ _, 0%nat) 0 0 board_2x2).1 (λ _, 0%nat) 1 1 _ _ _)).
  - left. exists 5, 5, layout_2x2. reflexivity.
  - apply Main_clicks_step. apply Main_clicks_refl.
  - reflexivity.
Defined.

(** ** States, counters and cells across clicks *)

Lemma Main_click_states rnd x y b :
  let r := Main.click rnd x y b in
  (Main.state b = dead → Main.state r.1 = dead) ∧
  (Main.state b ≠ playing → Main.state r.1 ≠ playing) ∧
  (∀ e, r.2 = Throw e → Main.state r.1 = Main.state b) ∧
  (∀ st evs, r.2 = Ret (st, evs) →
     st = Main.state r.1 ∧
     (st = playing → Main.state b = playing) ∧
     (st = dead →
        evs = [] ∧
        (Main.state b = dead ∨ hasMineAt (Main.slots r.1) (x, y) = true)) ∧
     (Main.state b ≠ playing → evs = []) ∧
     (hasMineAt (Main.slots r.1) (x, y) = true → st = dead)).
Proof.
  cbn zeta. destruct (Main_initField_frame rnd x y b) as (_ & _ & Hst & _).
  destruct (Main_click_cases rnd x y b)
    as [[Hv ->]|[Hv [[-> _]|[(slot & Hs & Hm & ->)|[(slot & Hs & Hm & Hp & ->)
        |(slot & ps & slots' & evs & Hs & Hm & Hp & _ & _ & _ & Hl & ->)]]]]];
    cbn zeta; cbn [fst snd].
  - split_and!; done.
  - rewrite Hst. split_and!; done.
  - cbn [Main.state Main.set_state Main.slots]. unfold hasMineAt. rewrite Hs, Hm.
    split_and!; try done. intros ? ? [= <- <-]. split_and!; try done. auto.
  - unfold hasMineAt. rewrite Hs, Hm. rewrite Hst in *.
    split_and!; try done. intros ? ? [= <- <-]. split_and!; try done. auto.
  - rewrite Hst in Hp.
    assert (hasMineAt slots' (x, y) = false) as Hm'.
    { unfold hasMineAt. rewrite Hl, Hs. by case_decide. }
    case_bool_decide;
      cbn [Main.state Main.set_state Main.set_revealCount Main.set_slots Main.slots];
      rewrite ?Hst, ?Hp, ?Hm'; (split_and!; try done);
      intros ? ? [= <- <-]; split_and!; done.
Qed.

Lemma Main_click_reveal_mono rnd x y b q :
  Main.fieldInited b = true ∨ Main.slots b = ∅ →
  revealedAt (Main.slots b) q = true →
  revealedAt (Main.slots (Main.click rnd x y b).1) q = true.
Proof.
  intros [Hi|He] Hq.
  2:{ unfold revealedAt in Hq. by rewrite He, lookup_empty in Hq. }
  destruct (Main_initField_frame rnd x y b) as (_ & _ & _ & _ & _ & Hb).
  specialize (Hb Hi).
  pose proof (Main_click_cases rnd x y b) as Hc. cbn zeta in Hc. rewrite Hb in Hc.
  cbn [fst] in Hc.
  destruct Hc
    as [[Hv ->]|[Hv [[-> _]|[(slot & Hs & Hm & ->)|[(slot & Hs & Hm & Hp & ->)
        |(slot & ps & slots' & evs & Hs & Hm & Hp & _ & _ & _ & Hl & ->)]]]]];
    cbn zeta; cbn [fst snd]; try done.
  assert (revealedAt slots' q = true) as Hq'.
  { unfold revealedAt in *. rewrite Hl.
    destruct (Main.slots b !! q) as [s|]; [|done]. by case_decide. }
  by case_bool_decide.
Qed.

Lemma Part000_click_states x y b :
  let r := Part000.click x y b in
  (Part000.state b = dead → Part000.state r.1 = dead) ∧
  (Part000.state b ≠ playing → Part000.state r.1 ≠ playing) ∧
  (∀ e, r.2 = Throw e → Part000.state r.1 = Part000.state b) ∧
  (∀ st evs, r.2 = Ret (st, evs) →
     st = Part000.state r.1 ∧
     (st = playing → Part000.state b = playing) ∧
     (st = dead →
        evs = [] ∧
        (Part000.state b = dead ∨ hasMineAt (Part000.slots r.1) (x, y) = true)) ∧
     (Part000.state b ≠ playing → evs = []) ∧
     (hasMineAt (Part000.slots r.1) (x, y) = true → st = dead)).
Proof.
  cbn zeta. destruct (Part000_initField_frame x y b) as (_ & _ & Hst & _).
  destruct (Part000_click_cases x y b)
    as [[Hv ->]|[Hv [[-> _]|[(slot & Hs & Hm & ->)|[(slot & Hs & Hm & Hp & ->)
        |(slot & ps & slots' & evs & Hs & Hm & Hp & _ & _ & _ & Hl & ->)]]]]];
    cbn zeta; cbn [fst snd].
  - split_and!; done.
  - rewrite Hst. split_and!; done.
  - cbn [Part000.state Part000.set_state Part000.slots]. unfold hasMineAt. rewrite Hs, Hm.
    split_and!; try done. intros ? ? [= <- <-]. split_and!; try done. auto.
  - unfold hasMineAt. rewrite Hs, Hm. rewrite Hst in *.
    split_and!; try done. intros ? ? [= <- <-]. split_and!; try done. auto.
  - rewrite Hst in Hp.
    assert (hasMineAt slots' (x, y) = false) as Hm'.
    { unfold hasMineAt. rewrite Hl, Hs. by case_decide. }
    case_bool_decide;
      cbn [Part000.state Part000.set_state Part000.set_revealCount Part000.set_slots Part000.slots];
      rewrite ?Hst, ?Hp, ?Hm'; (split_and!; try done);
      intros ? ? [= <- <-]; split_and!; done.
Qed.

Lemma Part000_click_reveal_mono x y b q :
  Part000.fieldInited b = true ∨ Part000.slots b = ∅ →
  revealedAt (Part000.slots b) q = true →
  revealedAt (Part000.slots (Part000.click x y b).1) q = true.
Proof.
  intros [Hi|He] Hq.
  2:{ unfold revealedAt in Hq. by rewrite He, lookup_empty in Hq. }
  destruct (Part000_initField_frame x y b) as (_ & _ & _ & _ & _ & Hb).
  specialize (Hb Hi).
  pose proof (Part000_click_cases x y b) as Hc. cbn zeta in Hc. rewrite Hb in Hc.
  cbn [fst] in Hc.
  destruct Hc
    as [[Hv ->]|[Hv [[-> _]|[(slot & Hs & Hm & ->)|[(slot & Hs & Hm & Hp & ->)
        |(slot & ps & slots' & evs & Hs & Hm & Hp & _ & _ & _ & Hl & ->)]]]]];
    cbn zeta; cbn [fst snd]; try done.
  assert (revealedAt slots' q = true) as Hq'.
  { unfold revealedAt in *. rewrite Hl.
    destruct (Part000.slots b !! q) as [s|]; [|done]. by case_decide. }
  by case_bool_decide.
Qed.

(** X8. How [click] moves the state, on any board of either revision: a
    dead board stays dead and a finished board never returns to play (a won
    board can still turn dead); a click that throws leaves the state as it
    was. A click that returns reports the state it stores; it reports
    [playing] only on a board in play; it reports [dead] only with an empty
    reveal list, and only on a dead board or a clicked cell with a mine; it
    reveals nothing on a finished board; and it reports [dead] whenever the
    clicked cell has a mine. *)
Theorem click_state_transitions :
  (∀ rnd x y b,
     let r := Main.click rnd x y b in
     (Main.state b = dead → Main.state r.1 = dead) ∧
     (Main.state b ≠ playing → Main.state r.1 ≠ playing) ∧
     (∀ e, r.2 = Throw e → Main.state r.1 = Main.state b) ∧
     (∀ st evs, r.2 = Ret (st, evs) →
        st = Main.state r.1 ∧
        (st = playing → Main.state b = playing) ∧
        (st = dead →
           evs = [] ∧
           (Main.state b = dead ∨ hasMineAt (Main.slots r.1) (x, y) = true)) ∧
        (Main.state b ≠ playing → evs = []) ∧
        (hasMineAt (Main.slots r.1) (x, y) = true → st = dead))) ∧
  (∀ x y b,
     let r := Part000.click x y b in
     (Part000.state b = dead → Part000.state r.1 = dead) ∧
     (Part000.state b ≠ playing → Part000.state r.1 ≠ playing) ∧
     (∀ e, r.2 = Throw e → Part000.state r.1 = Part000.state b) ∧
     (∀ st evs, r.2 = Ret (st, evs) →
        st = Part000.state r.1 ∧
        (st = playing → Part000.state b = playing) ∧
        (st = dead →
           evs = [] ∧
           (Part000.state b = dead ∨ hasMineAt (Part000.slots r.1) (x, y) = true)) ∧
        (Part000.state b ≠ playing → evs = []) ∧
        (hasMineAt (Part000.slots r.1) (x, y) = true → st = dead))).
Proof.
  split.
  - intros rnd x y b. apply Main_click_states.
  - intros x y b. apply Part000_click_states.
Qed.

Lemma click_state_transitions_witness :
  Main.state (Main.click (λ _, 0%nat) 0 0
                (Main.click (λ _, 0%nat) 1 0 board_2x2).1).1 = dead.
Proof.
  apply (proj1 click_state_transitions (λ _, 0%nat) 0 0
           (Main.click (λ _, 0%nat) 1 0 board_2x2).1).
  reflexivity.
Defined.

(** X9. Monotonic reveal, on every board a caller can hold, in either
    revision: a click, returning or throwing, never lowers [revealCount]
    and never hides a revealed cell; a click that returns adds to
    [revealCount] exactly the number of reveal events it returns. *)
Theorem reveal_monotone :
  (∀ rnd x y b, Main_reachable b →
     let r := Main.click rnd x y b in
     Main.revealCount b ≤ Main.revealCount r.1 ∧
     (∀ q, revealedAt (Main.slots b) q = true →
           revealedAt (Main.slots r.1) q = true) ∧
     (∀ st evs, r.2 = Ret (st, evs) →
        Main.revealCount r.1 = Main.revealCount b + Z.of_nat (length evs))) ∧
  (∀ x y b, Part000_reachable b →
     let r := Part000.click x y b in
     Part000.revealCount b ≤ Part000.revealCount r.1 ∧
     (∀ q, revealedAt (Part000.slots b) q = true →
           revealedAt (Part000.slots r.1) q = true) ∧
     (∀ st evs, r.2 = Ret (st, evs) →
        Part000.revealCount r.1 = Part000.revealCount b + Z.of_nat (length evs))).
Proof.
  split.
  - intros rnd x y b Hr. cbn zeta.
    destruct (Main_click_frame rnd x y b) as (_ & _ & _ & Hle & Hev).
    split_and!; [done| |done]. intros q. apply Main_click_reveal_mono.
    by destruct (Main_reachable_closed b Hr) as [_ ?].
  - intros x y b Hr. cbn zeta.
    destruct (Part000_click_frame x y b) as (_ & _ & _ & Hle & Hev).
    split_and!; [done| |done]. intros q. apply Part000_click_reveal_mono.
    destruct (Part000_reachable_wellCounted b Hr) as [(_ & ? & _)|(? & _)]; auto.
Qed.

Lemma reveal_monotone_witness :
  Main.revealCount board_2x2
  ≤ Main.revealCount (Main.click (λ _, 0%nat) 0 0 board_2x2).1.
Proof.
  refine (proj1 (proj1 reveal_monotone (λ _, 0%nat) 0 0 board_2x2 _)).
  by apply (Main_reach_new 5 5 (inr layout_2x2)).
Defined.

(** X10. Once a board is initialised, no click, returning or throwing,
    changes which cells exist, which of them hold a mine, or any stored
    neighbour count; the dimensions, [mineCount] (main.ts) and
    [totalSpaceCount] (part_000) stay as they are, and the board stays
    initialised: the placement is never drawn again. *)
Theorem cells_frozen_after_init :
  (∀ rnd x y b, Main.fieldInited b = true →
     let b' := (Main.click rnd x y b).1 in
     Main.fieldInited b' = true ∧
     Main.width b' = Main.width b ∧ Main.height b' = Main.height b ∧
     Main.mineCount b' = Main.mineCount b ∧
     ∀ q, hasMine <$> Main.slots b' !! q = hasMine <$> Main.slots b !! q ∧
          nearbyMine <$> Main.slots b' !! q = nearbyMine <$> Main.slots b !! q) ∧
  (∀ x y b, Part000.fieldInited b = true →
     let b' := (Part000.click x y b).1 in
     Part000.fieldInited b' = true ∧
     Part000.width b' = Part000.width b ∧ Part000.height b' = Part000.height b ∧
     Part000.totalSpaceCount b' = Part000.totalSpaceCount b ∧
     ∀ q, hasMine <$> Part000.slots b' !! q = hasMine <$> Part000.slots b !! q ∧
          nearbyMine <$> Part000.slots b' !! q
          = nearbyMine <$> Part000.slots b !! q).
Proof.
  split.
  - intros rnd x y b Hi.
    destruct (Main_click_keeps rnd x y b Hi) as (? & ? & ? & ? & Hs). by split_and!.
  - intros x y b Hi.
    destruct (Part000_click_keeps x y b Hi) as (? & ? & ? & ? & Hs). by split_and!.
Qed.

Lemma cells_frozen_after_init_witness :
  Main.mineCount (Main.click (λ _, 0%nat) 0 0 board_2x2).1 = Main.mineCount board_2x2.
Proof.
  refine (proj1 (proj2 (proj2 (proj2
    (proj1 cells_frozen_after_init (λ _, 0%nat) 0 0 board_2x2 _))))).
  reflexivity.
Defined.

(** ** What the flood fill lists *)

Section Reach.
Variables (width height : Z) (slots : gmap Position MineSlot) (start : Position).

Lemma floodReach_safe p :
floodReach width height slots start p →
p = start ∨
(inGrid width height p ∧
 ∃ sp, slots !! p = Some sp ∧ hasMine sp = false ∧ reveal sp = false).
Proof. intros [|q sq d sp _ _ _ _ Hg Hs Hm Hr]; [by left|right; eauto]. Qed.

Lemma pushNeighbours_reach i j sq result deltas stack stack' :
pushNeighbours width height slots i j result deltas stack = Ret stack' →
floodReach width height slots start (i, j) →
slots !! (i, j) = Some sq → ¬ (nearbyMine sq > 0) →
(∀ d, d ∈ deltas → d ∈ deltaMap) →
(∀ p, p ∈ stack → floodReach width height slots start p) →
∀ p, p ∈ stack' → floodReach width height slots start p.
Proof.
intros Heq Hij Hsq Hn. revert stack Heq.
induction deltas as [|[x y] deltas IH]; intros stack Heq Hd Hst;
  cbn [pushNeighbours] in Heq.
{ by injection Heq as <-. }
assert (∀ d, d ∈ deltas → d ∈ deltaMap) as Hd' by (intros d ?; apply Hd; by right).
destruct (isVaildPosition width height (x + i) (y + j)) eqn:Hv; cbn [negb] in Heq;
  [|by eapply IH].
destruct (slots !! (x + i, y + j)) as [s|] eqn:Hs; [|done].
destruct (hasMine s) eqn:Hm; cbn [orb] in Heq; [by eapply IH|].
destruct (reveal s) eqn:Hr; cbn [orb] in Heq; [by eapply IH|].
destruct (bool_decide ((x + i, y + j) ∈ result) || bool_decide ((x + i, y + j) ∈ stack));
  [by eapply IH|].
eapply IH; [done..|]. intros p [->|Hp]%elem_of_cons; [|by apply Hst].
apply (floodReach_step width height slots start (i, j) sq (x, y) s); try done.
apply Hd. left.
Qed.

Lemma floodLoop_reach fuel stack result r :
floodLoop width height slots fuel stack result = Ret r →
(∀ p, p ∈ stack → floodReach width height slots start p) →
(∀ p, p ∈ result → floodReach width height slots start p) →
∀ p, p ∈ r → floodReach width height slots start p.
Proof.
revert stack result. induction fuel as [|fuel IH]; intros stack result Heq Hst Hres;
  [done|].
destruct stack as [|[i j] stack]; cbn [floodLoop] in Heq.
{ by injection Heq as <-. }
destruct (slots !! (i, j)) as [s|] eqn:Hs; [|done].
assert (floodReach width height slots start (i, j)) as Hij by (apply Hst; left).
assert (∀ p, p ∈ stack → floodReach width height slots start p) as Hst'
  by (intros p ?; apply Hst; by right).
assert (∀ p, p ∈ result ++ [(i, j)] → floodReach width height slots start p) as Hres'.
{ intros p [?| ->%list_elem_of_singleton]%elem_of_app; auto. }
destruct (nearbyMine s >? 0) eqn:Hn; [by eapply IH|].
destruct (pushNeighbours width height slots i j (result ++ [(i, j)]) deltaMap stack)
  as [stack''| |] eqn:Hp; [|done..].
eapply IH; [done| |done].
eapply pushNeighbours_reach; [done..|lia|done|done].
Qed.

End Reach.

Lemma touchingNoMine_sound width height slots ox oy r :
  touchingNoMine width height slots ox oy = Ret r →
  ∀ p, p ∈ r → floodReach width height slots (ox, oy) p.
Proof.
  intros Heq. unfold touchingNoMine in Heq.
  destruct (slots !! (ox, oy)) as [s|]; [|done]. destruct (hasMine s); [done|].
  apply (floodLoop_reach _ _ _ _ _ _ _ _ Heq).
  - intros p ->%list_elem_of_singleton. constructor.
  - by intros p ?%elem_of_nil.
Qed.

Lemma touchingNoMine_complete width height slots ox oy r :
  isVaildPosition width height ox oy = true →
  touchingNoMine width height slots ox oy = Ret r →
  ∀ p, floodReach width height slots (ox, oy) p → p ∈ r.
Proof.
  intros Hv Heq p Hp.
  pose proof (touchingNoMine_closed width height slots ox oy r Heq) as Hcl.
  induction Hp as [|q sq d sp Hq IH Hsq Hn Hd Hg Hs Hm Hr].
  - assert (∃ s, slots !! (ox, oy) = Some s ∧ hasMine s = false) as (s & Hs & Hm).
    { unfold touchingNoMine in Heq. destruct (slots !! (ox, oy)) as [s|]; [|done].
      destruct (hasMine s) eqn:Hm; [done|]. eauto. }
    pose proof (touchingNoMine_spec width height slots ox oy s Hv Hs Hm) as Hsp.
    rewrite Heq in Hsp. destruct Hsp as [_ [k ->]]. left.
  - destruct (Hcl q sq IH Hsq Hn d Hd Hg) as (s & Hs' & [Hm'|[Hr'|Hin]]).
    + congruence.
    + congruence.
    + by rewrite app_nil_l in Hin.
Qed.


(** X11. What [touchingNoMine] lists, started in bounds: it ends, and when
    it returns, the list has no repetition and holds exactly the clicked
    cell and every cell reached from it by steps from a listed cell whose
    count is not positive to an in-bounds neighbour that has no mine and is
    not revealed. It throws its own error exactly on a start cell with a
    mine, and otherwise only the [TypeError] of a missing in-bounds cell. *)
Theorem flood_fill_exact width height slots ox oy :
  isVaildPosition width height ox oy = true →
  match touchingNoMine width height slots ox oy with
  | Ret result =>
      NoDup result ∧ hasMineAt slots (ox, oy) = false ∧
      ∀ p, p ∈ result ↔ floodReach width height slots (ox, oy) p
  | Throw e =>
      (e = ThereIsMineAt (ox, oy) ∧ hasMineAt slots (ox, oy) = true) ∨
      (e = TypeError ∧ hasMineAt slots (ox, oy) = false ∧
       ¬ coversGrid width height slots)
  | Diverge => False
  end.
Proof.
  intros Hv.
  destruct (slots !! (ox, oy)) as [s|] eqn:Hs.
  2:{ unfold touchingNoMine, hasMineAt. rewrite Hs. right. split_and!; [done..|].
      intros Hcov. destruct (Hcov ox oy Hv) as [? ?]. congruence. }
  destruct (hasMine s) eqn:Hm.
  { unfold touchingNoMine, hasMineAt. rewrite Hs, Hm. by left. }
  pose proof (touchingNoMine_spec width height slots ox oy s Hv Hs Hm) as Hsp.
  assert (hasMineAt slots (ox, oy) = false) as Hm' by (unfold hasMineAt; by rewrite Hs).
  destruct (touchingNoMine width height slots ox oy) as [r|e|] eqn:Heq;
    cbn [fillOutcome] in Hsp; [|right; by destruct Hsp as [-> ?]|done].
  destruct Hsp as [[Hnd _ _ _] _]. rewrite app_nil_l in Hnd.
  split_and!; [done..|]. intros p. split.
  - by apply touchingNoMine_sound.
  - by apply touchingNoMine_complete.
Qed.

Lemma flood_fill_exact_witness :
  match touchingNoMine 2 2 (Main.slots board_2x2) 0 0 with
  | Ret result =>
      NoDup result ∧ hasMineAt (Main.slots board_2x2) (0, 0) = false ∧
      ∀ p, p ∈ result ↔ floodReach 2 2 (Main.slots board_2x2) (0, 0) p
  | Throw e =>
      (e = ThereIsMineAt (0, 0) ∧ hasMineAt (Main.slots board_2x2) (0, 0) = true) ∨
      (e = TypeError ∧ hasMineAt (Main.slots board_2x2) (0, 0) = false ∧
       ¬ coversGrid 2 2 (Main.slots board_2x2))
  | Diverge => False
  end.
Proof. apply (flood_fill_exact 2 2 (Main.slots board_2x2) 0 0). reflexivity. Defined.

(** ** The reveal events of a click *)

Lemma Main_click_events rnd x y b st evs :
  (Main.click rnd x y b).2 = Ret (st, evs) →
  let b1 := (Main.initField rnd x y b).1 in
  let b' := (Main.click rnd x y b).1 in
  (evs = [] ∨ head (position <$> evs) = Some (x, y)) ∧
  (∀ ev, ev ∈ evs →
     inGrid (Main.width b) (Main.height b) (position ev) ∧
     ∃ s, Main.slots b' !! position ev = Some s ∧ hasMine s = false ∧
          reveal s = true ∧ nearbyMine s = ev_nearbyMine ev) ∧
  (∀ q, q ∉ position <$> evs → Main.slots b' !! q = Main.slots b1 !! q) ∧
  (Main.state b = playing → st ≠ dead →
   ∀ p, p ∈ position <$> evs
        ↔ floodReach (Main.width b) (Main.height b) (Main.slots b1) (x, y) p).
Proof.
  cbn zeta. destruct (Main_initField_frame rnd x y b) as (_ & _ & Hst & _).
  destruct (Main_click_cases rnd x y b)
    as [[Hv ->]|[Hv [[-> _]|[(slot & Hs & Hm & ->)|[(slot & Hs & Hm & Hp & ->)
        |(slot & ps & slots' & evs' & Hs & Hm & Hp & Ht & Hpos & Hev & Hl & ->)]]]]];
    cbn zeta; cbn [fst snd]; try done.
  - intros [= <- <-]. split_and!; [by left| |done|done]. by intros ev ?%elem_of_nil.
  - intros [= <- <-]. split_and!; [by left| |done|].
    + by intros ev ?%elem_of_nil.
    + intros Hb. congruence.
  - intros [= _ <-].
    pose proof (touchingNoMine_spec _ _ _ _ _ _ Hv Hs Hm) as Hsp.
    rewrite Ht in Hsp. destruct Hsp as [[_ Hval Hsl _] [k Hk]].
    rewrite app_nil_l in Hval, Hsl.
    assert (Main.slots (if bool_decide
               (Main.revealCount
                  (Main.set_revealCount
                     (Main.revealCount (Main.initField rnd x y b).1 + Z.of_nat (length ps))
                     (Main.set_slots slots' (Main.initField rnd x y b).1)) = Main.width (Main.set_revealCount (Main.revealCount (Main.initField rnd x y b).1 + Z.of_nat (length ps)) (Main.set_slots slots' (Main.initField rnd x y b).1)) * Main.height (Main.set_revealCount (Main.revealCount (Main.initField rnd x y b).1 + Z.of_nat (length ps)) (Main.set_slots slots' (Main.initField rnd x y b).1)) - Main.mineCount (Main.set_revealCount (Main.revealCount (Main.initField rnd x y b).1 + Z.of_nat (length ps)) (Main.set_slots slots' (Main.initField rnd x y b).1)))
             then Main.set_state win
                    (Main.set_revealCount
                       (Main.revealCount (Main.initField rnd x y b).1 + Z.of_nat (length ps))
                       (Main.set_slots slots' (Main.initField rnd x y b).1))
             else Main.set_revealCount
                    (Main.revealCount (Main.initField rnd x y b).1 + Z.of_nat (length ps))
                    (Main.set_slots slots' (Main.initField rnd x y b).1)) = slots') as ->
      by (by case_bool_decide).
    split_and!.
    + right. rewrite Hpos, Hk. done.
    + intros ev Hin.
      assert (position ev ∈ ps) as Hin'
        by (rewrite <- Hpos; apply list_elem_of_fmap; eauto).
      split; [by apply Hval|].
      destruct (Hsl _ Hin') as [s Hs'].
      specialize (Hev ev Hin). rewrite Hs' in Hev. injection Hev as Hn.
      exists (set_reveal true s). rewrite Hl, decide_True, Hs' by done.
      split_and!; [done| |done|done].
      destruct (floodReach_safe _ _ _ _ _
                  (touchingNoMine_sound _ _ _ _ _ _ Ht _ Hin'))
        as [Heq|(_ & sp & Hsp & Hmp & _)]; simpl; [|congruence].
      rewrite Heq in Hs'. congruence.
    + intros q Hq. rewrite Hl, decide_False; [done|by rewrite <- Hpos].
    + intros _ _ p. rewrite Hpos. split.
      * by apply touchingNoMine_sound.
      * by apply touchingNoMine_complete.
Qed.

Lemma Part000_click_events x y b st evs :
  (Part000.click x y b).2 = Ret (st, evs) →
  let b1 := (Part000.initField x y b).1 in
  let b' := (Part000.click x y b).1 in
  (evs = [] ∨ head (position <$> evs) = Some (x, y)) ∧
  (∀ ev, ev ∈ evs →
     inGrid (Part000.width b) (Part000.height b) (position ev) ∧
     ∃ s, Part000.slots b' !! position ev = Some s ∧ hasMine s = false ∧
          reveal s = true ∧ nearbyMine s = ev_nearbyMine ev) ∧
  (∀ q, q ∉ position <$> evs → Part000.slots b' !! q = Part000.slots b1 !! q) ∧
  (Part000.state b = playing → st ≠ dead →
   ∀ p, p ∈ position <$> evs
        ↔ floodReach (Part000.width b) (Part000.height b) (Part000.slots b1) (x, y) p).
Proof.
  cbn zeta. destruct (Part000_initField_frame x y b) as (_ & _ & Hst & _).
  destruct (Part000_click_cases x y b)
    as [[Hv ->]|[Hv [[-> _]|[(slot & Hs & Hm & ->)|[(slot & Hs & Hm & Hp & ->)
        |(slot & ps & slots' & evs' & Hs & Hm & Hp & Ht & Hpos & Hev & Hl & ->)]]]]];
    cbn zeta; cbn [fst snd]; try done.
  - intros [= <- <-]. split_and!; [by left| |done|done]. by intros ev ?%elem_of_nil.
  - intros [= <- <-]. split_and!; [by left| |done|].
    + by intros ev ?%elem_of_nil.
    + intros Hb. congruence.
  - intros [= _ <-].
    pose proof (touchingNoMine_spec _ _ _ _ _ _ Hv Hs Hm) as Hsp.
    rewrite Ht in Hsp. destruct Hsp as [[_ Hval Hsl _] [k Hk]].
    rewrite app_nil_l in Hval, Hsl.
    assert (Part000.slots (if bool_decide
               (Part000.revealCount
                  (Part000.set_revealCount
                     (Part000.revealCount (Part000.initField x y b).1 + Z.of_nat (length ps))
                     (Part000.set_slots slots' (Part000.initField x y b).1)) = Part000.totalSpaceCount (Part000.set_revealCount (Part000.revealCount (Part000.initField x y b).1 + Z.of_nat (length ps)) (Part000.set_slots slots' (Part000.initField x y b).1)))
             then Part000.set_state win
                    (Part000.set_revealCount
                       (Part000.revealCount (Part000.initField x y b).1 + Z.of_nat (length ps))
                       (Part000.set_slots slots' (Part000.initField x y b).1))
             else Part000.set_revealCount
                    (Part000.revealCount (Part000.initField x y b).1 + Z.of_nat (length ps))
                    (Part000.set_slots slots' (Part000.initField x y b).1)) = slots') as ->
      by (by case_bool_decide).
    split_and!.
    + right. rewrite Hpos, Hk. done.
    + intros ev Hin.
      assert (position ev ∈ ps) as Hin'
        by (rewrite <- Hpos; apply list_elem_of_fmap; eauto).
      split; [by apply Hval|].
      destruct (Hsl _ Hin') as [s Hs'].
      specialize (Hev ev Hin). rewrite Hs' in Hev. injection Hev as Hn.
      exists (set_reveal true s). rewrite Hl, decide_True, Hs' by done.
      split_and!; [done| |done|done].
      destruct (floodReach_safe _ _ _ _ _
                  (touchingNoMine_sound _ _ _ _ _ _ Ht _ Hin'))
        as [Heq|(_ & sp & Hsp & Hmp & _)]; simpl; [|congruence].
      rewrite Heq in Hs'. congruence.
    + intros q Hq. rewrite Hl, decide_False; [done|by rewrite <- Hpos].
    + intros _ _ p. rewrite Hpos. split.
      * by apply touchingNoMine_sound.
      * by apply touchingNoMine_complete.
Qed.

(** ** Boards without mines, and boards with one safe cell *)

Lemma filter_all {A} (P : A → Prop) `{!∀ a, Decision (P a)} (l : list A) :
  (∀ a, a ∈ l → P a) → filter P l = l.
Proof.
  induction l as [|a l IH]; intros Hl; [done|].
  rewrite filter_cons_True by (apply Hl; left). f_equal. apply IH.
  intros b Hb. apply Hl. by right.
Qed.

Lemma filter_none {A} (P : A → Prop) `{!∀ a, Decision (P a)} (l : list A) :
  (∀ a, a ∈ l → ¬ P a) → filter P l = [].
Proof.
  induction l as [|a l IH]; intros Hl; [done|].
  rewrite filter_cons_False by (apply Hl; left). apply IH.
  intros b Hb. apply Hl. by right.
Qed.

Lemma filter_two {A} (P : A → Prop) `{!∀ a, Decision (P a)} (l : list A) a b :
  NoDup l → a ∈ l → b ∈ l → a ≠ b → P a → P b → (2 ≤ length (filter P l))%nat.
Proof.
  intros Hnd Ha Hb Hab HPa HPb.
  assert ([a; b] ⊆+ filter P l) as Hsub.
  { apply NoDup_submseteq.
    - apply NoDup_cons. split; [by intros ->%list_elem_of_singleton|].
      apply NoDup_singleton.
    - intros c [->|[->|[]%elem_of_nil]%elem_of_cons]%elem_of_cons;
        by apply list_elem_of_filter. }
  by apply submseteq_length in Hsub.
Qed.

Lemma gridSafe_gridMines width height slots :
  gridSafe width height slots + gridMines width height slots
  = Z.of_nat (length (gridPositions width height)).
Proof.
  unfold gridSafe, gridMines.
  rewrite <- (filter_app_complement (λ p, hasMineAt slots p = true)
                (gridPositions width height)) at 3.
  rewrite length_app, Nat2Z.inj_add, Z.add_comm. do 3 f_equal.
  apply list_filter_iff. intros p. by destruct (hasMineAt slots p).
Qed.

Lemma grid_cells width height x y :
  isVaildPosition width height x y = true →
  Z.of_nat (length (gridPositions width height)) = width * height.
Proof.
  intros Hv%isVaildPosition_true. rewrite length_gridPositions. nia.
Qed.

(** With the clicked cell the only safe one, every other cell has a mine. *)
Lemma one_safe_cell width height slots x y :
  isVaildPosition width height x y = true →
  hasMineAt slots (x, y) = false →
  gridSafe width height slots = 1 →
  ∀ p, p ∈ gridPositions width height → p ≠ (x, y) → hasMineAt slots p = true.
Proof.
  intros Hv Hc Hone p Hp Hne. destruct (hasMineAt slots p) eqn:Hm; [done|].
  pose proof (filter_two (λ q, hasMineAt slots q = false)
                (gridPositions width height) (x, y) p
                (NoDup_gridPositions width height)) as H2.
  unfold gridSafe in Hone.
  assert (2 ≤ length (filter (λ q, hasMineAt slots q = false)
                        (gridPositions width height)))%nat; [|lia].
  apply H2; try done. by apply elem_of_gridPositions.
Qed.

Lemma inBoundsMineNeighbours_no_mines width height slots i j :
  (∀ x y, isVaildPosition width height x y = true → hasMineAt slots (x, y) = false) →
  inBoundsMineNeighbours width height slots i j = 0.
Proof.
  intros H. unfold inBoundsMineNeighbours. rewrite filter_none; [done|].
  intros d _ [Hv Hm]. rewrite H in Hm; done.
Qed.

(** Without mines every cell of the grid is reached from any other. *)
Lemma floodReach_no_mines width height slots ox oy :
  wellCounted width height slots → unrevealed slots →
  (∀ x y, isVaildPosition width height x y = true → hasMineAt slots (x, y) = false) →
  isVaildPosition width height ox oy = true →
  ∀ px py, isVaildPosition width height px py = true →
    floodReach width height slots (ox, oy) (px, py).
Proof.
  intros (Hcov & _ & Hcnt) Hun Hsafe Ho.
  assert (∀ x y, isVaildPosition width height x y = true →
            ∃ s, slots !! (x, y) = Some s ∧ hasMine s = false ∧ reveal s = false
                 ∧ nearbyMine s = 0) as Hcell.
  { intros x y Hv. destruct (Hcov x y Hv) as [s Hs]. exists s. split_and!; [done| | |].
    - specialize (Hsafe x y Hv). unfold hasMineAt in Hsafe. by rewrite Hs in Hsafe.
    - by eapply Hun.
    - rewrite (Hcnt x y s Hs). by apply inBoundsMineNeighbours_no_mines. }
  assert (∀ n px py, isVaildPosition width height px py = true →
            Z.max (Z.abs (px - ox)) (Z.abs (py - oy)) ≤ Z.of_nat n →
            floodReach width height slots (ox, oy) (px, py)) as Hind.
  { induction n as [|n IH]; intros px py Hp Hd.
    - assert (px = ox ∧ py = oy) as [-> ->] by lia. constructor.
    - assert (∃ dx, -1 ≤ dx ≤ 1 ∧ (px = ox → dx = 0) ∧ (px < ox → dx = -1)
                    ∧ (ox < px → dx = 1)) as (dx & Hdx).
      { destruct (Z.lt_trichotomy px ox) as [?|[?|?]];
          [exists (-1)|exists 0|exists 1]; lia. }
      assert (∃ dy, -1 ≤ dy ≤ 1 ∧ (py = oy → dy = 0) ∧ (py < oy → dy = -1)
                    ∧ (oy < py → dy = 1)) as (dy & Hdy).
      { destruct (Z.lt_trichotomy py oy) as [?|[?|?]];
          [exists (-1)|exists 0|exists 1]; lia. }
      destruct (decide ((dx, dy) = (0, 0))) as [[= -> ->]|Hne].
      { assert (px = ox ∧ py = oy) as [-> ->] by lia. constructor. }
      pose proof Hp as Hp'. pose proof Ho as Ho'.
      apply isVaildPosition_true in Hp', Ho'.
      assert (isVaildPosition width height (px - dx) (py - dy) = true) as Hq
        by (apply isVaildPosition_true; lia).
      destruct (Hcell _ _ Hq) as (sq & Hsq & _ & _ & Hn).
      destruct (Hcell _ _ Hp) as (sp & Hsp & Hmp & Hrp & _).
      replace (px, py) with ((dx, dy).1 + (px - dx, py - dy).1,
                             (dx, dy).2 + (px - dx, py - dy).2)
        by (simpl; f_equal; lia).
      apply (floodReach_step width height slots (ox, oy) (px - dx, py - dy) sq
               (dx, dy) sp).
      + apply IH; [done|lia].
      + done.
      + lia.
      + apply deltaMap_Moore. split_and!; [lia..|done].
      + unfold inGrid. simpl. replace (dx + (px - dx)) with px by lia.
        by replace (dy + (py - dy)) with py by lia.
      + simpl. replace (dx + (px - dx)) with px by lia.
        by replace (dy + (py - dy)) with py by lia.
      + done.
      + done. }
  intros px py Hp.
  apply (Hind (Z.to_nat (Z.max (Z.abs (px - ox)) (Z.abs (py - oy))))); [done|lia].
Qed.

(** The fill of a board without mines lists the whole grid. *)
Lemma fill_no_mines width height slots ox oy ps :
  wellCounted width height slots → unrevealed slots →
  (∀ x y, isVaildPosition width height x y = true → hasMineAt slots (x, y) = false) →
  isVaildPosition width height ox oy = true →
  touchingNoMine width height slots ox oy = Ret ps →
  ps ≡ₚ gridPositions width height.
Proof.
  intros Hwc Hun Hsafe Hv Heq.
  assert (∃ s, slots !! (ox, oy) = Some s ∧ hasMine s = false) as (s & Hs & Hm).
  { unfold touchingNoMine in Heq. destruct (slots !! (ox, oy)) as [s|]; [|done].
    destruct (hasMine s) eqn:Hm; [done|]. eauto. }
  pose proof (touchingNoMine_spec width height slots ox oy s Hv Hs Hm) as Hsp.
  rewrite Heq in Hsp. destruct Hsp as [[Hnd Hval _ _] _].
  rewrite app_nil_l in Hnd, Hval.
  apply NoDup_Permutation; [done|apply NoDup_gridPositions|].
  intros [px py]. rewrite elem_of_gridPositions. split.
  - intros Hin. by apply (Hval (px, py)).
  - intros Hp. apply (touchingNoMine_complete _ _ _ _ _ _ Hv Heq).
    by apply floodReach_no_mines.
Qed.

(** The fill from the only safe cell lists that cell alone. *)
Lemma fill_single_safe width height slots ox oy ps :
  (∀ p, p ∈ gridPositions width height → p ≠ (ox, oy) → hasMineAt slots p = true) →
  isVaildPosition width height ox oy = true →
  touchingNoMine width height slots ox oy = Ret ps →
  ps = [(ox, oy)].
Proof.
  intros Hmines Hv Heq.
  assert (∃ s, slots !! (ox, oy) = Some s ∧ hasMine s = false) as (s & Hs & Hm).
  { unfold touchingNoMine in Heq. destruct (slots !! (ox, oy)) as [s|]; [|done].
    destruct (hasMine s) eqn:Hm; [done|]. eauto. }
  pose proof (touchingNoMine_spec width height slots ox oy s Hv Hs Hm) as Hsp.
  rewrite Heq in Hsp. destruct Hsp as [[Hnd _ _ _] [k ->]].
  rewrite app_nil_l in Hnd. destruct k as [|p k]; [done|]. exfalso.
  assert (p ∈ [(ox, oy)] ++ p :: k) as Hin by (right; left).
  apply NoDup_cons in Hnd as [Hni _].
  destruct (floodReach_safe _ _ _ _ _ (touchingNoMine_sound _ _ _ _ _ _ Heq _ Hin))
    as [->|(Hg & sp & Hsp & Hmp & _)].
  - apply Hni. left.
  - destruct p as [px py]. pose proof (Hmines (px, py)) as Hc.
    unfold hasMineAt in Hc. rewrite Hsp, Hmp in Hc.
    destruct (decide ((px, py) = (ox, oy))) as [[= -> ->]|Hne]; [apply Hni; left|].
    discriminate Hc; [by apply elem_of_gridPositions|done].
Qed.

(** A click on a safe cell of an initialised board in play whose cells
    cover the grid: the fill returns, its cells are revealed, and the win
    test compares the new counter. *)
Lemma Main_click_fill rnd x y b :
  Main.fieldInited b = true → Main.state b = playing →
  isVaildPosition (Main.width b) (Main.height b) x y = true →
  coversGrid (Main.width b) (Main.height b) (Main.slots b) →
  hasMineAt (Main.slots b) (x, y) = false →
  ∃ ps evs slots',
    touchingNoMine (Main.width b) (Main.height b) (Main.slots b) x y = Ret ps ∧
    position <$> evs = ps ∧
    (∀ q, slots' !! q =
       if decide (q ∈ ps) then set_reveal true <$> Main.slots b !! q
       else Main.slots b !! q) ∧
    Main.click rnd x y b =
      let b2 := Main.set_revealCount (Main.revealCount b + Z.of_nat (length ps))
                  (Main.set_slots slots' b) in
      let b3 := if bool_decide (Main.revealCount b2 = Main.width b2 * Main.height b2 - Main.mineCount b2)
                then Main.set_state win b2 else b2 in
      (b3, Ret (Main.state b3, evs)).
Proof.
  intros Hi Hst Hv Hcov Hsafe.
  destruct (Main_initField_frame rnd x y b) as (_ & _ & _ & _ & _ & Hb).
  specialize (Hb Hi).
  pose proof (Main_click_cases rnd x y b) as Hc. cbn zeta in Hc. rewrite Hb in Hc.
  cbn [fst] in Hc. unfold hasMineAt in Hsafe.
  destruct Hc
    as [[Hv' _]|[_ [[_ Hn]|[(slot & Hs & Hm & _)|[(slot & Hs & Hm & Hp & _)
        |(slot & ps & slots' & evs & Hs & Hm & Hp & Ht & Hpos & _ & Hl & Hr)]]]]].
  - congruence.
  - done.
  - rewrite Hs in Hsafe. congruence.
  - done.
  - exists ps, evs, slots'. by split_and!.
Qed.

(** A click on a safe cell of an initialised board in play whose cells
    cover the grid: the fill returns, its cells are revealed, and the win
    test compares the new counter. *)
Lemma Part000_click_fill x y b :
  Part000.fieldInited b = true → Part000.state b = playing →
  isVaildPosition (Part000.width b) (Part000.height b) x y = true →
  coversGrid (Part000.width b) (Part000.height b) (Part000.slots b) →
  hasMineAt (Part000.slots b) (x, y) = false →
  ∃ ps evs slots',
    touchingNoMine (Part000.width b) (Part000.height b) (Part000.slots b) x y = Ret ps ∧
    position <$> evs = ps ∧
    (∀ q, slots' !! q =
       if decide (q ∈ ps) then set_reveal true <$> Part000.slots b !! q
       else Part000.slots b !! q) ∧
    Part000.click x y b =
      let b2 := Part000.set_revealCount (Part000.revealCount b + Z.of_nat (length ps))
                  (Part000.set_slots slots' b) in
      let b3 := if bool_decide (Part000.revealCount b2 = Part000.totalSpaceCount b2)
                then Part000.set_state win b2 else b2 in
      (b3, Ret (Part000.state b3, evs)).
Proof.
  intros Hi Hst Hv Hcov Hsafe.
  destruct (Part000_initField_frame x y b) as (_ & _ & _ & _ & _ & Hb).
  specialize (Hb Hi).
  pose proof (Part000_click_cases x y b) as Hc. cbn zeta in Hc. rewrite Hb in Hc.
  cbn [fst] in Hc. unfold hasMineAt in Hsafe.
  destruct Hc
    as [[Hv' _]|[_ [[_ Hn]|[(slot & Hs & Hm & _)|[(slot & Hs & Hm & Hp & _)
        |(slot & ps & slots' & evs & Hs & Hm & Hp & Ht & Hpos & _ & Hl & Hr)]]]]].
  - congruence.
  - done.
  - rewrite Hs in Hsafe. congruence.
  - done.
  - exists ps, evs, slots'. by split_and!.
Qed.

Lemma filter_unique {A} (P : A → Prop) `{!∀ a, Decision (P a)} (l : list A) c :
  NoDup l → c ∈ l → P c → (∀ a, a ∈ l → P a → a = c) →
  length (filter P l) = 1%nat.
Proof.
  induction l as [|a l IH]; intros Hnd Hc HPc Hu; [by apply elem_of_nil in Hc|].
  apply NoDup_cons in Hnd as [Hni Hnd].
  destruct (decide (P a)) as [HPa|HPa].
  - rewrite filter_cons_True by done. rewrite filter_none; [done|].
    intros b Hb HPb. apply Hni.
    rewrite (Hu a); [|left|done]. rewrite <- (Hu b); [done|by right|done].
  - rewrite filter_cons_False by done.
    apply IH; [done| |done|].
    + apply elem_of_cons in Hc as [->|Hc]; done.
    + intros b Hb. apply Hu. by right.
Qed.

(** The first in-bounds click on a fresh square board of main.ts is the
    click on the board [initField] leaves, which has exactly the grid's
    cells, none revealed, [mineCount] of them mined, the clicked one not. *)
Lemma Main_first_init_square rnd n mineCount x y :
  0 ≤ mineCount < n * n →
  isVaildPosition n n x y = true →
  ∃ b1,
    Main.click rnd x y (Main.mkMineBoard ∅ mineCount playing 0 n n false)
    = Main.click rnd x y b1 ∧
    Main.fieldInited b1 = true ∧ Main.state b1 = playing ∧
    Main.revealCount b1 = 0 ∧ Main.width b1 = n ∧ Main.height b1 = n ∧
    Main.mineCount b1 = mineCount ∧
    wellCounted n n (Main.slots b1) ∧ unrevealed (Main.slots b1) ∧
    gridMines n n (Main.slots b1) = mineCount ∧
    hasMineAt (Main.slots b1) (x, y) = false.
Proof.
  intros Hmc Hv. set (b := Main.mkMineBoard ∅ mineCount playing 0 n n false).
  pose proof (square_placed rnd n x y Hv) as Hperm. cbn zeta in Hperm.
  set (positions := Main.shuffle rnd _ _ ++ [(x, y)]) in Hperm.
  set (slots1 := Main.placeMines mineCount 0 positions ∅).
  assert (∀ p, is_Some (slots1 !! p) ↔ p ∈ gridPositions n n) as Hdom.
  { intros p. unfold slots1. rewrite placeMines_is_Some, Hperm, lookup_empty.
    split; [intros [?|[? ?]]; done|by left]. }
  destruct (initNearbyMine_wellCounted n n slots1) as (slots' & Heq & Hwc & Hf).
  { intros x' y' Hv'. by apply Hdom, elem_of_gridPositions. }
  { intros x' y' Hs. by apply elem_of_gridPositions, Hdom. }
  assert (∀ p, hasMineAt slots' p = hasMineAt slots1 p) as Hm.
  { intros p. destruct (Hf p) as [Hp _]. unfold hasMineAt.
    destruct (slots' !! p), (slots1 !! p); by simplify_eq/=. }
  set (b1 := Main.set_slots slots'
               (Main.set_slots slots1 (Main.set_fieldInited true b))).
  assert (Main.initField rnd x y b = (b1, Ret tt)) as Hinit.
  { unfold Main.initField, b1, b.
    cbn [Main.fieldInited Main.width Main.height Main.mineCount Main.slots
         Main.set_slots Main.set_fieldInited].
    cbn zeta. fold positions. fold slots1. by rewrite Heq. }
  exists b1. split_and!; try done.
  - by apply Main_click_after_init.
  - pose proof (Main_initField_unrevealed rnd x y b eq_refl eq_refl) as Hun.
    by rewrite Hinit in Hun.
  - unfold gridMines. cbn [b1 Main.slots Main.set_slots]. rewrite <- Hperm.
    rewrite (list_filter_iff _ (λ p, hasMineAt slots1 p = true))
      by (intros p; by rewrite Hm).
    unfold slots1. rewrite placeMines_count, count_below.
    2:{ rewrite Hperm. apply NoDup_gridPositions. }
    rewrite Hperm, length_gridPositions.
    apply isVaildPosition_true in Hv. nia.
  - cbn [b1 Main.slots Main.set_slots]. rewrite Hm. unfold hasMineAt, slots1, positions.
    rewrite placeMines_last. simpl. apply Z.ltb_ge.
    apply Permutation_length in Hperm. unfold positions in Hperm.
    rewrite length_app, length_gridPositions in Hperm. simpl in Hperm.
    apply isVaildPosition_true in Hv. nia.
Qed.

(** X12. The reveal events of a click that returns, on any board of either
    revision: the list is empty or starts with the clicked cell; every
    event names an in-bounds cell that holds no mine, is revealed on the
    board the click leaves, and stores the count the event carries; every
    cell not named is as [initField] left it; and on a board in play, unless
    the click reports [dead], the cells named are exactly those the flood
    fill reaches from the clicked cell. *)
Theorem reveal_events_sound :
  (∀ rnd x y b st evs,
     (Main.click rnd x y b).2 = Ret (st, evs) →
     let b1 := (Main.initField rnd x y b).1 in
     let b' := (Main.click rnd x y b).1 in
     (evs = [] ∨ head (position <$> evs) = Some (x, y)) ∧
     (∀ ev, ev ∈ evs →
        inGrid (Main.width b) (Main.height b) (position ev) ∧
        ∃ s, Main.slots b' !! position ev = Some s ∧ hasMine s = false ∧
             reveal s = true ∧ nearbyMine s = ev_nearbyMine ev) ∧
     (∀ q, q ∉ position <$> evs → Main.slots b' !! q = Main.slots b1 !! q) ∧
     (Main.state b = playing → st ≠ dead →
      ∀ p, p ∈ position <$> evs
           ↔ floodReach (Main.width b) (Main.height b) (Main.slots b1) (x, y) p)) ∧
  (∀ x y b st evs,
     (Part000.click x y b).2 = Ret (st, evs) →
     let b1 := (Part000.initField x y b).1 in
     let b' := (Part000.click x y b).1 in
     (evs = [] ∨ head (position <$> evs) = Some (x, y)) ∧
     (∀ ev, ev ∈ evs →
        inGrid (Part000.width b) (Part000.height b) (position ev) ∧
        ∃ s, Part000.slots b' !! position ev = Some s ∧ hasMine s = false ∧
             reveal s = true ∧ nearbyMine s = ev_nearbyMine ev) ∧
     (∀ q, q ∉ position <$> evs → Part000.slots b' !! q = Part000.slots b1 !! q) ∧
     (Part000.state b = playing → st ≠ dead →
      ∀ p, p ∈ position <$> evs
           ↔ floodReach (Part000.width b) (Part000.height b) (Part000.slots b1)
               (x, y) p)).
Proof.
  split.
  - intros rnd x y b st evs. apply Main_click_events.
  - intros x y b st evs. apply Part000_click_events.
Qed.

Lemma reveal_events_sound_witness :
  [{| position := (0, 0); ev_nearbyMine := 1 |}] = [] ∨
  head (position <$> [{| position := (0, 0); ev_nearbyMine := 1 |}]) = Some (0, 0).
Proof.
  refine (proj1
    (proj1 reveal_events_sound (λ _, 0%nat) 0 0 board_2x2 playing
       [{| position := (0, 0); ev_nearbyMine := 1 |}] _)).
  reflexivity.
Defined.

(** X13. On every board a caller can hold, the reveals are closed under
    the fill: each in-bounds neighbour of a revealed cell whose count is not
    positive holds a cell that has a mine or is revealed. In part_000, where
    the counts are always those of the in-bounds neighbours, such a
    neighbour has no mine and is revealed. *)
Theorem revealed_zero_cells_closed :
  (∀ b q sq d,
     Main_reachable b →
     Main.slots b !! q = Some sq → reveal sq = true → nearbyMine sq ≤ 0 →
     d ∈ deltaMap → inGrid (Main.width b) (Main.height b) (d.1 + q.1, d.2 + q.2) →
     ∃ s, Main.slots b !! (d.1 + q.1, d.2 + q.2) = Some s ∧
          (hasMine s = true ∨ reveal s = true)) ∧
  (∀ b q sq d,
     Part000_reachable b →
     Part000.slots b !! q = Some sq → reveal sq = true → nearbyMine sq ≤ 0 →
     d ∈ deltaMap →
     inGrid (Part000.width b) (Part000.height b) (d.1 + q.1, d.2 + q.2) →
     ∃ s, Part000.slots b !! (d.1 + q.1, d.2 + q.2) = Some s ∧
          hasMine s = false ∧ reveal s = true).
Proof.
  split.
  - intros b q sq d Hr Hs Hrev Hn Hd Hg.
    destruct (Main_reachable_closed b Hr) as [Hcl _].
    destruct (Hcl q sq Hs Hrev) as [?|Hset]; [lia|].
    destruct (Hset d Hd Hg) as (s & Hs' & [?|[?|[]%elem_of_nil]]); eauto.
  - intros b [i j] sq d Hr Hs Hrev Hn Hd Hg.
    pose proof (Part000_reachable_closed b Hr) as Hcl.
    destruct (Hcl (i, j) sq Hs Hrev) as [?|Hset]; [lia|].
    destruct (Hset d Hd Hg) as (s & Hs' & Hor). exists s. split; [done|].
    destruct (Part000_reachable_wellCounted b Hr) as [(_ & He & _)|(_ & _ & _ & Hcnt)].
    { by rewrite He, lookup_empty in Hs. }
    assert (hasMine s = false) as Hm.
    { destruct (hasMine s) eqn:Hm; [exfalso|done].
      pose proof (Hcnt i j sq Hs) as Hc. unfold inBoundsMineNeighbours in Hc.
      assert (d ∈ filter
                (λ d, isVaildPosition (Part000.width b) (Part000.height b)
                        (i + d.1) (j + d.2) = true
                      ∧ hasMineAt (Part000.slots b) (i + d.1, j + d.2) = true)
                deltaMap) as Hin.
      { apply list_elem_of_filter. split; [|done]. unfold inGrid in Hg. simpl in *.
        rewrite (Z.add_comm i), (Z.add_comm j). split; [done|].
        unfold hasMineAt. by rewrite Hs'. }
      destruct (filter _ deltaMap); [by apply elem_of_nil in Hin|].
      simpl in Hc. lia. }
    split; [done|]. destruct Hor as [?|[?|[]%elem_of_nil]]; [congruence|done].
Qed.

Lemma revealed_zero_cells_closed_witness :
  ∃ s, Part000.slots (Part000.click 2 2
                        (Part000.constructor (λ _ _, false) 5 5 None)).1
         !! ((1, 0).1 + (0, 0).1, (1, 0).2 + (0, 0).2) = Some s ∧
       hasMine s = false ∧ reveal s = true.
Proof.
  refine (proj2 revealed_zero_cells_closed
            (Part000.click 2 2 (Part000.constructor (λ _ _, false) 5 5 None)).1
            (0, 0) {| hasMine := false; nearbyMine := 0; reveal := true |} (1, 0)
            _ _ _ _ _ _).
  - apply Part000_reach_click, Part000_reach_new.
  - reflexivity.
  - reflexivity.
  - simpl. lia.
  - unfold deltaMap. do 6 right. left.
  - reflexivity.
Defined.

(** X14. A board without mines is won by its first click, which reveals
    every cell: on a square board of main.ts built with mine count 0, and
    on any board of part_000 whose predicate is constantly false, the first
    in-bounds click returns [win] with one event for each cell of the grid,
    and leaves [revealCount] at the number of cells. *)
Theorem no_mines_first_click :
  (∀ rnd n x y, isVaildPosition n n x y = true →
     ∃ b, Main.constructor n n (inl 0) = Ret b ∧
       let r := Main.click rnd x y b in
       ∃ evs, r.2 = Ret (win, evs) ∧ Main.state r.1 = win ∧
         position <$> evs ≡ₚ gridPositions n n ∧
         Main.revealCount r.1 = n * n ∧
         ∀ p, p ∈ gridPositions n n → revealedAt (Main.slots r.1) p = true) ∧
  (∀ coin width height x y, isVaildPosition width height x y = true →
     let r := Part000.click x y
                (Part000.constructor coin width height (Some (λ _ _, false))) in
     ∃ evs, r.2 = Ret (win, evs) ∧ Part000.state r.1 = win ∧
       position <$> evs ≡ₚ gridPositions width height ∧
       Part000.revealCount r.1 = width * height ∧
       ∀ p, p ∈ gridPositions width height →
            revealedAt (Part000.slots r.1) p = true).
Proof.
  split.
  - intros rnd n x y Hv.
    assert (0 ≤ 0 < n * n) as Hmc by (apply isVaildPosition_true in Hv; nia).
    exists (Main.mkMineBoard ∅ 0 playing 0 n n false). split.
    { unfold Main.constructor. destruct (Z.geb_spec 0 (n * n)); [lia|done]. }
    cbn zeta.
    destruct (Main_first_init_square rnd n 0 x y Hmc Hv)
      as (b1 & -> & Hi & Hst & Hrc & Hw & Hh & Hm & Hwc & Hun & Hgm & Hsafe).
    assert (∀ x' y', isVaildPosition n n x' y' = true →
              hasMineAt (Main.slots b1) (x', y') = false) as Hnone.
    { intros x' y' Hv'. destruct (hasMineAt (Main.slots b1) (x', y')) eqn:Hc; [|done].
      unfold gridMines in Hgm.
      assert ((x', y') ∈ filter (λ p, hasMineAt (Main.slots b1) p = true)
                           (gridPositions n n)) as Hin.
      { apply list_elem_of_filter. split; [done|by apply elem_of_gridPositions]. }
      destruct (filter _ (gridPositions n n)); [by apply elem_of_nil in Hin|].
      simpl in Hgm. lia. }
    destruct (Main_click_fill rnd x y b1) as (ps & evs & slots' & Ht & Hpos & Hl & ->);
      rewrite ?Hw, ?Hh; [done..|by destruct Hwc|done|].
    rewrite Hw, Hh in Ht.
    pose proof (fill_no_mines n n _ x y ps Hwc Hun Hnone Hv Ht) as Hperm.
    assert (Z.of_nat (length ps) = n * n) as Hlen.
    { rewrite Hperm. by eapply grid_cells. }
    cbn zeta.
    cbn [Main.revealCount Main.set_revealCount Main.set_slots Main.width
         Main.height Main.mineCount].
    rewrite Hrc, Hw, Hh, Hm, Hlen. rewrite bool_decide_eq_true_2 by lia.
    exists evs. cbn [fst snd Main.state Main.set_state Main.revealCount Main.slots].
    split_and!; [done|done|by rewrite Hpos|simpl; lia|].
    intros p Hp. unfold revealedAt. rewrite Hl.
    rewrite decide_True by (by rewrite Hperm).
    destruct p as [px py]. apply elem_of_gridPositions in Hp.
    destruct Hwc as (Hcov & _). by destruct (Hcov px py Hp) as [s ->].
  - intros coin width height x y Hv. cbn zeta.
    set (b := Part000.constructor coin width height (Some (λ _ _, false))).
    destruct (Part000_first_init x y b eq_refl eq_refl eq_refl Hv)
      as (b1 & -> & Hi & Hst & Hrc & Hw & Hh & Hwc & Hun & Hmines & Htot).
    cbn [b Part000.constructor Part000.width Part000.height Part000.state
         Part000.revealCount Part000.randomer] in *.
    assert (∀ x' y', isVaildPosition width height x' y' = true →
              hasMineAt (Part000.slots b1) (x', y') = false) as Hnone.
    { intros x' y' Hv'. rewrite Hmines by done. unfold drawnMine.
      by case_bool_decide. }
    destruct (Part000_click_fill x y b1) as (ps & evs & slots' & Ht & Hpos & Hl & ->);
      rewrite ?Hw, ?Hh; [done..|by destruct Hwc|by apply Hnone|].
    rewrite Hw, Hh in Ht.
    pose proof (fill_no_mines width height _ x y ps Hwc Hun Hnone Hv Ht) as Hperm.
    assert (Z.of_nat (length ps) = width * height) as Hlen.
    { rewrite Hperm. by eapply grid_cells. }
    assert (Part000.totalSpaceCount b1 = width * height) as Htot'.
    { rewrite Htot. unfold gridSafe. rewrite filter_all; [by eapply grid_cells|].
      intros [px py] Hp. by apply Hnone, elem_of_gridPositions. }
    cbn zeta.
    cbn [Part000.revealCount Part000.set_revealCount Part000.set_slots
         Part000.totalSpaceCount].
    rewrite Hrc, Htot', Hlen. rewrite bool_decide_eq_true_2 by lia.
    exists evs.
    cbn [fst snd Part000.state Part000.set_state Part000.revealCount Part000.slots].
    split_and!; [done|done|by rewrite Hpos|simpl; lia|].
    intros p Hp. unfold revealedAt. rewrite Hl.
    rewrite decide_True by (by rewrite Hperm).
    destruct p as [px py]. apply elem_of_gridPositions in Hp.
    destruct Hwc as (Hcov & _). by destruct (Hcov px py Hp) as [s ->].
Qed.

Lemma no_mines_first_click_witness :
  ∃ evs, (Part000.click 2 2
            (Part000.constructor (λ _ _, true) 5 5 (Some (λ _ _, false)))).2
         = Ret (win, evs) ∧
         length evs = 25%nat.
Proof.
  destruct (proj2 no_mines_first_click (λ _ _, true) 5 5 2 2 eq_refl)
    as (evs & Hr & _ & Hperm & _).
  exists evs. split; [exact Hr|].
  apply Permutation_length in Hperm. by rewrite length_fmap in Hperm.
Defined.

(** X15. A board with a single safe cell is won by its first click, which
    reveals that cell alone: on a square board of main.ts built with mine
    count [n * n - 1], and on any board of part_000 whose predicate is
    constantly true, the first in-bounds click returns [win] with the one
    event of the clicked cell. *)
Theorem one_safe_cell_first_click :
  (∀ rnd n x y, isVaildPosition n n x y = true →
     ∃ b, Main.constructor n n (inl (n * n - 1)) = Ret b ∧
       let r := Main.click rnd x y b in
       ∃ ev, r.2 = Ret (win, [ev]) ∧ position ev = (x, y) ∧
         Main.state r.1 = win ∧ Main.revealCount r.1 = 1) ∧
  (∀ coin width height x y, isVaildPosition width height x y = true →
     let r := Part000.click x y
                (Part000.constructor coin width height (Some (λ _ _, true))) in
     ∃ ev, r.2 = Ret (win, [ev]) ∧ position ev = (x, y) ∧
       Part000.state r.1 = win ∧ Part000.revealCount r.1 = 1).
Proof.
  split.
  - intros rnd n x y Hv.
    assert (0 ≤ n * n - 1 < n * n) as Hmc by (apply isVaildPosition_true in Hv; nia).
    exists (Main.mkMineBoard ∅ (n * n - 1) playing 0 n n false). split.
    { unfold Main.constructor. destruct (Z.geb_spec (n * n - 1) (n * n)); [lia|done]. }
    cbn zeta.
    destruct (Main_first_init_square rnd n (n * n - 1) x y Hmc Hv)
      as (b1 & -> & Hi & Hst & Hrc & Hw & Hh & Hm & Hwc & Hun & Hgm & Hsafe).
    assert (gridSafe n n (Main.slots b1) = 1) as Hone.
    { pose proof (gridSafe_gridMines n n (Main.slots b1)) as Hsum.
      rewrite (grid_cells n n x y Hv) in Hsum. lia. }
    destruct (Main_click_fill rnd x y b1) as (ps & evs & slots' & Ht & Hpos & Hl & ->);
      rewrite ?Hw, ?Hh; [done..|by destruct Hwc|done|].
    rewrite Hw, Hh in Ht.
    pose proof (fill_single_safe n n _ x y ps
                  (one_safe_cell n n _ x y Hv Hsafe Hone) Hv Ht) as ->.
    destruct evs as [|ev [|ev' evs]]; try done. injection Hpos as Hpos.
    cbn zeta.
    cbn [Main.revealCount Main.set_revealCount Main.set_slots Main.width
         Main.height Main.mineCount length].
    rewrite Hrc, Hw, Hh, Hm. rewrite bool_decide_eq_true_2 by lia.
    exists ev. cbn [fst snd Main.state Main.set_state Main.revealCount].
    split_and!; done.
  - intros coin width height x y Hv. cbn zeta.
    set (b := Part000.constructor coin width height (Some (λ _ _, true))).
    destruct (Part000_first_init x y b eq_refl eq_refl eq_refl Hv)
      as (b1 & -> & Hi & Hst & Hrc & Hw & Hh & Hwc & Hun & Hmines & Htot).
    cbn [b Part000.constructor Part000.width Part000.height Part000.state
         Part000.revealCount Part000.randomer] in *.
    assert (∀ p, p ∈ gridPositions width height →
              hasMineAt (Part000.slots b1) p = false ↔ p = (x, y)) as Hiff.
    { intros [px py] Hp%elem_of_gridPositions. rewrite Hmines by done.
      unfold drawnMine. by case_bool_decide. }
    assert (Part000.totalSpaceCount b1 = 1) as Htot'.
    { rewrite Htot. unfold gridSafe.
      rewrite (filter_unique _ _ (x, y)); [done|apply NoDup_gridPositions| | |].
      - by apply elem_of_gridPositions.
      - by apply Hiff; [apply elem_of_gridPositions|].
      - intros p Hp. by apply Hiff. }
    assert (hasMineAt (Part000.slots b1) (x, y) = false) as Hsafe.
    { by apply Hiff; [apply elem_of_gridPositions|]. }
    destruct (Part000_click_fill x y b1) as (ps & evs & slots' & Ht & Hpos & Hl & ->);
      rewrite ?Hw, ?Hh; [done..|by destruct Hwc|done|].
    rewrite Hw, Hh in Ht.
    assert (ps = [(x, y)]) as ->.
    { apply (fill_single_safe width height (Part000.slots b1)); [|done..].
      intros p Hp Hne. destruct (hasMineAt (Part000.slots b1) p) eqn:Hc; [done|].
      by apply Hiff in Hc. }
    destruct evs as [|ev [|ev' evs]]; try done. injection Hpos as Hpos.
    cbn zeta.
    cbn [Part000.revealCount Part000.set_revealCount Part000.set_slots
         Part000.totalSpaceCount length].
    rewrite Hrc, Htot'. rewrite bool_decide_eq_true_2 by lia.
    exists ev. cbn [fst snd Part000.state Part000.set_state Part000.revealCount].
    split_and!; done.
Qed.

Lemma one_safe_cell_first_click_witness :
  ∃ b, Main.constructor 5 5 (inl (5 * 5 - 1)) = Ret b ∧
    ∃ ev, (Main.click (λ k, k) 2 2 b).2 = Ret (win, [ev]).
Proof.
  destruct (proj1 one_safe_cell_first_click (λ k, k) 5 2 2 eq_refl)
    as (b & Hb & ev & Hr & _).
  exists b. split; [exact Hb|]. by exists ev.
Defined.

(** ** The counts a board stores *)

Lemma nearByMine_bounds slots i j : 0 ≤ nearByMine slots i j ≤ 8.
Proof.
  unfold nearByMine. rewrite nearByMine_count_from.
  pose proof (length_filter (λ d, hasMineAt slots (i + d.1, j + d.2) = true)
                deltaMap) as H.
  change (length deltaMap) with 8%nat in H. lia.
Qed.

Lemma countsBounded_sameCells slots slots' :
  sameCells slots slots' → countsBounded slots → countsBounded slots'.
Proof.
  intros Hsame Hb q s Hs. destruct (Hsame q) as [_ Hn]. rewrite Hs in Hn.
  destruct (slots !! q) as [s0|] eqn:Hs0; [|done]. injection Hn as ->.
  by apply (Hb q s0).
Qed.

Lemma wellCounted_countsBounded width height slots :
  wellCounted width height slots → countsBounded slots.
Proof.
  intros (_ & _ & Hcnt) [x y] s Hs. rewrite (Hcnt x y s Hs).
  unfold inBoundsMineNeighbours.
  pose proof (length_filter
    (λ d, isVaildPosition width height (x + d.1) (y + d.2) = true
          ∧ hasMineAt slots (x + d.1, y + d.2) = true) deltaMap) as H.
  change (length deltaMap) with 8%nat in H. lia.
Qed.

Lemma forEach_setNearbyMine_bounded ps slots :
  countsBounded slots →
  countsBounded (forEach ps (λ p, setNearbyMine p.1 p.2) slots).1.
Proof.
  revert slots. induction ps as [|[i j] ps IH]; intros slots Hb; [done|].
  cbn [forEach fst snd].
  assert (countsBounded (setNearbyMine i j slots).1) as Hb1.
  { intros q s. rewrite setNearbyMine_lookup. case_decide; [|apply Hb].
    destruct (slots !! q); [|done]. intros [= <-]. simpl.
    apply nearByMine_bounds. }
  specialize (IH _ Hb1).
  destruct (setNearbyMine i j slots) as [s1 [[]| |]]; done.
Qed.

Lemma initNearbyMine_bounded width height slots :
  countsBounded slots → countsBounded (initNearbyMine width height slots).1.
Proof.
  intros Hb. unfold initNearbyMine. rewrite forEach_grid.
  by apply forEach_setNearbyMine_bounded.
Qed.

Lemma placeMines_bounded mineCount i positions slots :
  countsBounded slots → countsBounded (Main.placeMines mineCount i positions slots).
Proof.
  revert i slots. induction positions as [|p ps IH]; intros i slots Hb; [done|].
  apply IH. intros q s. destruct (decide (q = p)) as [->|Hne].
  - rewrite lookup_insert_eq. intros [= <-]. simpl. lia.
  - rewrite lookup_insert_ne by done. apply Hb.
Qed.

Lemma Main_initField_bounded rnd x y b :
  countsBounded (Main.slots b) →
  countsBounded (Main.slots (Main.initField rnd x y b).1).
Proof.
  intros Hb. unfold Main.initField. destruct (Main.fieldInited b); [done|].
  cbn zeta.
  cbn [Main.width Main.height Main.mineCount Main.slots Main.set_slots
       Main.set_fieldInited].
  set (placed := Main.placeMines _ _ _ _).
  pose proof (initNearbyMine_bounded (Main.width b) (Main.height b) placed
                (placeMines_bounded _ _ _ _ Hb)) as H.
  by destruct (initNearbyMine _ _ placed).
Qed.

Lemma Main_reachable_bounded b : Main_reachable b → countsBounded (Main.slots b).
Proof.
  induction 1 as [width height [mineCount|layout] b Hc|rnd x y b Hr IH].
  - unfold Main.constructor in Hc. destruct (mineCount >=? width * height); [done|].
    injection Hc as <-. intros q s. simpl. by rewrite lookup_empty.
  - destruct (Main_constructor_layout width height layout) as (slots & Heq & Hwc & _).
    cbn zeta in Heq. rewrite Heq in Hc. injection Hc as <-.
    by eapply wellCounted_countsBounded.
  - destruct (isVaildPosition (Main.width b) (Main.height b) x y) eqn:Hv.
    2:{ by rewrite Main_click_invalid. }
    pose proof (Main_initField_bounded rnd x y b IH) as Hb1.
    destruct (Main_click_via_initField rnd x y b Hv) as [->| ->]; [done|].
    destruct (Main_click_keeps rnd x y (Main.initField rnd x y b).1)
      as (_ & _ & _ & _ & Hsame); [apply Main_initField_fieldInited|].
    by eapply countsBounded_sameCells.
Qed.

Lemma Part000_reachable_bounded b :
  Part000_reachable b → countsBounded (Part000.slots b).
Proof.
  intros Hr.
  destruct (Part000_reachable_wellCounted b Hr) as [(_ & -> & _)|(_ & Hwc)].
  - intros q s. by rewrite lookup_empty.
  - by eapply wellCounted_countsBounded.
Qed.

(** X16. No count exceeds 8: [nearByMine] returns a number between 0 and
    8 for any cells and any position, so on every board a caller can hold,
    in either revision, every stored [nearbyMine] is between 0 and 8, and
    so is the count carried by every reveal event a click returns. *)
Theorem counts_between_0_and_8 :
  (∀ slots i j, 0 ≤ nearByMine slots i j ≤ 8) ∧
  (∀ b, Main_reachable b →
     countsBounded (Main.slots b) ∧
     ∀ rnd x y st evs, (Main.click rnd x y b).2 = Ret (st, evs) →
       ∀ ev, ev ∈ evs → 0 ≤ ev_nearbyMine ev ≤ 8) ∧
  (∀ b, Part000_reachable b →
     countsBounded (Part000.slots b) ∧
     ∀ x y st evs, (Part000.click x y b).2 = Ret (st, evs) →
       ∀ ev, ev ∈ evs → 0 ≤ ev_nearbyMine ev ≤ 8).
Proof.
  split_and!.
  - apply nearByMine_bounds.
  - intros b Hr. split; [by apply Main_reachable_bounded|].
    intros rnd x y st evs Hc ev Hev.
    destruct (Main_click_events rnd x y b st evs Hc) as (_ & He & _).
    destruct (He ev Hev) as (_ & s & Hs & _ & _ & <-).
    apply (Main_reachable_bounded (Main.click rnd x y b).1 (Main_reach_click _ _ _ _ Hr)
             _ _ Hs).
  - intros b Hr. split; [by apply Part000_reachable_bounded|].
    intros x y st evs Hc ev Hev.
    destruct (Part000_click_events x y b st evs Hc) as (_ & He & _).
    destruct (He ev Hev) as (_ & s & Hs & _ & _ & <-).
    apply (Part000_reachable_bounded (Part000.click x y b).1
             (Part000_reach_click _ _ _ Hr) _ _ Hs).
Qed.

Lemma counts_between_0_and_8_witness :
  countsBounded (Main.slots (Main.click (λ _, 0%nat) 0 0 board_2x2).1).
Proof.
  refine (proj1 (proj1 (proj2 counts_between_0_and_8) _ _)).
  apply Main_reach_click. by apply (Main_reach_new 5 5 (inr layout_2x2)).
Defined.

(** ** Reading a layout *)

Lemma trimStart_spec s :
  ∃ pre, s = pre ++ Main.trimStart s ∧
    (∀ c, c ∈ pre → Main.isWhiteSpace c = true) ∧
    ∀ c rest, Main.trimStart s = c :: rest → Main.isWhiteSpace c = false.
Proof.
  induction s as [|c s (pre & Heq & Hpre & Hhd)].
  { exists []. split_and!; [done| |done]. by intros c ?%elem_of_nil. }
  cbn [Main.trimStart]. destruct (Main.isWhiteSpace c) eqn:Hc.
  - exists (c :: pre). split_and!; [by rewrite Heq at 1| |done].
    intros c' [->|?]%elem_of_cons; auto.
  - exists []. split_and!; [done| |].
    + by intros c' ?%elem_of_nil.
    + by intros c' rest [= <- _].
Qed.

Lemma trim_spec s :
  ∃ pre post, s = pre ++ Main.trim s ++ post ∧
    (∀ c, c ∈ pre → Main.isWhiteSpace c = true) ∧
    (∀ c, c ∈ post → Main.isWhiteSpace c = true) ∧
    (∀ c rest, Main.trim s = c :: rest → Main.isWhiteSpace c = false) ∧
    (∀ c rest, Main.trim s = rest ++ [c] → Main.isWhiteSpace c = false).
Proof.
  unfold Main.trim.
  destruct (trimStart_spec s) as (pre & Hs & Hpre & Hhd).
  destruct (trimStart_spec (reverse (Main.trimStart s))) as (pre2 & Hr & Hpre2 & Hhd2).
  set (u := Main.trimStart s) in *. set (v := Main.trimStart (reverse u)) in *.
  assert (u = reverse v ++ reverse pre2) as Hu.
  { rewrite <- reverse_app, <- Hr. by rewrite reverse_involutive. }
  exists pre, (reverse pre2). split_and!.
  - by rewrite <- Hu.
  - done.
  - intros c Hc. apply Hpre2. by apply elem_of_reverse.
  - intros c rest Hv. rewrite Hv in Hu. by apply (Hhd c (rest ++ reverse pre2)).
  - intros c rest Hv. apply (Hhd2 c (reverse rest)).
    rewrite <- (reverse_involutive v), Hv, reverse_app. done.
Qed.

Lemma lineFeeds_cons c s :
  lineFeeds (c :: s)
  = if (N_of_ascii c =? 10)%N then S (lineFeeds s) else lineFeeds s.
Proof.
  unfold lineFeeds. rewrite filter_cons.
  destruct (N.eqb_spec (N_of_ascii c) 10); by case_decide.
Qed.

Lemma splitLines_length cur s : length (Main.splitLines cur s) = S (lineFeeds s).
Proof.
  revert cur. induction s as [|c s IH]; intros cur; [done|].
  cbn [Main.splitLines]. rewrite lineFeeds_cons.
  destruct (N_of_ascii c =? 10)%N; [|apply IH]. cbn [length]. by rewrite IH.
Qed.

Lemma splitLines_join cur s : joinLines (Main.splitLines cur s) = reverse cur ++ s.
Proof.
  revert cur. induction s as [|c s IH]; intros cur.
  { cbn. by rewrite app_nil_r. }
  cbn [Main.splitLines]. destruct (N.eqb_spec (N_of_ascii c) 10) as [Hc|Hc].
  - pose proof (IH []) as Hj. pose proof (splitLines_nonempty [] s) as Hne.
    cbn [joinLines]. destruct (Main.splitLines [] s) as [|piece rest]; [done|].
    rewrite Hj. rewrite <- (ascii_N_embedding c), Hc. done.
  - rewrite IH, reverse_cons, <- app_assoc. done.
Qed.

Lemma splitLines_pieces cur s piece c :
  (∀ c, c ∈ cur → N_of_ascii c ≠ 10%N) →
  piece ∈ Main.splitLines cur s → c ∈ piece → N_of_ascii c ≠ 10%N.
Proof.
  revert cur. induction s as [|c' s IH]; intros cur Hcur; cbn [Main.splitLines].
  { intros ->%list_elem_of_singleton Hc. rewrite elem_of_reverse in Hc. by apply Hcur. }
  destruct (N.eqb_spec (N_of_ascii c') 10) as [Hc'|Hc'].
  - intros [->|Hin]%elem_of_cons.
    + intros Hc. rewrite elem_of_reverse in Hc. by apply Hcur.
    + apply (IH []); [|done]. by intros ? ?%elem_of_nil.
  - apply IH. intros c0 [->|?]%elem_of_cons; auto.
Qed.

Lemma splitSpaces_tokens inRun cur s tok c :
  (∀ c, c ∈ cur → Main.isWhiteSpace c = false) →
  tok ∈ Main.splitSpaces inRun cur s → c ∈ tok → Main.isWhiteSpace c = false.
Proof.
  revert inRun cur. induction s as [|c' s IH]; intros inRun cur Hcur;
    cbn [Main.splitSpaces].
  { intros ->%list_elem_of_singleton Hc. rewrite elem_of_reverse in Hc. by apply Hcur. }
  destruct (Main.isWhiteSpace c') eqn:Hc'.
  - destruct inRun; [by apply IH|].
    intros [->|Hin]%elem_of_cons.
    + intros Hc. rewrite elem_of_reverse in Hc. by apply Hcur.
    + apply (IH true []); [|done]. by intros ? ?%elem_of_nil.
  - apply IH. intros c0 [->|?]%elem_of_cons; auto.
Qed.

Lemma splitSpaces_nonempty inRun cur s : Main.splitSpaces inRun cur s ≠ [].
Proof.
  revert inRun cur. induction s as [|c s IH]; intros inRun cur; [done|].
  cbn [Main.splitSpaces]. destruct (Main.isWhiteSpace c); [|apply IH].
  destruct inRun; [apply IH|done].
Qed.

(** X17. Reading a layout (main.ts constructor). [trim] removes exactly a
    white-space prefix and a white-space suffix, and what it returns neither
    starts nor ends with white space. Splitting at line feeds gives one
    piece more than there are line feeds, no piece holds a line feed, and
    joining the pieces with line feeds gives the string back. Every row has
    at least one token and no token holds white space. So a board built from
    a layout, whatever the string, has a width and a height of at least 1. *)
Theorem layout_parsing :
  (∀ s, ∃ pre post, s = pre ++ Main.trim s ++ post ∧
     (∀ c, c ∈ pre → Main.isWhiteSpace c = true) ∧
     (∀ c, c ∈ post → Main.isWhiteSpace c = true) ∧
     (∀ c rest, Main.trim s = c :: rest → Main.isWhiteSpace c = false) ∧
     (∀ c rest, Main.trim s = rest ++ [c] → Main.isWhiteSpace c = false)) ∧
  (∀ s, length (Main.splitLines [] s) = S (lineFeeds s) ∧
     joinLines (Main.splitLines [] s) = s ∧
     ∀ piece c, piece ∈ Main.splitLines [] s → c ∈ piece → N_of_ascii c ≠ 10%N) ∧
  (∀ layout,
     let rows := Main.parseRows layout in
     length rows = S (lineFeeds (Main.trim (list_ascii_of_string layout))) ∧
     ∀ row, row ∈ rows →
       row ≠ [] ∧ ∀ tok c, tok ∈ row → c ∈ tok → Main.isWhiteSpace c = false) ∧
  (∀ width height layout b,
     Main.constructor width height (inr layout) = Ret b →
     1 ≤ Main.width b ∧ 1 ≤ Main.height b).
Proof.
  split_and!.
  - apply trim_spec.
  - intros s. split_and!.
    + apply splitLines_length.
    + apply splitLines_join.
    + intros piece c. apply splitLines_pieces. by intros ? ?%elem_of_nil.
  - intros layout. cbn zeta. unfold Main.parseRows. split.
    + by rewrite length_fmap, splitLines_length.
    + intros row (line & -> & _)%list_elem_of_fmap. split.
      * apply splitSpaces_nonempty.
      * intros tok c. apply splitSpaces_tokens. by intros ? ?%elem_of_nil.
  - intros width height layout b Hb.
    destruct (Main_constructor_layout width height layout) as (slots & Heq & _).
    cbn zeta in Heq. rewrite Heq in Hb. injection Hb as <-.
    cbn [Main.width Main.height].
    destruct (parseRows_nonempty layout) as (first & rest & Hrows).
    assert (first ≠ []) as Hne.
    { assert (first ∈ Main.parseRows layout) as Hin by (rewrite Hrows; left).
      unfold Main.parseRows in Hin.
      apply list_elem_of_fmap in Hin as (line & -> & _). apply splitSpaces_nonempty. }
    rewrite Hrows. destruct first; [done|]. simpl. lia.
Qed.

Lemma layout_parsing_witness :
  1 ≤ Main.width board_2x2 ∧ 1 ≤ Main.height board_2x2.
Proof.
  apply (proj2 (proj2 (proj2 layout_parsing)) 5 5 layout_2x2 board_2x2).
  reflexivity.
Defined.

(** ** The orders the shuffle can produce *)

Lemma shuffle_ext rnd rnd' i positions :
  (∀ k, (1 ≤ k ≤ i)%nat → rnd k = rnd' k) →
  Main.shuffle rnd i positions = Main.shuffle rnd' i positions.
Proof.
  revert positions. induction i as [|i IH]; intros positions Hk; [done|].
  cbn [Main.shuffle]. rewrite (Hk (S i)) by lia. apply IH. intros k ?. apply Hk. lia.
Qed.

Lemma swap_lookup positions i j pi pj :
  positions !! i = Some pi → positions !! j = Some pj →
  Main.swap positions i j !! i = Some pj.
Proof.
  intros Hi Hj. unfold Main.swap. rewrite Hi, Hj.
  destruct (decide (i = j)) as [->|Hne].
  - rewrite list_lookup_insert_eq; [congruence|].
    rewrite length_insert. by eapply lookup_lt_Some.
  - rewrite list_lookup_insert_ne by done.
    apply list_lookup_insert_eq. by eapply lookup_lt_Some.
Qed.

Lemma swap_lookup_other positions i j k :
  k ≠ i → k ≠ j → Main.swap positions i j !! k = positions !! k.
Proof.
  intros Hi Hj. unfold Main.swap.
  destruct (positions !! i), (positions !! j); try done.
  by rewrite !list_lookup_insert_ne.
Qed.

Lemma shuffle_reaches i positions target :
  (i < length positions)%nat → length target = length positions →
  take (S i) target ≡ₚ take (S i) positions →
  drop (S i) target = drop (S i) positions →
  ∃ rnd, Main.shuffle rnd i positions = target.
Proof.
  revert positions. induction i as [|i IH]; intros positions Hlt Hlen Htake Hdrop.
  - exists (λ _, 0%nat). cbn [Main.shuffle].
    destruct positions as [|p positions]; [simpl in Hlt; lia|].
    destruct target as [|t target]; [done|].
    cbn [take drop] in *. rewrite !take_0 in Htake. rewrite !drop_0 in Hdrop.
    apply Permutation_singleton_r in Htake. congruence.
  - destruct (lookup_lt_is_Some_2 target (S i)) as [e He]; [lia|].
    destruct (lookup_lt_is_Some_2 positions (S i)) as [x Hx]; [lia|].
    assert (∃ j, positions !! j = Some e ∧ (j < S (S i))%nat) as (j & Hj & Hjlt).
    { apply elem_of_take. rewrite <- Htake. apply elem_of_take. eauto. }
    set (l' := Main.swap positions (S i) j).
    assert (l' !! S i = Some e) as Hl'i by (by eapply swap_lookup).
    assert (drop (S (S i)) l' = drop (S (S i)) positions) as Hl'drop.
    { apply list_eq. intros k. rewrite !lookup_drop.
      apply swap_lookup_other; lia. }
    assert (take (S (S i)) l' ≡ₚ take (S (S i)) positions) as Hl'take.
    { pose proof (swap_Permutation positions (S i) j) as Hp. fold l' in Hp.
      rewrite <- (take_drop (S (S i)) l'), <- (take_drop (S (S i)) positions) in Hp.
      rewrite Hl'drop in Hp. by apply Permutation_app_inv_r in Hp. }
    destruct (IH l') as [rnd' Hrnd'].
    + unfold l'. rewrite swap_length. lia.
    + unfold l'. by rewrite swap_length.
    + rewrite <- Hl'take, (take_S_r _ _ _ He), (take_S_r _ _ _ Hl'i) in Htake.
      by apply Permutation_app_inv_r in Htake.
    + rewrite (drop_S _ _ _ He), (drop_S _ _ _ Hl'i). congruence.
    + exists (λ k, if decide (k = S i) then j else rnd' k).
      change (Main.shuffle ?r (S i) positions)
        with (Main.shuffle r i
                (Main.swap positions (S i) (r (S i) mod (S i + 1))%nat)).
      cbn beta. rewrite decide_True by done. rewrite Nat.mod_small by lia.
      fold l'. rewrite <- Hrnd'. apply shuffle_ext.
      intros k Hk. by rewrite decide_False by lia.
Qed.

(** X18. The shuffle of [initField] (main.ts) can produce every order:
    for each rearrangement of the candidate positions there are draws of
    [Math.random] for which the loop leaves exactly that order. With X1,
    the outcomes of the loop are exactly the rearrangements of its input. *)
Theorem shuffle_reaches_every_order positions target :
  target ≡ₚ positions →
  ∃ rnd, Main.shuffle rnd (length positions - 1) positions = target.
Proof.
  intros Hp. destruct positions as [|p positions].
  { apply Permutation_nil_r in Hp as ->. by exists (λ _, 0%nat). }
  pose proof (Permutation_length Hp) as Hlen.
  apply shuffle_reaches.
  - simpl. lia.
  - done.
  - rewrite !take_ge; [done|simpl; lia|simpl in *; lia].
  - rewrite !drop_ge; [done|simpl; lia|simpl in *; lia].
Qed.

Lemma shuffle_reaches_every_order_witness :
  ∃ rnd, Main.shuffle rnd (length [(0, 0); (0, 1); (1, 0)] - 1)
           [(0, 0); (0, 1); (1, 0)]
         = [(1, 0); (0, 0); (0, 1)].
Proof.
  apply (shuffle_reaches_every_order [(0, 0); (0, 1); (1, 0)]
           [(1, 0); (0, 0); (0, 1)]).
  apply (Permutation_cons_append [(0, 0); (0, 1)] (1, 0)).
Defined.


(** ** The win test when no revealed cell is clicked again *)

Lemma revealedAt_reveal (slots slots' : gmap Position MineSlot)
    (ps : list Position) q :
  (∀ p, p ∈ ps → is_Some (slots !! p)) →
  (∀ q, slots' !! q =
     if decide (q ∈ ps) then set_reveal true <$> slots !! q else slots !! q) →
  revealedAt slots' q = true ↔ q ∈ ps ∨ revealedAt slots q = true.
Proof.
  intros Hs Hl. unfold revealedAt. rewrite Hl. case_decide as Hq.
  - destruct (Hs q Hq) as [s ->]. simpl. tauto.
  - tauto.
Qed.

Lemma gridRevealed_reveal width height slots slots' ps :
  NoDup ps →
  (∀ p, p ∈ ps → inGrid width height p ∧ revealedAt slots p = false
                 ∧ is_Some (slots !! p)) →
  (∀ q, slots' !! q =
     if decide (q ∈ ps) then set_reveal true <$> slots !! q else slots !! q) →
  gridRevealed width height slots'
  = gridRevealed width height slots + Z.of_nat (length ps).
Proof.
  intros Hnd Hps Hl. unfold gridRevealed.
  rewrite <- Nat2Z.inj_add, <- length_app. f_equal. apply Permutation_length.
  apply NoDup_Permutation.
  - apply NoDup_filter, NoDup_gridPositions.
  - apply NoDup_app. split_and!; [apply NoDup_filter, NoDup_gridPositions| |done].
    intros p [Hr _]%list_elem_of_filter Hp. destruct (Hps p Hp) as (_ & ? & _).
    congruence.
  - intros p. rewrite elem_of_app, !list_elem_of_filter.
    rewrite (revealedAt_reveal slots slots' ps p); [|by intros ? (_ & _ & ?)%Hps|done].
    split; [tauto|]. intros [?|Hp]; [tauto|]. split; [by left|].
    destruct (Hps p Hp) as (Hg & _). destruct p. by apply elem_of_gridPositions.
Qed.

Lemma gridSafe_sameCells width height slots slots' :
  sameCells slots slots' → gridSafe width height slots' = gridSafe width height slots.
Proof.
  intros Hs. unfold gridSafe. do 2 f_equal. apply list_filter_iff.
  intros p. by rewrite (sameCells_hasMineAt slots).
Qed.

(** With only safe cells revealed and as many revealed as there are safe
    cells, every safe cell is revealed; and conversely the two numbers
    agree. *)
Lemma allSafeRevealed_count width height slots :
  (∀ p, revealedAt slots p = true → hasMineAt slots p = false) →
  allSafeRevealed width height slots
  ↔ gridRevealed width height slots = gridSafe width height slots.
Proof.
  intros Hsafe. unfold allSafeRevealed, gridRevealed, gridSafe.
  set (R := filter (λ p, revealedAt slots p = true) (gridPositions width height)).
  set (S := filter (λ p, hasMineAt slots p = false) (gridPositions width height)).
  assert (R ⊆+ S) as Hsub.
  { apply NoDup_submseteq; [apply NoDup_filter, NoDup_gridPositions|].
    intros p [Hr Hg]%list_elem_of_filter. apply list_elem_of_filter. auto. }
  split.
  - intros Hall. f_equal. apply Permutation_length.
    apply (anti_symm submseteq); [done|].
    apply NoDup_submseteq; [apply NoDup_filter, NoDup_gridPositions|].
    intros p [Hm Hg]%list_elem_of_filter. apply list_elem_of_filter. auto.
  - intros Heq p Hg Hm.
    assert (R ≡ₚ S) as Hperm by (apply submseteq_length_Permutation; [done|lia]).
    assert (p ∈ R) as [? _]%list_elem_of_filter; [|done].
    rewrite Hperm. by apply list_elem_of_filter.
Qed.

Lemma Main_click_exact rnd x y b :
  Main.fieldInited b = true →
  exactReveals (Main.width b) (Main.height b) (Main.slots b) (Main.revealCount b)
    (Main.width b * Main.height b - Main.mineCount b) (Main.state b) →
  revealedAt (Main.slots b) (x, y) = false →
  let b' := (Main.click rnd x y b).1 in
  exactReveals (Main.width b) (Main.height b) (Main.slots b') (Main.revealCount b')
    (Main.width b * Main.height b - Main.mineCount b) (Main.state b') ∧
  ((Main.state b = playing → Main.revealCount b ≠ Main.width b * Main.height b - Main.mineCount b) →
   Main.state b' = playing → Main.revealCount b' ≠ Main.width b * Main.height b - Main.mineCount b).
Proof.
  intros Hi (Hwc & Htot & Hcnt & Hsafe & Hwin) Hxy.
  destruct (Main_initField_frame rnd x y b) as (_ & _ & _ & _ & _ & Hb).
  specialize (Hb Hi).
  pose proof (Main_click_cases rnd x y b) as Hc. cbn zeta in Hc. rewrite Hb in Hc.
  cbn [fst] in Hc. cbn zeta.
  destruct Hc
    as [[Hv ->]|[Hv [[-> _]|[(slot & Hs & Hm & ->)|[(slot & Hs & Hm & Hp & ->)
        |(slot & ps & slots' & evs & Hs & Hm & Hp & Ht & Hpos & _ & Hl & ->)]]]]];
    cbn zeta; cbn [fst snd];
    try (cbn [Main.slots Main.revealCount Main.state Main.set_state];
         split; [by split_and!|done]).
  pose proof (touchingNoMine_spec _ _ _ _ _ _ Hv Hs Hm) as Hsp.
  rewrite Ht in Hsp. destruct Hsp as [[Hnd Hval Hsl _] _].
  rewrite app_nil_l in Hnd, Hval, Hsl.
  assert (∀ p, p ∈ ps → revealedAt (Main.slots b) p = false
                        ∧ hasMineAt (Main.slots b) p = false) as Hfresh.
  { intros p Hin.
    destruct (floodReach_safe _ _ _ _ _ (touchingNoMine_sound _ _ _ _ _ _ Ht _ Hin))
      as [->|(_ & sp & Hsp & Hmp & Hrp)].
    - split; [done|]. unfold hasMineAt. by rewrite Hs.
    - unfold revealedAt, hasMineAt. by rewrite Hsp. }
  assert (sameCells (Main.slots b) slots') as Hsame.
  { intros q. rewrite Hl. case_decide; [|done].
    by destruct (Main.slots b !! q). }
  assert (exactReveals (Main.width b) (Main.height b) slots'
            (Main.revealCount b + Z.of_nat (length ps)) (Main.width b * Main.height b - Main.mineCount b) playing) as Hex.
  { split_and!.
    - by eapply wellCounted_sameCells.
    - by rewrite (gridSafe_sameCells _ _ (Main.slots b)).
    - rewrite (gridRevealed_reveal _ _ (Main.slots b) slots' ps); [lia|done| |done].
      intros p Hin. destruct (Hfresh p Hin). auto.
    - intros p Hr. rewrite (sameCells_hasMineAt (Main.slots b)) by done.
      apply (revealedAt_reveal (Main.slots b) slots' ps) in Hr as [Hin|Hr];
        [by apply Hfresh|by apply Hsafe|done|done].
    - done. }
  destruct Hex as (Hex1 & Hex2 & Hex3 & Hex4 & _).
  case_bool_decide as Htest;
    cbn [Main.slots Main.revealCount Main.state Main.set_state Main.set_revealCount
         Main.set_slots Main.width Main.height Main.mineCount] in *.
  - split; [by split_and!|done].
  - rewrite Hp. split; [by split_and!|]. by intros _ _.
Qed.

Lemma Part000_click_exact x y b :
  Part000.fieldInited b = true →
  exactReveals (Part000.width b) (Part000.height b) (Part000.slots b) (Part000.revealCount b)
    (Part000.totalSpaceCount b) (Part000.state b) →
  revealedAt (Part000.slots b) (x, y) = false →
  let b' := (Part000.click x y b).1 in
  exactReveals (Part000.width b) (Part000.height b) (Part000.slots b') (Part000.revealCount b')
    (Part000.totalSpaceCount b) (Part000.state b') ∧
  ((Part000.state b = playing → Part000.revealCount b ≠ Part000.totalSpaceCount b) →
   Part000.state b' = playing → Part000.revealCount b' ≠ Part000.totalSpaceCount b).
Proof.
  intros Hi (Hwc & Htot & Hcnt & Hsafe & Hwin) Hxy.
  destruct (Part000_initField_frame x y b) as (_ & _ & _ & _ & _ & Hb).
  specialize (Hb Hi).
  pose proof (Part000_click_cases x y b) as Hc. cbn zeta in Hc. rewrite Hb in Hc.
  cbn [fst] in Hc. cbn zeta.
  destruct Hc
    as [[Hv ->]|[Hv [[-> _]|[(slot & Hs & Hm & ->)|[(slot & Hs & Hm & Hp & ->)
        |(slot & ps & slots' & evs & Hs & Hm & Hp & Ht & Hpos & _ & Hl & ->)]]]]];
    cbn zeta; cbn [fst snd];
    try (cbn [Part000.slots Part000.revealCount Part000.state Part000.set_state];
         split; [by split_and!|done]).
  pose proof (touchingNoMine_spec _ _ _ _ _ _ Hv Hs Hm) as Hsp.
  rewrite Ht in Hsp. destruct Hsp as [[Hnd Hval Hsl _] _].
  rewrite app_nil_l in Hnd, Hval, Hsl.
  assert (∀ p, p ∈ ps → revealedAt (Part000.slots b) p = false
                        ∧ hasMineAt (Part000.slots b) p = false) as Hfresh.
  { intros p Hin.
    destruct (floodReach_safe _ _ _ _ _ (touchingNoMine_sound _ _ _ _ _ _ Ht _ Hin))
      as [->|(_ & sp & Hsp & Hmp & Hrp)].
    - split; [done|]. unfold hasMineAt. by rewrite Hs.
    - unfold revealedAt, hasMineAt. by rewrite Hsp. }
  assert (sameCells (Part000.slots b) slots') as Hsame.
  { intros q. rewrite Hl. case_decide; [|done].
    by destruct (Part000.slots b !! q). }
  assert (exactReveals (Part000.width b) (Part000.height b) slots'
            (Part000.revealCount b + Z.of_nat (length ps)) (Part000.totalSpaceCount b) playing) as Hex.
  { split_and!.
    - by eapply wellCounted_sameCells.
    - by rewrite (gridSafe_sameCells _ _ (Part000.slots b)).
    - rewrite (gridRevealed_reveal _ _ (Part000.slots b) slots' ps); [lia|done| |done].
      intros p Hin. destruct (Hfresh p Hin). auto.
    - intros p Hr. rewrite (sameCells_hasMineAt (Part000.slots b)) by done.
      apply (revealedAt_reveal (Part000.slots b) slots' ps) in Hr as [Hin|Hr];
        [by apply Hfresh|by apply Hsafe|done|done].
    - done. }
  destruct Hex as (Hex1 & Hex2 & Hex3 & Hex4 & _).
  case_bool_decide as Htest;
    cbn [Part000.slots Part000.revealCount Part000.state Part000.set_state Part000.set_revealCount
         Part000.set_slots Part000.width Part000.height Part000.totalSpaceCount] in *.
  - split; [by split_and!|done].
  - rewrite Hp. split; [by split_and!|]. by intros _ _.
Qed.

Lemma gridRevealed_unrevealed width height slots :
  unrevealed slots → gridRevealed width height slots = 0.
Proof.
  intros Hun. unfold gridRevealed. rewrite filter_none; [done|].
  intros p _. unfold revealedAt. destruct (slots !! p) as [s|] eqn:Hs; [|done].
  by rewrite (Hun p s Hs).
Qed.

Lemma unrevealed_revealedAt slots p : unrevealed slots → revealedAt slots p = false.
Proof.
  intros Hun. unfold revealedAt. destruct (slots !! p) as [s|] eqn:Hs; [|done].
  by apply (Hun p s).
Qed.

Lemma gridSafe_positive width height slots x y :
  isVaildPosition width height x y = true → hasMineAt slots (x, y) = false →
  1 ≤ gridSafe width height slots.
Proof.
  intros Hv Hm. unfold gridSafe.
  assert ((x, y) ∈ filter (λ p, hasMineAt slots p = false)
                     (gridPositions width height)) as Hin.
  { apply list_elem_of_filter. split; [done|by apply elem_of_gridPositions]. }
  destruct (filter _ _); [by apply elem_of_nil in Hin|]. simpl. lia.
Qed.

(** Every board of part_000 played without a repeated click is untouched,
    or initialised with counters that tell the truth. *)
Lemma Part000_played_exact b :
  Part000_played b →
  (Part000.fieldInited b = false ∧ Part000.slots b = ∅ ∧
   Part000.totalSpaceCount b = 0 ∧ Part000.state b = playing ∧
   Part000.revealCount b = 0) ∨
  (Part000.fieldInited b = true ∧
   exactReveals (Part000.width b) (Part000.height b) (Part000.slots b)
     (Part000.revealCount b) (Part000.totalSpaceCount b) (Part000.state b) ∧
   (Part000.state b = playing →
    Part000.revealCount b ≠ Part000.totalSpaceCount b)).
Proof.
  induction 1 as [coin width height randomer|x y b Hp IH Hxy]; [by left|].
  destruct (Part000_click_frame x y b) as (Hw & Hh & _).
  destruct IH as [(Hi & He & Ht & Hst & Hrc)|(Hi & Hex & Hopen)].
  - destruct (isVaildPosition (Part000.width b) (Part000.height b) x y) eqn:Hv.
    2:{ rewrite Part000_click_invalid by done. left. by split_and!. }
    right.
    destruct (Part000_first_init x y b Hi He Ht Hv)
      as (b1 & Hc & Hi1 & Hst1 & Hrc1 & Hw1 & Hh1 & Hwc & Hun & Hmines & Htot).
    rewrite Hc in *. rewrite <- Hw1, <- Hh1 in *.
    destruct (Part000_click_keeps x y b1 Hi1) as (_ & _ & Hi' & Ht' & _).
    destruct (Part000_click_exact x y b1 Hi1) as [Hex' Hopen'].
    + split_and!; [done|done| | |congruence].
      * rewrite Hrc1, Hrc. symmetry. by apply gridRevealed_unrevealed.
      * intros p. by rewrite (unrevealed_revealedAt _ p Hun).
    + by apply unrevealed_revealedAt.
    + cbn zeta in *. rewrite Hw, Hh, Ht'. split_and!; [done|done|].
      apply Hopen'. intros _. rewrite Hrc1, Hrc, Htot.
      assert (1 ≤ gridSafe (Part000.width b1) (Part000.height b1) (Part000.slots b1));
        [|lia].
      apply (gridSafe_positive _ _ _ x y); [done|].
      rewrite Hmines by done. unfold drawnMine. by rewrite bool_decide_eq_true_2.
  - right.
    destruct (Part000_click_keeps x y b Hi) as (_ & _ & Hi' & Ht' & _).
    destruct (Part000_click_exact x y b Hi Hex Hxy) as [Hex' Hopen'].
    cbn zeta in *. rewrite Hw, Hh, Ht'. split_and!; [done|done|by apply Hopen'].
Qed.

Lemma grid_transpose width height :
  gridPositions width height
  ≡ₚ (λ p : Position, (p.2, p.1)) <$> gridPositions height width.
Proof.
  apply NoDup_Permutation.
  - apply NoDup_gridPositions.
  - apply NoDup_fmap_2_strong; [|apply NoDup_gridPositions].
    intros [a b] [c d] _ _ [= -> ->]. done.
  - intros [x y]. rewrite elem_of_gridPositions, list_elem_of_fmap. split.
    + intros Hv. exists (y, x). split; [done|]. apply elem_of_gridPositions.
      apply isVaildPosition_true in Hv. apply isVaildPosition_true. lia.
    + intros ([a b] & [= -> ->] & Hv%elem_of_gridPositions).
      apply isVaildPosition_true in Hv. apply isVaildPosition_true. lia.
Qed.

(** A board built from a layout has counters that tell the truth. *)
Lemma Main_layout_exact width height layout b :
  Main.constructor width height (inr layout) = Ret b →
  Main.fieldInited b = true ∧
  exactReveals (Main.width b) (Main.height b) (Main.slots b) (Main.revealCount b)
    (Main.width b * Main.height b - Main.mineCount b) (Main.state b) ∧
  Main.state b = playing ∧ Main.revealCount b = 0.
Proof.
  intros Hb.
  destruct (Main_constructor_layout width height layout) as (slots & Heq & Hwc & Hl).
  cbn zeta in Heq. rewrite Heq in Hb. injection Hb as <-.
  cbn [Main.fieldInited Main.width Main.height Main.slots Main.revealCount
       Main.mineCount Main.state].
  set (rows := Main.parseRows layout) in *.
  set (w := length (default [] (rows !! 0%nat))) in *.
  set (h := length rows) in *.
  assert (unrevealed slots) as Hun.
  { intros [x y] s Hs. destruct Hwc as (_ & Hfit & _).
    destruct (Hl x y) as (s' & Hs' & Hr & _); [apply Hfit; eauto|]. congruence. }
  assert (gridMines (Z.of_nat w) (Z.of_nat h) slots = Z.of_nat (xTokensRead rows w))
    as Hgm.
  { unfold gridMines. f_equal.
    rewrite (filter_ext_in _
               (λ p : Position, Main.isX rows (Z.to_nat p.1) (Z.to_nat p.2) = true)).
    2:{ intros [x y] Hp%elem_of_gridPositions.
        destruct (Hl x y Hp) as (s & Hs & _ & Hm). unfold hasMineAt.
        by rewrite Hs, Hm. }
    rewrite grid_transpose, length_filter_fmap.
    transitivity (xTokensRead (take h rows) w); [|by rewrite take_ge].
    rewrite <- xTokensRead_grid by done. done. }
  split_and!; try done. unfold exactReveals. split_and!; try done.
  - pose proof (gridSafe_gridMines (Z.of_nat w) (Z.of_nat h) slots) as Hsum.
    rewrite length_gridPositions, Hgm in Hsum. rewrite !Nat2Z.id in Hsum. lia.
  - symmetry. by apply gridRevealed_unrevealed.
  - intros p. by rewrite (unrevealed_revealedAt _ p Hun).
Qed.

(** Every board of main.ts played without a repeated click from a layout
    board or a fresh square board is a fresh square board, or initialised
    with counters that tell the truth. *)
Lemma Main_played_exact b0 b :
  (∃ width height layout, Main.constructor width height (inr layout) = Ret b0) ∨
  (∃ n mineCount, 0 ≤ mineCount ∧ Main.constructor n n (inl mineCount) = Ret b0) →
  Main_played b0 b →
  (∃ n mineCount, 0 ≤ mineCount < n * n ∧
     b = Main.mkMineBoard ∅ mineCount playing 0 n n false) ∨
  (Main.fieldInited b = true ∧
   exactReveals (Main.width b) (Main.height b) (Main.slots b) (Main.revealCount b)
     (Main.width b * Main.height b - Main.mineCount b) (Main.state b) ∧
   (Main.mineCount b ≠ Main.width b * Main.height b →
    Main.state b = playing →
    Main.revealCount b ≠ Main.width b * Main.height b - Main.mineCount b)).
Proof.
  intros H0. induction 1 as [|rnd x y b Hp IH Hxy].
  - destruct H0 as [(w & h & layout & Hb)|(n & mc & Hmc & Hb)].
    + right. destruct (Main_layout_exact w h layout b0 Hb) as (Hi & Hex & Hst & Hrc).
      split_and!; [done|done|]. intros Hne _. rewrite Hrc. lia.
    + left. exists n, mc. unfold Main.constructor in Hb.
      destruct (Z.geb_spec mc (n * n)); [done|]. injection Hb as <-.
      split; [lia|done].
  - destruct (Main_click_frame rnd x y b) as (Hw & Hh & _).
    destruct IH as [(n & mc & Hmc & ->)|(Hi & Hex & Hopen)].
    + destruct (isVaildPosition n n x y) eqn:Hv.
      2:{ left. exists n, mc. split; [done|].
          by rewrite (Main_click_invalid rnd
                        (Main.mkMineBoard ∅ mc playing 0 n n false) x y Hv). }
      right.
      destruct (Main_first_init_square rnd n mc x y Hmc Hv)
        as (b1 & Hc & Hi1 & Hst1 & Hrc1 & Hw1 & Hh1 & Hm1 & Hwc & Hun & Hgm & Hsafe).
      cbn [Main.width Main.height] in Hw, Hh.
      rewrite Hc in *.
      destruct (Main_click_keeps rnd x y b1 Hi1) as (_ & _ & Hi' & Hm' & _).
      assert (n * n - mc = gridSafe n n (Main.slots b1)) as Htot.
      { pose proof (gridSafe_gridMines n n (Main.slots b1)) as Hsum.
        rewrite (grid_cells n n x y Hv) in Hsum. lia. }
      destruct (Main_click_exact rnd x y b1 Hi1) as [Hex' Hopen'].
      * rewrite Hw1, Hh1, Hm1, Hrc1. split_and!; [done|done| | |congruence].
        -- symmetry. by apply gridRevealed_unrevealed.
        -- intros p. by rewrite (unrevealed_revealedAt _ p Hun).
      * by apply unrevealed_revealedAt.
      * cbn zeta in *. rewrite Hw1, Hh1 in Hex', Hopen'.
        rewrite Hw, Hh, Hm'. split_and!; [done|done|].
        intros _. apply Hopen'. intros _. rewrite Hm1, Hrc1. lia.
    + right.
      destruct (Main_click_keeps rnd x y b Hi) as (_ & _ & Hi' & Hm' & _).
      destruct (Main_click_exact rnd x y b Hi Hex Hxy) as [Hex' Hopen'].
      cbn zeta in *. rewrite Hw, Hh, Hm'. split_and!; [done|done|].
      intros Hne. apply Hopen'. by apply Hopen.
Qed.

(** X19. The win test is exact as long as no revealed cell is clicked
    again. On every initialised board of part_000 reached by clicks none of
    which lands on a revealed cell, and on every such board of main.ts
    reached from a layout board or from a square board built with
    [0 ≤ mineCount]: [revealCount] is the number of revealed cells, only
    cells without a mine are revealed, a board whose state is [win] has
    every safe cell revealed, and a board with every safe cell revealed (in
    main.ts: unless every cell is a mine) is no longer in play. *)
Theorem win_exact_without_repeats :
  (∀ b, Part000_played b → Part000.fieldInited b = true →
     Part000.revealCount b
     = gridRevealed (Part000.width b) (Part000.height b) (Part000.slots b) ∧
     (∀ p, revealedAt (Part000.slots b) p = true →
           hasMineAt (Part000.slots b) p = false) ∧
     (Part000.state b = win →
      allSafeRevealed (Part000.width b) (Part000.height b) (Part000.slots b)) ∧
     (allSafeRevealed (Part000.width b) (Part000.height b) (Part000.slots b) →
      Part000.state b ≠ playing)) ∧
  (∀ b0 b,
     (∃ width height layout, Main.constructor width height (inr layout) = Ret b0) ∨
     (∃ n mineCount, 0 ≤ mineCount ∧ Main.constructor n n (inl mineCount) = Ret b0) →
     Main_played b0 b → Main.fieldInited b = true →
     Main.revealCount b
     = gridRevealed (Main.width b) (Main.height b) (Main.slots b) ∧
     (∀ p, revealedAt (Main.slots b) p = true → hasMineAt (Main.slots b) p = false) ∧
     (Main.state b = win →
      allSafeRevealed (Main.width b) (Main.height b) (Main.slots b)) ∧
     (Main.mineCount b ≠ Main.width b * Main.height b →
      allSafeRevealed (Main.width b) (Main.height b) (Main.slots b) →
      Main.state b ≠ playing)).
Proof.
  split.
  - intros b Hp Hi.
    destruct (Part000_played_exact b Hp)
      as [(Hf & _)|(_ & (Hwc & Htot & Hcnt & Hsafe & Hwin) & Hopen)]; [congruence|].
    split_and!; [done|done| |].
    + intros Hst. apply allSafeRevealed_count; [done|]. rewrite <- Hcnt, <- Htot. auto.
    + intros Hall Hst. apply allSafeRevealed_count in Hall; [|done].
      apply (Hopen Hst). congruence.
  - intros b0 b H0 Hp Hi.
    destruct (Main_played_exact b0 b H0 Hp)
      as [(n & mc & _ & ->)|(_ & (Hwc & Htot & Hcnt & Hsafe & Hwin) & Hopen)]; [done|].
    split_and!; [done|done| |].
    + intros Hst. apply allSafeRevealed_count; [done|]. rewrite <- Hcnt, <- Htot. auto.
    + intros Hne Hall Hst. apply allSafeRevealed_count in Hall; [|done].
      apply (Hopen Hne Hst). congruence.
Qed.

Lemma win_exact_without_repeats_witness :
  Main.revealCount (Main.click (λ _, 0%nat) 0 0 board_2x2).1
  = gridRevealed 2 2 (Main.slots (Main.click (λ _, 0%nat) 0 0 board_2x2).1).
Proof.
  refine (proj1 (proj2 win_exact_without_repeats board_2x2
                   (Main.click (λ _, 0%nat) 0 0 board_2x2).1 _ _ _)).
  - left. exists 5, 5, layout_2x2. reflexivity.
  - apply Main_played_click; [apply Main_played_refl|reflexivity].
  - reflexivity.
Defined.
